(** * tensorcircuit: the Circuit class as a tensor network under construction

    A shallow embedding of [tensorcircuit/circuit.py].  The Python objects the
    class manipulates (the nodes and edges of the [tensornetwork] package) live
    in an explicit store, the [World]; object identity is the position in the
    store, so that aliasing between [_nodes], [_front] and the edge slots of
    the nodes is visible.  Exceptions are results: every operation returns the
    store it leaves behind together with a value or the exception raised. *)

From Stdlib Require Import ZArith Lia List Ascii Ring_theory.
From stdpp Require Import base decidable option list gmap strings pretty.

Open Scope nat_scope.

(** ** Exceptions and the state-and-exception monad *)

(** The Python exceptions the class can raise.  [NoSuchObject] has no Python
    counterpart: it is what the model answers when an identifier does not
    denote an object of the store, which no Python reference can do. *)
Inductive exn : Type :=
  | ValueError | AssertionError | IndexError | KeyError | NoSuchObject.

Inductive outcome (S A : Type) : Type :=
  | Ret (s : S) (a : A)
  | Raise (s : S) (e : exn).
Arguments Ret {S A} s a.
Arguments Raise {S A} s e.

Definition M (S A : Type) : Type := S → outcome S A.

Definition ret {S A} (a : A) : M S A := λ s, Ret s a.
Definition raise {S A} (e : exn) : M S A := λ s, Raise s e.
Definition bind {S A B} (m : M S A) (k : A → M S B) : M S B :=
  λ s, match m s with
       | Ret s' a => k a s'
       | Raise s' e => Raise s' e
       end.
Definition get_state {S} : M S S := λ s, Ret s s.
Definition put_state {S} (s : S) : M S unit := λ _, Ret s tt.
Definition from_opt {S A} (e : exn) (o : option A) : M S A :=
  match o with Some a => ret a | None => raise e end.

Notation "x <- m ;; k" := (bind m (λ x, k))
  (at level 100, m at next level, right associativity).
Notation "m ;;; k" := (bind m (λ _, k))
  (at level 100, right associativity).

(** [for x in l: f(x)] *)
Fixpoint for_each {S A} (f : A → M S unit) (l : list A) : M S unit :=
  match l with
  | [] => ret tt
  | x :: l' => f x ;;; for_each f l'
  end.

(** [[f(x) for x in l]] *)
Fixpoint for_collect {S A B} (f : A → M S B) (l : list A) : M S (list B) :=
  match l with
  | [] => ret []
  | x :: l' => y <- f x ;; ys <- for_collect f l' ;; ret (y :: ys)
  end.

(** ** Python lists indexed by integers *)

(** [l[i]] accepts [-len(l) <= i < len(l)]; a negative [i] counts from the
    end.  Anything else is an [IndexError]. *)
Definition py_norm (len : nat) (i : Z) : option nat :=
  if ((0 <=? i) && (i <? Z.of_nat len))%Z then Some (Z.to_nat i)
  else if ((- Z.of_nat len <=? i) && (i <? 0))%Z
       then Some (Z.to_nat (Z.of_nat len + i))
       else None.

Definition py_get {A} (l : list A) (i : Z) : option A :=
  p ← py_norm (length l) i; l !! p.

Definition py_set {A} (l : list A) (i : Z) (x : A) : option (list A) :=
  p ← py_norm (length l) i; Some (<[p := x]> l).

(** [range(n)] and [range(a, b)] for integers *)
Definition py_range (a b : Z) : list Z := seqZ a (b - a).

(** ** Dense arrays *)

Section TensorNetwork.
Context {K : Type}.
Variables (kO kI : K) (kadd kmul : K → K → K).

(** A dense array: its shape and its entries in row-major order. *)
Record Tensor : Type := mkTensor { shape : list nat; data : list K }.

Definition prod_dims (sh : list nat) : nat := fold_right Nat.mul 1 sh.

(** Row-major position of a multi-index. *)
Fixpoint offset (sh idx : list nat) : nat :=
  match sh, idx with
  | _ :: sh', i :: idx' => i * prod_dims sh' + offset sh' idx'
  | _, _ => 0
  end.

Definition entry (t : Tensor) (idx : list nat) : K :=
  nth (offset (shape t) idx) (data t) kO.

(** All multi-indices of a shape, first index slowest (row-major). *)
Fixpoint all_indices (sh : list nat) : list (list nat) :=
  match sh with
  | [] => [[]]
  | d :: sh' => flat_map (λ i, cons i <$> all_indices sh') (seq 0 d)
  end.

(** [backend.reshape(t, shape=[1, -1])]: one row holding all entries. *)
Definition reshape_row (t : Tensor) : Tensor :=
  mkTensor [1; length (data t)] (data t).

(** ** The store of [tensornetwork] objects *)

(** An [Edge] object: the node and axis it belongs to and, when connected,
    the node and axis at its other end. *)
Record Edge : Type := mkEdge {
  node1 : nat;
  axis1 : nat;
  node2 : option (nat * nat)
}.

(** A [Node] object: its tensor, the edge object sitting at each axis, and
    its name. *)
Record Node : Type := mkNode {
  tensor : Tensor;
  edges : list nat;
  name : string
}.

Record World : Type := mkWorld {
  w_nodes : list Node;
  w_edges : list Edge
}.

Definition is_dangling (ed : Edge) : bool :=
  match node2 ed with None => true | Some _ => false end.

(** [edge.dimension] is [edge.node1.shape[edge.axis1]]. *)
Definition edge_dim (w : World) (ed : Edge) : option nat :=
  nd ← w_nodes w !! node1 ed; shape (tensor nd) !! axis1 ed.

Definition set_node_edges (nd : Node) (es : list nat) : Node :=
  mkNode (tensor nd) es (name nd).

(** [tn.Node(tensor, name=nm)]: a new node with one new dangling edge per
    axis. *)
Definition tn_Node (t : Tensor) (nm : string) : M World nat := λ w,
  let n := length (w_nodes w) in
  let e0 := length (w_edges w) in
  let r := length (shape t) in
  Ret (mkWorld (w_nodes w ++ [mkNode t (seq e0 r) nm])
               (w_edges w ++ ((λ a, mkEdge n a None) <$> seq 0 r)))
      n.

(** [node.get_edge(a)] for an integer axis is [node.edges[a]]. *)
Definition get_edge (n : nat) (a : nat) : M World nat := λ w,
  match w_nodes w !! n with
  | None => Raise w NoSuchObject
  | Some nd => from_opt IndexError (edges nd !! a) w
  end.

(** [node.add_edge(edge, axis, override=True)] *)
Definition add_edge (n a e : nat) : M World unit := λ w,
  match w_nodes w !! n with
  | None => Raise w NoSuchObject
  | Some nd =>
      if negb (a <? length (shape (tensor nd))) then Raise w ValueError
      else if negb (a <? length (edges nd)) then Raise w IndexError
      else Ret (mkWorld (<[n := set_node_edges nd (<[a := e]> (edges nd))]>
                           (w_nodes w))
                        (w_edges w)) tt
  end.

(** [tn.connect(edge1, edge2)], also written [edge1 ^ edge2]: both edge
    objects must be dangling, distinct and of one dimension; a new edge
    object joining the two axes takes their place on both nodes.  The two
    old edge objects are not modified. *)
Definition connect (e1 e2 : nat) : M World nat := λ w,
  match w_edges w !! e1, w_edges w !! e2 with
  | Some d1, Some d2 =>
      if negb (is_dangling d1) then Raise w ValueError
      else if negb (is_dangling d2) then Raise w ValueError
      else if e1 =? e2 then Raise w ValueError
      else match edge_dim w d1, edge_dim w d2 with
           | Some x1, Some x2 =>
               if negb (x1 =? x2) then Raise w ValueError
               else
                 let new := length (w_edges w) in
                 let ed := mkEdge (node1 d1) (axis1 d1)
                                  (Some (node1 d2, axis1 d2)) in
                 (add_edge (node1 d1) (axis1 d1) new ;;;
                  add_edge (node1 d2) (axis1 d2) new ;;;
                  ret new)
                   (mkWorld (w_nodes w) (w_edges w ++ [ed]))
           | _, _ => Raise w NoSuchObject
           end
  | _, _ => Raise w NoSuchObject
  end.

(** *** The edges of a set of nodes *)

Definition node_edges (w : World) (n : nat) : list nat :=
  match w_nodes w !! n with Some nd => edges nd | None => [] end.

Definition attached (w : World) (ns : list nat) (e : nat) : bool :=
  existsb (λ n, bool_decide (e ∈ node_edges w n)) ns.

(** [tn.get_all_edges(nodes)]: the edge objects sitting on the nodes, each
    once.  The library returns a set; the model lists it in order of
    creation. *)
Definition get_all_edges (w : World) (ns : list nat) : list nat :=
  filter (λ e, attached w ns e) (seq 0 (length (w_edges w))).

(** An edge of the network is open when it is dangling or leaves the set of
    nodes ([tn.get_subgraph_dangling]). *)
Definition is_open (w : World) (ns : list nat) (e : nat) : bool :=
  match w_edges w !! e with
  | None => true
  | Some ed =>
      match node2 ed with
      | None => true
      | Some (m, _) =>
          negb (bool_decide (node1 ed ∈ ns) && bool_decide (m ∈ ns))
      end
  end.

Definition get_subgraph_dangling (w : World) (ns : list nat) : list nat :=
  filter (λ e, is_open w ns e) (get_all_edges w ns).

Definition inner_edges (w : World) (ns : list nat) : list nat :=
  filter (λ e, negb (is_open w ns e)) (get_all_edges w ns).

Definition dim_of (w : World) (e : nat) : nat :=
  default 0 (ed ← w_edges w !! e; edge_dim w ed).

(** *** [tn.copy] *)

Definition copy_edge (ndict : gmap nat nat) (ed : Edge) : option Edge :=
  n1 ← ndict !! node1 ed;
  match node2 ed with
  | None => Some (mkEdge n1 (axis1 ed) None)
  | Some (m, b) => n2 ← ndict !! m; Some (mkEdge n1 (axis1 ed) (Some (n2, b)))
  end.

Definition copy_node (edict : gmap nat nat) (nd : Node) : option Node :=
  es ← mapM (λ e, edict !! e) (edges nd); Some (set_node_edges nd es).

(** [tn.copy(nodes)]: every node of the list and every edge sitting on one
    of them gets a copy; the copies are wired to each other as the originals
    are.  The two dictionaries send each original to its copy.  A connected
    edge one of whose ends is not among [nodes] is a [KeyError].  The copy of
    a node carries the copy of each edge at the axis where the original
    carries it, which is where the library attaches it for a network whose
    edges sit at their own end points. *)
Definition tn_copy (ns : list nat) : M World (gmap nat nat * gmap nat nat) :=
  λ w,
  let all := get_all_edges w ns in
  let ndict : gmap nat nat :=
    list_to_map (zip ns (seq (length (w_nodes w)) (length ns))) in
  let edict : gmap nat nat :=
    list_to_map (zip all (seq (length (w_edges w)) (length all))) in
  match mapM (λ n, w_nodes w !! n) ns with
  | None => Raise w NoSuchObject
  | Some nds =>
      match mapM (λ e, w_edges w !! e) all with
      | None => Raise w NoSuchObject
      | Some eds =>
          match mapM (copy_edge ndict) eds, mapM (copy_node edict) nds with
          | Some eds', Some nds' =>
              Ret (mkWorld (w_nodes w ++ nds') (w_edges w ++ eds'))
                  (ndict, edict)
          | _, _ => Raise w KeyError
          end
      end
  end.

(** *** Contraction *)

Definition assignment : Type := nat → nat.

Definition upd (σ : assignment) (e x : nat) : assignment :=
  λ e', if e' =? e then x else σ e'.

Fixpoint upd_list (σ : assignment) (es vs : list nat) : assignment :=
  match es, vs with
  | e :: es', v :: vs' => upd_list (upd σ e v) es' vs'
  | _, _ => σ
  end.

(** The sum of [f 0 .. f (d-1)]. *)
Definition ksum (d : nat) (f : nat → K) : K :=
  fold_right (λ x acc, kadd (f x) acc) kO (seq 0 d).

(** The sum of [F] over all values of the listed indices. *)
Fixpoint sum_over (w : World) (es : list nat) (σ : assignment)
    (F : assignment → K) : K :=
  match es with
  | [] => F σ
  | e :: es' => ksum (dim_of w e) (λ x, sum_over w es' (upd σ e x) F)
  end.

(** The entry of a node's tensor selected by the values of its edges. *)
Definition node_val (w : World) (σ : assignment) (n : nat) : K :=
  match w_nodes w !! n with
  | Some nd => entry (tensor nd) (σ <$> edges nd)
  | None => kI
  end.

Definition kprod (l : list K) : K := fold_right kmul kI l.

Definition net_val (w : World) (ns : list nat) (σ : assignment) : K :=
  kprod (node_val w σ <$> ns).

(** One entry of the contracted network: the open edges [out] are held at
    the values [v], every connected edge is summed over. *)
Definition contract_at (w : World) (ns out v : list nat) : K :=
  sum_over w (inner_edges w ns) (upd_list (λ _, 0) out v)
           (net_val w (remove_dups ns)).

(** [tn.contractors.greedy(nodes, output_edge_order).tensor]: the tensor of
    the single node the whole network contracts to, its axes in the order
    [output_edge_order].  That order must list exactly the open edges of
    the network; when it is omitted the network may have at most one.  The
    order in which the library contracts pairs of nodes does not show in the
    result, which is the sum over all connected indices of the product of
    the nodes' entries. *)
Definition greedy (ns : list nat) (output_edge_order : option (list nat))
    : M World Tensor := λ w,
  let dang := get_subgraph_dangling w ns in
  match ns with
  | [] => Raise w ValueError
  | _ =>
    match
      match output_edge_order with
      | Some out => Some out
      | None => if 1 <? length dang then None else Some dang
      end
    with
    | None => Raise w ValueError
    | Some out =>
        if negb (forallb (λ e, bool_decide (e ∈ dang)) out
                 && forallb (λ e, bool_decide (e ∈ out)) dang)
        then Raise w ValueError
        else
          let sh := dim_of w <$> out in
          Ret w (mkTensor sh (contract_at w ns out <$> all_indices sh))
    end
  end.

(** ** The Circuit class *)

(** The fields of a [Circuit] object.  [_start] is the very list object
    [_nodes] names, and nothing reads it: [nodes] stands for both.  [attrs]
    holds the attributes [_meta_appy] sets: a gate name and the node it is
    bound to. *)
Record Circuit : Type := mkCircuit {
  nqubits : Z;
  nodes : list nat;
  front : list nat;
  attrs : list (string * nat)
}.

(** The program state: the store and the Circuit object at hand. *)
Record St : Type := mkSt { world : World; self : Circuit }.

Definition liftW {A} (m : M World A) : M St A := λ s,
  match m (world s) with
  | Ret w a => Ret (mkSt w (self s)) a
  | Raise w e => Raise (mkSt w (self s)) e
  end.

Definition read_front (i : Z) : M St nat := λ s,
  from_opt IndexError (py_get (front (self s)) i) s.

Definition write_front (i : Z) (e : nat) : M St unit := λ s,
  match py_set (front (self s)) i e with
  | None => Raise s IndexError
  | Some f' =>
      Ret (mkSt (world s)
                (mkCircuit (nqubits (self s)) (nodes (self s)) f'
                           (attrs (self s)))) tt
  end.

Definition append_node (g : nat) : M St unit := λ s,
  Ret (mkSt (world s)
            (mkCircuit (nqubits (self s)) (nodes (self s) ++ [g])
                       (front (self s)) (attrs (self s)))) tt.

(** The tensors of [np.array([[[1.0]], [[0,]]])], [np.array([[1.0], [0,]])],
    [np.array([1, 0])] and [np.array([0, 1])]. *)
Definition interior_tensor : Tensor := mkTensor [2; 1; 1] [kI; kO].
Definition end_tensor : Tensor := mkTensor [2; 1] [kI; kO].
Definition measure0 : Tensor := mkTensor [2] [kI; kO].
Definition measure1 : Tensor := mkTensor [2] [kO; kI].

Definition node_at (ns : list nat) (i : Z) : M World nat :=
  from_opt IndexError (py_get ns i).

(** [tn.connect(nodes[i].get_edge(a), nodes[j].get_edge(b))] *)
Definition connect_at (ns : list nat) (i : Z) (a : nat) (j : Z) (b : nat)
    : M World unit :=
  n <- node_at ns i ;; x <- get_edge n a ;;
  m <- node_at ns j ;; y <- get_edge m b ;;
  connect x y ;;; ret tt.

(** The gate constructors of the [gates] module, which [_meta_appy] calls by
    name: each returns a new node holding the gate's tensor. *)
Variable gates : string → Tensor.

Definition sgates : list string :=
  ["i"; "x"; "y"; "z"; "h"] ++ ["cnot"; "cz"; "swap"] ++ ["toffoli"].

Definition upper_char (c : ascii) : ascii :=
  let n := nat_of_ascii c in
  if (97 <=? n) && (n <=? 122) then ascii_of_nat (n - 32) else c.

Fixpoint upper (s : string) : string :=
  match s with
  | EmptyString => EmptyString
  | String c s' => String (upper_char c) (upper s')
  end.

(** [_meta_appy]: for each gate name, two nodes are built and bound, with
    [apply_general_gate], to the name and to its upper-case form. *)
Definition meta_appy : M World (list (string * nat)) :=
  l <- for_collect (λ g,
         a <- tn_Node (gates g) g ;;
         b <- tn_Node (gates g) g ;;
         ret [(g, a); (upper g, b)]) sgates ;;
  ret (concat l).

(** [Circuit.__init__] *)
Definition Circuit_init (n : Z) : M World Circuit :=
  if (n <? 2)%Z then raise ValueError
  else
    inner <- for_collect
               (λ x, tn_Node interior_tensor ("qb-" +:+ pretty (x + 1)%Z))
               (py_range 0 (n - 2)) ;;
    first <- tn_Node end_tensor ("qb-" +:+ pretty 0%Z) ;;
    let ns := first :: inner in
    last <- tn_Node end_tensor ("qb-" +:+ pretty (n - 1)%Z) ;;
    let ns := ns ++ [last] in
    for_each (λ i, connect_at ns i 2 (i + 1) 1) (py_range 1 (n - 2)) ;;;
    (if (n <? 3)%Z then connect_at ns 0 1 1 1
     else connect_at ns 0 1 1 1 ;;; connect_at ns (-1) 1 (-2) 2) ;;;
    fr <- for_collect (λ m, get_edge m 0) ns ;;
    at_ <- meta_appy ;;
    ret (mkCircuit n ns fr at_).

(** [apply_single_gate] *)
Definition apply_single_gate (gate : nat) (index : Z) : M St unit :=
  a <- liftW (get_edge gate 0) ;;
  f <- read_front index ;;
  liftW (connect a f) ;;;
  b <- liftW (get_edge gate 1) ;;
  write_front index b ;;;
  append_node gate.

(** [apply_double_gate] *)
Definition apply_double_gate (gate : nat) (index1 index2 : Z) : M St unit :=
  if bool_decide (index1 = index2) then raise AssertionError
  else
    a <- liftW (get_edge gate 0) ;;
    f <- read_front index1 ;;
    liftW (connect a f) ;;;
    a <- liftW (get_edge gate 1) ;;
    f <- read_front index2 ;;
    liftW (connect a f) ;;;
    b <- liftW (get_edge gate 2) ;;
    write_front index1 b ;;;
    b <- liftW (get_edge gate 3) ;;
    write_front index2 b ;;;
    append_node gate.

(** The loop of [apply_general_gate], from position [i] on. *)
Fixpoint gate_loop (gate noe i : nat) (index : list Z) : M St unit :=
  match index with
  | [] => ret tt
  | ind :: rest =>
      a <- liftW (get_edge gate i) ;;
      f <- read_front ind ;;
      liftW (connect a f) ;;;
      b <- liftW (get_edge gate (i + noe)) ;;
      write_front ind b ;;;
      gate_loop gate noe (S i) rest
  end.

(** [apply_general_gate] *)
Definition apply_general_gate (gate : nat) (index : list Z) : M St unit :=
  if negb (length index =? length (remove_dups index))
  then raise AssertionError
  else
    let noe := length index in
    gate_loop gate noe 0 index ;;;
    append_node gate.

(** [_copy] *)
Definition copy_ : M St (list nat * list nat) :=
  s <- get_state ;;
  d <- liftW (tn_copy (nodes (self s))) ;;
  newnodes <- from_opt KeyError (mapM (λ n, d.1 !! n) (nodes (self s))) ;;
  newfront <- from_opt KeyError (mapM (λ e, d.2 !! e) (front (self s))) ;;
  ret (newnodes, newfront).

(** [wavefunction] *)
Definition wavefunction : M St Tensor :=
  c <- copy_ ;;
  t <- liftW (greedy c.1 (Some c.2)) ;;
  ret (reshape_row t).

(** The first loop of [amplitude]: one projector node per character that is
    ['1'] or ['0'], named after the position of the character. *)
Fixpoint measure_nodes (i : nat) (l : list ascii) : M World (list nat) :=
  match l with
  | [] => ret []
  | s :: l' =>
      if bool_decide (s = "1"%char) then
        m <- tn_Node measure1 (pretty i +:+ "-measure") ;;
        ms <- measure_nodes (S i) l' ;; ret (m :: ms)
      else if bool_decide (s = "0"%char) then
        m <- tn_Node measure0 (pretty i +:+ "-measure") ;;
        ms <- measure_nodes (S i) l' ;; ret (m :: ms)
      else measure_nodes (S i) l'
  end.

(** The second loop of [amplitude]: [d_edges[i] ^ ms[i].get_edge(0)] for
    every position [i] of the string. *)
Definition measure_connect (d_edges ms : list nat) (len : nat)
    : M World unit :=
  for_each (λ i,
      d <- from_opt IndexError (d_edges !! i) ;;
      m <- from_opt IndexError (ms !! i) ;;
      e <- get_edge m 0 ;;
      connect d e ;;; ret tt) (seq 0 len).

(** [amplitude] *)
Definition amplitude (l : string) : M St Tensor :=
  s <- get_state ;;
  if negb (bool_decide (Z.of_nat (String.length l) = nqubits (self s)))
  then raise AssertionError
  else
    c <- copy_ ;;
    ms <- liftW (measure_nodes 0 (String.list_ascii_of_string l)) ;;
    liftW (measure_connect c.2 ms (String.length l)) ;;;
    liftW (greedy (c.1 ++ ms) None).

(** ** Observations on the store *)

(** The edge object sitting at axis [a] of node [n], the dimension of that
    axis, and the tensor of the node. *)
Definition slot (w : World) (n a : nat) : option nat :=
  nd ← w_nodes w !! n; edges nd !! a.

Definition dim_at (w : World) (n a : nat) : option nat :=
  nd ← w_nodes w !! n; shape (tensor nd) !! a.

Definition tensor_of (w : World) (n : nat) : option Tensor :=
  tensor <$> w_nodes w !! n.

(** The store after [node.edges[a] = e]. *)
Definition set_slot (w : World) (n a e : nat) : World :=
  mkWorld (alter (λ nd, set_node_edges nd (<[a := e]> (edges nd))) n
                 (w_nodes w))
          (w_edges w).

Definition add_Edge (w : World) (ed : Edge) : World :=
  mkWorld (w_nodes w) (w_edges w ++ [ed]).

(** [w'] extends [w]: the objects of [w] are in [w'], unchanged. *)
Definition extends (w w' : World) : Prop :=
  (∃ l, w_nodes w' = w_nodes w ++ l) ∧ (∃ l, w_edges w' = w_edges w ++ l).

(** ** Basic facts *)

Lemma py_norm_bound len i p : py_norm len i = Some p → p < len.
Proof. unfold py_norm. repeat case_match; intros; simplify_eq; lia. Qed.

Lemma py_norm_nonneg len (q : nat) : q < len → py_norm len (Z.of_nat q) = Some q.
Proof.
  intros. unfold py_norm.
  case_match; [by rewrite Nat2Z.id | lia].
Qed.

Lemma py_norm_neg len (i : Z) :
  (- Z.of_nat len <= i < 0)%Z →
  py_norm len i = Some (Z.to_nat (Z.of_nat len + i)).
Proof.
  intros. unfold py_norm.
  case_match; [lia|]. case_match; [done | lia].
Qed.

Lemma py_norm_None len (i : Z) :
  py_norm len i = None ↔ (i < - Z.of_nat len ∨ Z.of_nat len <= i)%Z.
Proof.
  unfold py_norm. repeat case_match; split; intros; try done; lia.
Qed.

Lemma py_norm_idem len i p :
  py_norm len i = Some p → py_norm len (Z.of_nat p) = Some p.
Proof. intros H. apply py_norm_nonneg. by eapply py_norm_bound. Qed.

Lemma py_get_norm {A} (l : list A) i p :
  py_norm (length l) i = Some p → py_get l i = l !! p.
Proof. intros H. unfold py_get. by rewrite H. Qed.

Lemma py_set_norm {A} (l : list A) i p x :
  py_norm (length l) i = Some p → py_set l i x = Some (<[p := x]> l).
Proof. intros H. unfold py_set. by rewrite H. Qed.

Lemma extends_refl w : extends w w.
Proof. split; exists []; by rewrite app_nil_r. Qed.

Lemma extends_trans w1 w2 w3 : extends w1 w2 → extends w2 w3 → extends w1 w3.
Proof.
  intros [[l1 H1] [l2 H2]] [[l3 H3] [l4 H4]]. split.
  - exists (l1 ++ l3). by rewrite H3, H1, app_assoc.
  - exists (l2 ++ l4). by rewrite H4, H2, app_assoc.
Qed.

Lemma extends_node w w' n nd :
  extends w w' → w_nodes w !! n = Some nd → w_nodes w' !! n = Some nd.
Proof. intros [[l ->] _] H. by apply lookup_app_l_Some. Qed.

Lemma extends_edge w w' e ed :
  extends w w' → w_edges w !! e = Some ed → w_edges w' !! e = Some ed.
Proof. intros [_ [l ->]] H. by apply lookup_app_l_Some. Qed.

Lemma extends_slot w w' n a e :
  extends w w' → slot w n a = Some e → slot w' n a = Some e.
Proof.
  unfold slot. intros Hx H.
  destruct (w_nodes w !! n) as [nd|] eqn:E; [|done].
  by rewrite (extends_node _ _ _ _ Hx E).
Qed.

Lemma extends_dim_at w w' n a d :
  extends w w' → dim_at w n a = Some d → dim_at w' n a = Some d.
Proof.
  unfold dim_at. intros Hx H.
  destruct (w_nodes w !! n) as [nd|] eqn:E; [|done].
  by rewrite (extends_node _ _ _ _ Hx E).
Qed.

(** *** [set_slot] and [add_Edge] *)

Lemma slot_set_slot w n a e n' a' :
  is_Some (slot w n a) →
  slot (set_slot w n a e) n' a' =
    if decide (n' = n ∧ a' = a) then Some e else slot w n' a'.
Proof.
  unfold slot, set_slot. simpl. intros [x Hx].
  destruct (w_nodes w !! n) as [nd|] eqn:E; [|done]. simpl in Hx.
  destruct (decide (n' = n)) as [->|Hn].
  - rewrite list_lookup_alter_eq, E. simpl.
    destruct (decide (a' = a)) as [->|Ha].
    + rewrite decide_True by done.
      apply list_lookup_insert_eq. by eapply lookup_lt_Some.
    + rewrite decide_False by naive_solver.
      by apply list_lookup_insert_ne.
  - rewrite list_lookup_alter_ne by done.
    by rewrite decide_False by naive_solver.
Qed.

Lemma dim_at_set_slot w n a e n' a' :
  dim_at (set_slot w n a e) n' a' = dim_at w n' a'.
Proof.
  unfold dim_at, set_slot. simpl.
  destruct (decide (n' = n)) as [->|Hn].
  - rewrite list_lookup_alter_eq. by destruct (w_nodes w !! n).
  - by rewrite list_lookup_alter_ne.
Qed.

Lemma tensor_of_set_slot w n a e n' :
  tensor_of (set_slot w n a e) n' = tensor_of w n'.
Proof.
  unfold tensor_of, set_slot. simpl.
  destruct (decide (n' = n)) as [->|Hn].
  - rewrite list_lookup_alter_eq. by destruct (w_nodes w !! n).
  - by rewrite list_lookup_alter_ne.
Qed.

Lemma length_nodes_set_slot w n a e :
  length (w_nodes (set_slot w n a e)) = length (w_nodes w).
Proof. apply length_alter. Qed.

Lemma add_edge_ok w n a e :
  is_Some (slot w n a) → is_Some (dim_at w n a) →
  add_edge n a e w = Ret (set_slot w n a e) tt.
Proof.
  unfold slot, dim_at, add_edge, set_slot. intros [x Hx] [d Hd].
  destruct (w_nodes w !! n) as [nd|] eqn:E; [|done]. simpl in *.
  apply lookup_lt_Some in Hx, Hd.
  rewrite (proj2 (Nat.ltb_lt _ _) Hx), (proj2 (Nat.ltb_lt _ _) Hd). simpl.
  do 2 f_equal.
  apply list_eq. intros j. destruct (decide (j = n)) as [->|Hj].
  - rewrite list_lookup_alter_eq, E. simpl.
    apply list_lookup_insert_eq. by eapply lookup_lt_Some.
  - by rewrite list_lookup_alter_ne, list_lookup_insert_ne.
Qed.

(** The store after a successful [connect] of two dangling edges sitting at
    [(n1, a1)] and [(n2, a2)]. *)
Definition wired (w : World) (n1 a1 n2 a2 : nat) : World :=
  let new := length (w_edges w) in
  set_slot (set_slot (add_Edge w (mkEdge n1 a1 (Some (n2, a2)))) n1 a1 new)
           n2 a2 new.

Lemma connect_ok w e1 e2 n1 a1 n2 a2 d :
  w_edges w !! e1 = Some (mkEdge n1 a1 None) →
  w_edges w !! e2 = Some (mkEdge n2 a2 None) →
  e1 ≠ e2 →
  dim_at w n1 a1 = Some d → dim_at w n2 a2 = Some d →
  is_Some (slot w n1 a1) → is_Some (slot w n2 a2) →
  connect e1 e2 w = Ret (wired w n1 a1 n2 a2) (length (w_edges w)).
Proof.
  intros H1 H2 Hne Hd1 Hd2 Hs1 Hs2. unfold connect.
  rewrite H1, H2. simpl.
  rewrite (proj2 (Nat.eqb_neq _ _) Hne).
  unfold edge_dim. simpl. fold (dim_at w n1 a1). fold (dim_at w n2 a2).
  rewrite Hd1, Hd2, Nat.eqb_refl. simpl.
  unfold bind, wired.
  rewrite add_edge_ok; [|done..].
  rewrite add_edge_ok; [done| |].
  - rewrite slot_set_slot by done. case_decide; [done|]. done.
  - by rewrite dim_at_set_slot.
Qed.

Lemma slot_wired w n1 a1 n2 a2 n a :
  is_Some (slot w n1 a1) → is_Some (slot w n2 a2) →
  slot (wired w n1 a1 n2 a2) n a =
    if decide ((n = n1 ∧ a = a1) ∨ (n = n2 ∧ a = a2))
    then Some (length (w_edges w)) else slot w n a.
Proof.
  intros Hs1 Hs2. unfold wired.
  rewrite slot_set_slot.
  2:{ rewrite slot_set_slot by done. by case_decide. }
  rewrite slot_set_slot by done.
  repeat case_decide; try done; naive_solver.
Qed.

Lemma dim_at_wired w n1 a1 n2 a2 n a :
  dim_at (wired w n1 a1 n2 a2) n a = dim_at w n a.
Proof. unfold wired. by rewrite !dim_at_set_slot. Qed.

Lemma tensor_of_wired w n1 a1 n2 a2 n :
  tensor_of (wired w n1 a1 n2 a2) n = tensor_of w n.
Proof. unfold wired. by rewrite !tensor_of_set_slot. Qed.

Lemma edges_wired w n1 a1 n2 a2 :
  w_edges (wired w n1 a1 n2 a2) = w_edges w ++ [mkEdge n1 a1 (Some (n2, a2))].
Proof. done. Qed.

Lemma length_nodes_wired w n1 a1 n2 a2 :
  length (w_nodes (wired w n1 a1 n2 a2)) = length (w_nodes w).
Proof. unfold wired. by rewrite !length_nodes_set_slot. Qed.

(** *** [tn.Node] *)

Lemma tn_Node_extends t nm w w' n :
  tn_Node t nm w = Ret w' n → extends w w'.
Proof. unfold tn_Node. intros [= <- _]. split; eauto. Qed.

Lemma tn_Node_id t nm w w' n :
  tn_Node t nm w = Ret w' n → n = length (w_nodes w).
Proof. unfold tn_Node. by intros [= _ <-]. Qed.

Lemma tn_Node_slot t nm w w' n a :
  tn_Node t nm w = Ret w' n → a < length (shape t) →
  slot w' n a = Some (length (w_edges w) + a) ∧
  w_edges w' !! (length (w_edges w) + a) = Some (mkEdge n a None) ∧
  dim_at w' n a = shape t !! a.
Proof.
  unfold tn_Node. intros [= <- <-] Ha. unfold slot, dim_at. simpl.
  rewrite list_lookup_middle by done. simpl. split_and!.
  - by apply lookup_seq_lt.
  - rewrite lookup_app_r by lia.
    replace (length (w_edges w) + a - length (w_edges w)) with a by lia.
    rewrite list_lookup_fmap, lookup_seq_lt by done. done.
  - done.
Qed.

(** ** One gate application, step by step *)

Lemma get_edge_ok w n a e : slot w n a = Some e → get_edge n a w = Ret w e.
Proof.
  unfold slot, get_edge. destruct (w_nodes w !! n); [|done]. simpl.
  by intros ->.
Qed.

Lemma get_edge_out w n a :
  is_Some (w_nodes w !! n) → slot w n a = None →
  get_edge n a w = Raise w IndexError.
Proof.
  unfold slot, get_edge. intros [nd ->]. simpl. by intros ->.
Qed.

Definition with_front (c : Circuit) (fr : list nat) : Circuit :=
  mkCircuit (nqubits c) (nodes c) fr (attrs c).

(** What one target of a gate application refers to: the index [t_z] as
    written, the qubit [t_q] it selects, the edge [t_f] in [front] for that
    qubit and the node and axis [(t_p, t_x)] that edge sits at. *)
Record target : Type := mkTarget {
  t_z : Z; t_q : nat; t_f : nat; t_p : nat; t_x : nat
}.

Definition target_ok (w : World) (fr : list nat) (g : nat) (t : target)
    : Prop :=
  py_norm (length fr) (t_z t) = Some (t_q t) ∧
  fr !! t_q t = Some (t_f t) ∧
  w_edges w !! t_f t = Some (mkEdge (t_p t) (t_x t) None) ∧
  slot w (t_p t) (t_x t) = Some (t_f t) ∧
  dim_at w (t_p t) (t_x t) = Some 2 ∧
  t_p t ≠ g.

(** The axes [lo .. hi-1] of the gate node [g] still carry the dangling
    edges [G a] the node was created with, each of dimension 2. *)
Definition gate_slots (w : World) (g : nat) (G : nat → nat) (lo hi : nat)
    : Prop :=
  ∀ a, lo ≤ a < hi →
    slot w g a = Some (G a) ∧
    w_edges w !! G a = Some (mkEdge g a None) ∧
    dim_at w g a = Some 2.

Definition after_step (s : St) (g i b : nat) (t : target) : St :=
  mkSt (wired (world s) g i (t_p t) (t_x t))
       (with_front (self s) (<[t_q t := b]> (front (self s)))).

Lemma bind_Ret {S A B} (m : M S A) (k : A → M S B) s s' a :
  m s = Ret s' a → bind m k s = k a s'.
Proof. unfold bind. by intros ->. Qed.

Lemma bind_Raise {S A B} (m : M S A) (k : A → M S B) s s' e :
  m s = Raise s' e → bind m k s = Raise s' e.
Proof. unfold bind. by intros ->. Qed.

Lemma liftW_Ret {A} (m : M World A) w c w' a :
  m w = Ret w' a → liftW m (mkSt w c) = Ret (mkSt w' c) a.
Proof. unfold liftW. simpl. by intros ->. Qed.

Lemma liftW_Raise {A} (m : M World A) w c w' e :
  m w = Raise w' e → liftW m (mkSt w c) = Raise (mkSt w' c) e.
Proof. unfold liftW. simpl. by intros ->. Qed.

Lemma read_front_ok w c i p f :
  py_norm (length (front c)) i = Some p → front c !! p = Some f →
  read_front i (mkSt w c) = Ret (mkSt w c) f.
Proof.
  intros Hn Hf. unfold read_front. simpl.
  by rewrite (py_get_norm _ _ _ Hn), Hf.
Qed.

Lemma read_front_out w c i :
  py_norm (length (front c)) i = None →
  read_front i (mkSt w c) = Raise (mkSt w c) IndexError.
Proof. intros Hn. unfold read_front, py_get. simpl. by rewrite Hn. Qed.

Lemma write_front_ok w c i p e :
  py_norm (length (front c)) i = Some p →
  write_front i e (mkSt w c) =
  Ret (mkSt w (with_front c (<[p := e]> (front c)))) tt.
Proof.
  intros Hn. unfold write_front. simpl. by rewrite (py_set_norm _ _ _ _ Hn).
Qed.

Lemma gate_loop_step s g k i G r t rest :
  0 < k → i + k < r →
  gate_slots (world s) g G i r →
  target_ok (world s) (front (self s)) g t →
  gate_loop g k i (t_z t :: rest) s =
  gate_loop g k (S i) rest (after_step s g i (G (i + k)) t).
Proof.
  intros Hk Hr HG (Hn & Hf & Hfe & Hfs & Hfd & Hpg).
  destruct (HG i ltac:(lia)) as (Hgs & Hge & Hgd).
  destruct (HG (i + k) ltac:(lia)) as (Hbs & _ & _).
  destruct s as [w c]. unfold after_step. simpl in *.
  erewrite bind_Ret; [|by apply liftW_Ret, get_edge_ok].
  erewrite bind_Ret; [|by eapply read_front_ok].
  erewrite bind_Ret.
  2:{ apply liftW_Ret. apply (connect_ok _ _ _ g i (t_p t) (t_x t) 2); try done.
      intros E. rewrite E, Hfe in Hge. by simplify_eq. }
  erewrite bind_Ret.
  2:{ apply liftW_Ret, get_edge_ok. rewrite slot_wired by done.
      rewrite decide_False; [done|]. intros [[_ ?]|[? _]]; [lia|done]. }
  erewrite bind_Ret; [|by eapply write_front_ok].
  done.
Qed.

Lemma target_ok_step w fr g i b t t' :
  target_ok w fr g t → target_ok w fr g t' →
  t_q t ≠ t_q t' → t_f t ≠ t_f t' → is_Some (slot w g i) →
  target_ok (wired w g i (t_p t) (t_x t)) (<[t_q t := b]> fr) g t'.
Proof.
  intros (Hn & Hf & Hfe & Hfs & Hfd & Hpg) (Hn' & Hf' & Hfe' & Hfs' & Hfd' & Hpg')
    Hq Hff Hg.
  unfold target_ok. rewrite length_insert. split_and!; try done.
  - by rewrite list_lookup_insert_ne.
  - rewrite edges_wired. by apply lookup_app_l_Some.
  - rewrite slot_wired by done.
    rewrite decide_False; [done|].
    intros [[? _]|[E1 E2]]; [done|].
    rewrite E1, E2, Hfs in Hfs'. by simplify_eq.
  - by rewrite dim_at_wired.
Qed.

Lemma gate_slots_step w fr g G i r t :
  gate_slots w g G i r → target_ok w fr g t → i < r →
  gate_slots (wired w g i (t_p t) (t_x t)) g G (S i) r.
Proof.
  intros HG (Hn & Hf & Hfe & Hfs & Hfd & Hpg) Hi a Ha.
  destruct (HG a ltac:(lia)) as (Hs & He & Hd).
  destruct (HG i ltac:(lia)) as (Hsi & _ & _).
  split_and!.
  - rewrite slot_wired by done.
    rewrite decide_False; [done|]. intros [[_ ?]|[? _]]; [lia|done].
  - rewrite edges_wired. by apply lookup_app_l_Some.
  - by rewrite dim_at_wired.
Qed.

(** What the loop of [apply_general_gate] has done when it ends, started at
    position [i] with the targets [tgs] left, in terms of the state [s] it
    started from. *)
Record loop_post (g k : nat) (G : nat → nat) (i : nat) (tgs : list target)
    (s s' : St) : Prop := {
  lp_self : ∃ fr, self s' = with_front (self s) fr;
  lp_edges : w_edges (world s') =
             w_edges (world s) ++
             imap (λ j t, mkEdge g (i + j) (Some (t_p t, t_x t))) tgs;
  lp_nodes : length (w_nodes (world s')) = length (w_nodes (world s));
  lp_dim : ∀ n a, dim_at (world s') n a = dim_at (world s) n a;
  lp_tensor : ∀ n, tensor_of (world s') n = tensor_of (world s) n;
  lp_new : ∀ j t, tgs !! j = Some t →
             slot (world s') g (i + j) = Some (length (w_edges (world s)) + j) ∧
             slot (world s') (t_p t) (t_x t)
               = Some (length (w_edges (world s)) + j) ∧
             front (self s') !! t_q t = Some (G (i + j + k));
  lp_slot : ∀ n a, (n = g → a < i ∨ i + length tgs ≤ a) →
              (∀ t, t ∈ tgs → ¬ (n = t_p t ∧ a = t_x t)) →
              slot (world s') n a = slot (world s) n a;
  lp_front_len : length (front (self s')) = length (front (self s));
  lp_front : ∀ q, q ∉ t_q <$> tgs →
               front (self s') !! q = front (self s) !! q
}.

Lemma gate_loop_ok g k G r tgs : ∀ i s,
  length tgs ≤ k → i + length tgs + k ≤ r →
  gate_slots (world s) g G i r →
  Forall (target_ok (world s) (front (self s)) g) tgs →
  NoDup (t_q <$> tgs) → NoDup (t_f <$> tgs) →
  ∃ s', gate_loop g k i (t_z <$> tgs) s = Ret s' tt ∧
        loop_post g k G i tgs s s'.
Proof.
  induction tgs as [|t rest IH]; intros i s Hk Hr HG Hts Hq Hf.
  { exists s. split; [done|]. destruct s as [w c]. split; simpl; try done.
    - exists (front c). by destruct c.
    - by rewrite app_nil_r. }
  simpl in Hr, Hk. apply Forall_cons in Hts as [Ht Hts].
  rewrite fmap_cons in Hq, Hf. apply NoDup_cons in Hq as [Hq1 Hq2].
  apply NoDup_cons in Hf as [Hf1 Hf2].
  destruct (HG i ltac:(lia)) as (Hgs & Hge & Hgd).
  pose proof Ht as (Hn & Hfr & Hfe & Hfs & Hfd & Hpg).
  set (s1 := after_step s g i (G (i + k)) t).
  assert (Hts1 : Forall (target_ok (world s1) (front (self s1)) g) rest).
  { apply Forall_forall. intros t' Ht'.
    apply target_ok_step; try done.
    - by eapply Forall_forall in Hts.
    - intros E. apply Hq1. rewrite E. by apply list_elem_of_fmap_2.
    - intros E. apply Hf1. rewrite E. by apply list_elem_of_fmap_2. }
  assert (HG1 : gate_slots (world s1) g G (S i) r).
  { eapply gate_slots_step; [done..|lia]. }
  assert (Hrun1 : gate_loop g k i (t_z <$> t :: rest) s =
                  gate_loop g k (S i) (t_z <$> rest) s1).
  { rewrite fmap_cons.
    rewrite (gate_loop_step s g k i G r); [done|lia|lia|done|done]. }
  assert (Hw1 : ∀ n a, slot (world s1) n a =
      if decide ((n = g ∧ a = i) ∨ (n = t_p t ∧ a = t_x t))
      then Some (length (w_edges (world s))) else slot (world s) n a).
  { intros. apply slot_wired; done. }
  assert (He1 : w_edges (world s1) =
                w_edges (world s) ++ [mkEdge g i (Some (t_p t, t_x t))])
    by done.
  assert (Hn1 : length (w_nodes (world s1)) = length (w_nodes (world s)))
    by apply length_nodes_wired.
  assert (Hd1 : ∀ n a, dim_at (world s1) n a = dim_at (world s) n a)
    by (intros; apply dim_at_wired).
  assert (Ht1 : ∀ n, tensor_of (world s1) n = tensor_of (world s) n)
    by (intros; apply tensor_of_wired).
  assert (Hf1' : front (self s1) = <[t_q t := G (i + k)]> (front (self s)))
    by done.
  assert (Hc1 : ∀ fr, with_front (self s1) fr = with_front (self s) fr)
    by done.
  clearbody s1.
  destruct (IH (S i) s1) as (s' & Hrun & Hp); try done; [lia|lia|].
  exists s'. split; [by rewrite Hrun1|].
  destruct Hp as [[fr Hself] Hed Hnl Hdim Hten Hnew Hslot Hfl Hfront].
  assert (Hrest : ∀ t', t' ∈ rest → ¬ (t_p t = t_p t' ∧ t_x t = t_x t')).
  { intros t' Ht' [E1 E2].
    eapply Forall_forall in Hts as (_ & _ & _ & Hfs' & _); [|done].
    rewrite <- E1, <- E2, Hfs in Hfs'. simplify_eq.
    apply Hf1. rewrite Hfs'. by apply list_elem_of_fmap_2. }
  split.
  - exists fr. by rewrite Hself, Hc1.
  - rewrite Hed, He1, <- app_assoc. f_equal.
    rewrite imap_cons. rewrite Nat.add_0_r. simpl. f_equal.
    apply imap_ext. intros j t' _. simpl. f_equal. lia.
  - by rewrite Hnl.
  - intros. by rewrite Hdim.
  - intros. by rewrite Hten.
  - intros [|j] t' Hj; simpl in Hj.
    + simplify_eq. rewrite !Nat.add_0_r. split_and!.
      * rewrite Hslot; [|intros _; lia|].
        -- rewrite Hw1. by rewrite decide_True by auto.
        -- intros u Hu [E _]. eapply Forall_forall in Hts1; [|done].
           destruct Hts1 as (_ & _ & _ & _ & _ & ?). done.
      * rewrite Hslot; [|done|].
        -- rewrite Hw1. by rewrite decide_True by auto.
        -- intros u Hu. by apply Hrest.
      * rewrite Hfront by done. rewrite Hf1'.
        apply list_lookup_insert_eq. by eapply lookup_lt_Some.
    + destruct (Hnew j t' Hj) as (H1 & H2 & H3).
      rewrite He1, length_app in H1, H2. simpl in H1, H2.
      replace (i + S j) with (S i + j) by lia.
      replace (length (w_edges (world s)) + S j)
        with (length (w_edges (world s)) + 1 + j) by lia.
      done.
  - intros n a Hg Hno. simpl in Hg.
    rewrite Hslot.
    + rewrite Hw1. rewrite decide_False; [done|].
      intros [[-> ->]|[-> ->]]; [specialize (Hg eq_refl); lia|].
      eapply Hno; [left|done].
    + intros E. specialize (Hg E). lia.
    + intros t' Ht'. apply Hno. by right.
  - by rewrite Hfl, Hf1', length_insert.
  - intros q Hqn. rewrite fmap_cons in Hqn.
    apply not_elem_of_cons in Hqn as [Hq0 Hqn].
    rewrite Hfront by done. rewrite Hf1'. by rewrite list_lookup_insert_ne.
Qed.

(** ** Well-formed circuits *)

(** The network on the nodes [ns] is well formed, with open edges [op]:
    every edge object sitting on a node of the network is an edge of the
    store between nodes of the network; a dangling one sits at its own end
    point and is listed in [op]; and [op] lists dangling edges of the
    network, each once. *)
Record net_ok (w : World) (ns op : list nat) : Prop := {
  ok_nodup : NoDup ns;
  ok_node : ∀ n, n ∈ ns → is_Some (w_nodes w !! n);
  ok_slot : ∀ n a e, n ∈ ns → slot w n a = Some e →
    is_Some (dim_at w n a) ∧
    ∃ ed, w_edges w !! e = Some ed ∧ node1 ed ∈ ns ∧
      match node2 ed with
      | None => node1 ed = n ∧ axis1 ed = a ∧ e ∈ op
      | Some (m, _) => m ∈ ns
      end;
  ok_open : ∀ e, e ∈ op →
    ∃ n a, n ∈ ns ∧ w_edges w !! e = Some (mkEdge n a None) ∧
           slot w n a = Some e;
  ok_open_nodup : NoDup op
}.

(** The invariant of a Circuit object: its network is well formed, and
    [front] lists its open edges, one of dimension 2 per qubit. *)
Record Inv (s : St) : Prop := {
  inv_net : net_ok (world s) (nodes (self s)) (front (self s));
  inv_len : Z.of_nat (length (front (self s))) = nqubits (self s);
  inv_two : (2 <= nqubits (self s))%Z;
  inv_dim : ∀ e n a, e ∈ front (self s) →
    w_edges (world s) !! e = Some (mkEdge n a None) →
    dim_at (world s) n a = Some 2
}.

(** A node [g] of rank [r] that has not been wired to anything: its axes
    carry the dangling edges [G 0 .. G (r-1)] it was created with, each of
    dimension 2, and it is not a node of the network. *)
Record fresh_gate (w : World) (ns : list nat) (g r : nat) (G : nat → nat)
    : Prop := {
  fg_new : g ∉ ns;
  fg_node : is_Some (w_nodes w !! g);
  fg_slots : gate_slots w g G 0 r;
  fg_rank : ∀ a, r ≤ a → slot w g a = None
}.

Definition add_node (c : Circuit) (g : nat) : Circuit :=
  mkCircuit (nqubits c) (nodes c ++ [g]) (front c) (attrs c).

Lemma remove_dups_NoDup {A} `{EqDecision A} (l : list A) :
  NoDup l → remove_dups l = l.
Proof.
  induction 1 as [|x l Hx Hl IH]; [done|]. simpl.
  destruct (decide_rel elem_of x l); [done|]. by rewrite IH.
Qed.

Lemma length_remove_dups_le {A} `{EqDecision A} (l : list A) :
  length (remove_dups l) ≤ length l.
Proof.
  induction l as [|x l IH]; [done|]. simpl.
  destruct (decide_rel elem_of x l); simpl; lia.
Qed.

Lemma length_remove_dups_NoDup {A} `{EqDecision A} (l : list A) :
  length l = length (remove_dups l) ↔ NoDup l.
Proof.
  split; [|intros H; by rewrite remove_dups_NoDup].
  induction l as [|x l IH]; [constructor|]. simpl.
  pose proof (length_remove_dups_le l).
  destruct (decide_rel elem_of x l); simpl; [lia|].
  intros E. apply NoDup_cons. auto with lia.
Qed.

Lemma NoDup_Forall2_functional {A B} (R : A → B → Prop) l k :
  (∀ x y y', R x y → R x y' → y = y') →
  Forall2 R l k → NoDup k → NoDup l.
Proof.
  intros HR H. induction H as [|x y l k Hxy H IH]; [constructor|].
  intros [Hy Hk]%NoDup_cons. apply NoDup_cons. split; [|auto].
  intros Hx. apply Hy.
  apply list_elem_of_lookup in Hx as [i Hi].
  destruct (Forall2_lookup_l _ _ _ _ _ H Hi) as (y' & Hy' & HR').
  rewrite (HR _ _ _ Hxy HR'). by eapply list_elem_of_lookup_2.
Qed.

Lemma NoDup_Forall2_injective {A B} (R : A → B → Prop) l k :
  (∀ x x' y, R x y → R x' y → x = x') →
  Forall2 R l k → NoDup l → NoDup k.
Proof.
  intros HR H. induction H as [|x y l k Hxy H IH]; [constructor|].
  intros [Hx Hl]%NoDup_cons. apply NoDup_cons. split; [|auto].
  intros Hy. apply Hx.
  apply list_elem_of_lookup in Hy as [i Hi].
  destruct (Forall2_lookup_r _ _ _ _ _ H Hi) as (x' & Hx' & HR').
  rewrite (HR _ _ _ Hxy HR'). by eapply list_elem_of_lookup_2.
Qed.

(** The targets a list of indices refers to in a well-formed circuit. *)
Lemma targets_exist s g idx qs :
  Inv s → g ∉ nodes (self s) →
  Forall2 (λ z q, py_norm (length (front (self s))) z = Some q) idx qs →
  ∃ tgs, t_z <$> tgs = idx ∧ t_q <$> tgs = qs ∧
         Forall (target_ok (world s) (front (self s)) g) tgs ∧
         Forall (λ t, t_p t ∈ nodes (self s)) tgs.
Proof.
  intros HI Hg H. induction H as [|z q idx qs Hzq H IH].
  { exists []. by repeat split. }
  destruct IH as (tgs & E1 & E2 & F1 & F2).
  destruct (lookup_lt_is_Some_2 (front (self s)) q) as [f Hf].
  { by eapply py_norm_bound. }
  destruct (ok_open _ _ _ (inv_net _ HI) f) as (n & a & Hn & He & Hs).
  { by eapply list_elem_of_lookup_2. }
  exists (mkTarget z q f n a :: tgs). rewrite !fmap_cons, E1, E2. simpl.
  split_and!; try done.
  - apply Forall_cons. split; [|done]. unfold target_ok. simpl.
    split_and!; try done.
    + eapply inv_dim; [done| |done]. by eapply list_elem_of_lookup_2.
    + intros ->. done.
  - apply Forall_cons. by split.
Qed.

Lemma targets_front_NoDup w fr g tgs :
  NoDup fr → Forall (target_ok w fr g) tgs → NoDup (t_q <$> tgs) →
  NoDup (t_f <$> tgs).
Proof.
  intros Hfr Hts Hq.
  eapply (NoDup_Forall2_injective (λ q f, fr !! q = Some f)); [| |done].
  - intros q q' f H1 H2. eapply NoDup_lookup; [exact Hfr|done..].
  - apply Forall2_fmap. apply Forall_Forall2_diag.
    eapply Forall_impl; [done|]. intros t Ht. apply Ht.
Qed.

Lemma append_node_eq g s :
  append_node g s = Ret (mkSt (world s) (add_node (self s) g)) tt.
Proof. done. Qed.

(** A gate application on a well-formed circuit with a fresh gate node of
    rank at least twice the number of targets runs to its end. *)
Lemma apply_general_gate_run s g r G idx qs :
  Inv s → fresh_gate (world s) (nodes (self s)) g r G →
  Forall2 (λ z q, py_norm (length (front (self s))) z = Some q) idx qs →
  NoDup qs → 2 * length idx ≤ r →
  ∃ tgs s1,
    t_z <$> tgs = idx ∧ t_q <$> tgs = qs ∧
    Forall (target_ok (world s) (front (self s)) g) tgs ∧
    Forall (λ t, t_p t ∈ nodes (self s)) tgs ∧
    loop_post g (length idx) G 0 tgs s s1 ∧
    apply_general_gate g idx s =
      Ret (mkSt (world s1) (add_node (self s1) g)) tt.
Proof.
  intros HI Hg Hidx Hqs Hr.
  destruct (targets_exist s g idx qs HI (fg_new _ _ _ _ _ Hg) Hidx)
    as (tgs & E1 & E2 & F1 & F2).
  assert (Hlen : length tgs = length idx) by (by rewrite <- E1, length_fmap).
  destruct (gate_loop_ok g (length idx) G r tgs 0 s) as (s1 & Hrun & Hp);
    try done; [lia|lia| | | |].
  { intros a Ha. apply (fg_slots _ _ _ _ _ Hg). lia. }
  { by rewrite E2. }
  { eapply targets_front_NoDup; [|done|by rewrite E2].
    apply (ok_open_nodup _ _ _ (inv_net _ HI)). }
  exists tgs, s1. split_and!; try done.
  unfold apply_general_gate.
  assert (NoDup idx) as Hnd.
  { eapply NoDup_Forall2_functional; [|done..]. intros; congruence. }
  apply length_remove_dups_NoDup in Hnd. rewrite <- Hnd, Nat.eqb_refl. simpl.
  rewrite <- E1 at 2. erewrite bind_Ret; [|done]. apply append_node_eq.
Qed.

Lemma target_lookup_q (tgs : list target) (q : nat) :
  q ∈ t_q <$> tgs → ∃ j t, tgs !! j = Some t ∧ t_q t = q.
Proof.
  intros (t & -> & Ht)%list_elem_of_fmap.
  apply list_elem_of_lookup in Ht as [j Hj]. eauto.
Qed.

(** The state a completed gate application of a rank [2k] gate on [k]
    targets leaves is well formed again. *)
Lemma loop_post_Inv s s1 g G tgs :
  Inv s → fresh_gate (world s) (nodes (self s)) g (2 * length tgs) G →
  Forall (target_ok (world s) (front (self s)) g) tgs →
  Forall (λ t, t_p t ∈ nodes (self s)) tgs →
  loop_post g (length tgs) G 0 tgs s s1 →
  Inv (mkSt (world s1) (add_node (self s1) g)).
Proof.
  intros HI Hg Hts Hps Hp.
  destruct Hp as [[fr Hself] Hed Hnl Hdim Hten Hnew Hslot Hfl Hfront].
  destruct HI as [[Hnd Hnode Hsl Hop Hfnd] Hlen Htwo Hfdim].
  destruct Hg as [Hgn Hgnode HG Hrank].
  set (k := length tgs) in *.
  set (w := world s) in *. set (w' := world s1) in *.
  set (ns := nodes (self s)) in *. set (fr0 := front (self s)) in *.
  assert (Hfr : front (self s1) = fr) by (by rewrite Hself).
  assert (Hns : nodes (self s1) = ns) by (by rewrite Hself).
  assert (Hext : ∀ e ed, w_edges w !! e = Some ed → w_edges w' !! e = Some ed).
  { intros e ed He. rewrite Hed. by apply lookup_app_l_Some. }
  assert (Hgslot : ∀ a, k ≤ a → slot w' g a = slot w g a).
  { intros a Ha. apply Hslot; [intros _; lia|].
    intros t Ht [E _]. eapply Forall_forall in Hts; [|done].
    destruct Hts as (_ & _ & _ & _ & _ & ?). done. }
  assert (Hout : ∀ j t, tgs !! j = Some t →
            fr !! t_q t = Some (G (j + k)) ∧
            slot w' g (j + k) = Some (G (j + k)) ∧
            w_edges w' !! G (j + k) = Some (mkEdge g (j + k) None) ∧
            dim_at w' g (j + k) = Some 2).
  { intros j t Hj. destruct (Hnew j t Hj) as (_ & _ & Hf).
    pose proof (lookup_lt_Some _ _ _ Hj) as Hjk. fold k in Hjk.
    destruct (HG (j + k) ltac:(lia)) as (H1 & H2 & H3).
    rewrite Hfr in Hf. split_and!; [done| | |].
    - by rewrite Hgslot by lia.
    - by apply Hext.
    - by rewrite Hdim. }
  assert (Hold : ∀ q e, q ∉ t_q <$> tgs → fr0 !! q = Some e →
            ∀ t, t ∈ tgs → t_f t ≠ e).
  { intros q e Hq He t Ht E.
    eapply Forall_forall in Hts as (_ & Hf & _); [|done].
    rewrite E in Hf. apply Hq.
    rewrite <- (NoDup_lookup _ _ _ _ Hfnd Hf He).
    by apply list_elem_of_fmap_2. }
  assert (Hfr_cases : ∀ q e, fr !! q = Some e →
            (∃ j t, tgs !! j = Some t ∧ t_q t = q ∧ e = G (j + k)) ∨
            (q ∉ t_q <$> tgs ∧ fr0 !! q = Some e)).
  { intros q e He. destruct (decide (q ∈ t_q <$> tgs)) as [Hq|Hq].
    - left. destruct (target_lookup_q _ _ Hq) as (j & t & Hj & <-).
      exists j, t. destruct (Hout j t Hj) as (Hf & _).
      split_and!; [done..|congruence].
    - right. split; [done|]. rewrite <- Hfront by done. by rewrite Hfr. }
  split; simpl; rewrite ?Hfr, ?Hns.
  - split.
    + apply NoDup_app. split_and!; [done| |apply NoDup_singleton].
      intros n Hn ->%list_elem_of_singleton. done.
    + intros n [Hn| ->%list_elem_of_singleton]%elem_of_app;
        apply lookup_lt_is_Some; rewrite Hnl; apply lookup_lt_is_Some; auto.
    + intros n a e Hn He.
      apply elem_of_app in Hn as [Hn| ->%list_elem_of_singleton].
      * assert (n ≠ g) as Hng by (intros ->; done).
        destruct (decide (Exists (λ t, n = t_p t ∧ a = t_x t) tgs))
          as [Hex|Hex].
        -- apply Exists_exists in Hex as (t & Ht & -> & ->).
           apply list_elem_of_lookup in Ht as [j Hj].
           destruct (Hnew j t Hj) as (_ & Hs & _).
           rewrite Hs in He. simplify_eq.
           eapply Forall_lookup_1 in Hts as (_ & _ & _ & _ & Hd & _); [|done].
           split; [by rewrite Hdim, Hd|].
           eexists. split.
           { rewrite Hed, lookup_app_r by lia.
             replace (length (w_edges w) + j - length (w_edges w)) with j
               by lia.
             rewrite list_lookup_imap, Hj. done. }
           simpl. split; apply elem_of_app; [right|left; done].
           by apply list_elem_of_singleton.
        -- rewrite Hslot in He; [|done|].
           2:{ intros t Ht Hc. apply Hex, Exists_exists. eauto. }
           destruct (Hsl n a e Hn He) as (Hd & ed & Hed' & Hn1 & Hn2).
           split; [by rewrite Hdim|].
           exists ed. split_and!; [by apply Hext|apply elem_of_app; by left|].
           destruct (node2 ed) as [[m b]|] eqn:E2.
           { apply elem_of_app; by left. }
           destruct Hn2 as (E1 & Ea & Hfe). split_and!; [done..|].
           apply list_elem_of_lookup in Hfe as [q Hq].
           apply (list_elem_of_lookup_2 _ q).
           rewrite <- Hfr, Hfront; [done|].
           intros Hqt. destruct (target_lookup_q _ _ Hqt) as (j & t & Hj & <-).
           apply Hex, Exists_exists. exists t.
           split; [by eapply list_elem_of_lookup_2|].
           eapply Forall_lookup_1 in Hts as (_ & Hf & Hfe & _); [|done].
           assert (t_f t = e) as <- by congruence.
           rewrite Hfe in Hed'. injection Hed' as <-. simpl in *. done.
      * destruct (decide (a < k)) as [Ha|Ha].
        -- destruct (lookup_lt_is_Some_2 tgs a Ha) as [t Ht].
           destruct (Hnew a t Ht) as (Hs & _ & _). simpl in Hs.
           rewrite Hs in He. simplify_eq.
           destruct (HG a ltac:(lia)) as (_ & _ & Hd).
           split; [by rewrite Hdim, Hd|].
           eexists. split.
           { rewrite Hed, lookup_app_r by lia.
             replace (length (w_edges w) + a - length (w_edges w)) with a
               by lia.
             rewrite list_lookup_imap, Ht. done. }
           simpl. split; apply elem_of_app; [right|left].
           ++ by apply list_elem_of_singleton.
           ++ by eapply Forall_lookup_1 in Hps.
        -- rewrite Hgslot in He by lia.
           destruct (decide (a < 2 * k)) as [Ha2|Ha2].
           2:{ rewrite Hrank in He by lia. done. }
           destruct (HG a ltac:(lia)) as (Hs & Hge & Hd).
           rewrite Hs in He. simplify_eq.
           split; [by rewrite Hdim, Hd|].
           eexists. split; [by apply Hext|]. simpl.
           split; [apply elem_of_app; right; by apply list_elem_of_singleton|].
           split_and!; [done..|].
           destruct (lookup_lt_is_Some_2 tgs (a - k) ltac:(lia)) as [t Ht].
           destruct (Hout _ _ Ht) as (Hf & _).
           replace (a - k + k) with a in Hf by lia.
           by eapply list_elem_of_lookup_2.
    + intros e He. apply list_elem_of_lookup in He as [q Hq].
      destruct (Hfr_cases q e Hq) as [(j & t & Hj & <- & ->)|[Hqn Hq0]].
      * destruct (Hout j t Hj) as (_ & Hs & He & _).
        exists g, (j + k). split_and!; [|done..].
        apply elem_of_app; right; by apply list_elem_of_singleton.
      * destruct (Hop e) as (n & a & Hn & He & Hs).
        { by eapply list_elem_of_lookup_2. }
        exists n, a. split_and!; [apply elem_of_app; by left|by apply Hext|].
        rewrite Hslot; [done|intros ->; done|].
        intros t Ht [-> ->].
        eapply Forall_forall in Hts as (_ & _ & _ & Hfs & _); [|done].
        rewrite Hfs in Hs. simplify_eq. by eapply Hold.
    + apply NoDup_alt. intros q q' e Hq Hq'.
      destruct (Hfr_cases q e Hq) as [(j & t & Hj & <- & ->)|[Hqn Hq0]];
        destruct (Hfr_cases q' _ Hq')
          as [(j' & t' & Hj' & <- & E')|[Hqn' Hq0']].
      * destruct (Hout j t Hj) as (_ & _ & He & _).
        destruct (Hout j' t' Hj') as (_ & _ & He' & _).
        rewrite E', He' in He. simplify_eq.
        assert (j = j') by lia. simplify_eq. done.
      * exfalso. destruct (Hout j t Hj) as (_ & _ & He & _).
        destruct (Hop (G (j + k))) as (n & a & Hn & He2 & _).
        { by eapply list_elem_of_lookup_2. }
        apply Hext in He2. rewrite He2 in He. simplify_eq. done.
      * exfalso. subst e. destruct (Hout j' t' Hj') as (_ & _ & He & _).
        destruct (Hop (G (j' + k))) as (n & a & Hn & He2 & _).
        { by eapply list_elem_of_lookup_2. }
        apply Hext in He2. rewrite He2 in He. simplify_eq. done.
      * by eapply NoDup_lookup.
  - rewrite <- Hfr, Hfl, Hself. done.
  - by rewrite Hself.
  - intros e n a He Hrec. rewrite Hdim.
    apply list_elem_of_lookup in He as [q Hq].
    destruct (Hfr_cases q e Hq) as [(j & t & Hj & <- & ->)|[Hqn Hq0]].
    + destruct (Hout j t Hj) as (_ & _ & He & Hd).
      rewrite He in Hrec. simplify_eq. by rewrite <- Hdim.
    + apply list_elem_of_lookup_2 in Hq0.
      destruct (Hop e Hq0) as (n' & a' & Hn & He & Hs).
      pose proof (Hext _ _ He) as He'. rewrite He' in Hrec. simplify_eq.
      by eapply Hfdim.
Qed.

(** ** Newly created nodes *)

(** A node as [tn.Node] creates it: it holds the tensor [t] and carries its
    own dangling edges, which are [e0], [e0 + 1], ... *)
Definition pristine (w : World) (n : nat) (t : Tensor) (e0 : nat) : Prop :=
  (∃ nm, w_nodes w !! n = Some (mkNode t (seq e0 (length (shape t))) nm)) ∧
  ∀ a, a < length (shape t) → w_edges w !! (e0 + a) = Some (mkEdge n a None).

Lemma tn_Node_pristine t nm w :
  ∃ w', tn_Node t nm w = Ret w' (length (w_nodes w)) ∧
        extends w w' ∧
        length (w_nodes w') = S (length (w_nodes w)) ∧
        length (w_edges w') = length (w_edges w) + length (shape t) ∧
        pristine w' (length (w_nodes w)) t (length (w_edges w)).
Proof.
  eexists. split; [done|]. simpl. split_and!.
  - split; eauto.
  - rewrite length_app. simpl. lia.
  - by rewrite length_app, length_fmap, length_seq.
  - split; simpl.
    + exists nm. by rewrite list_lookup_middle.
    + intros a Ha. rewrite lookup_app_r by lia.
      replace (length (w_edges w) + a - length (w_edges w)) with a by lia.
      by rewrite list_lookup_fmap, lookup_seq_lt.
Qed.

Lemma pristine_extends w w' n t e0 :
  extends w w' → pristine w n t e0 → pristine w' n t e0.
Proof.
  intros Hx [[nm Hn] He]. split.
  - exists nm. by eapply extends_node.
  - intros a Ha. eapply extends_edge; eauto.
Qed.

Lemma pristine_slot w n t e0 a :
  pristine w n t e0 →
  slot w n a = (if decide (a < length (shape t)) then Some (e0 + a) else None).
Proof.
  intros [[nm Hn] _]. unfold slot. rewrite Hn. simpl.
  case_decide; [by apply lookup_seq_lt|apply lookup_seq_ge; lia].
Qed.

Lemma pristine_dim w n t e0 a :
  pristine w n t e0 → dim_at w n a = shape t !! a.
Proof. intros [[nm Hn] _]. unfold dim_at. by rewrite Hn. Qed.

Lemma pristine_tensor w n t e0 : pristine w n t e0 → tensor_of w n = Some t.
Proof. intros [[nm Hn] _]. unfold tensor_of. by rewrite Hn. Qed.

(** A pristine node all of whose axes have dimension 2 is a fresh gate. *)
Lemma pristine_fresh_gate w ns g t e0 :
  pristine w g t e0 → g ∉ ns →
  shape t = replicate (length (shape t)) 2 →
  fresh_gate w ns g (length (shape t)) (λ a, e0 + a).
Proof.
  intros Hp Hg Hsh. split; [done| | |].
  - destruct Hp as [[nm ->] _]. eauto.
  - intros a [_ Ha]. split_and!.
    + rewrite (pristine_slot _ _ _ _ _ Hp). by rewrite decide_True.
    + by apply Hp.
    + rewrite (pristine_dim _ _ _ _ _ Hp), Hsh. by apply lookup_replicate_2.
  - intros a Ha. rewrite (pristine_slot _ _ _ _ _ Hp).
    rewrite decide_False; [done|lia].
Qed.

(** Several nodes created in a row. *)
Lemma for_collect_tn_Node {A} (f : A → Tensor) (nm : A → string) l : ∀ w,
  ∃ w', for_collect (λ x, tn_Node (f x) (nm x)) l w
          = Ret w' (seq (length (w_nodes w)) (length l)) ∧
        extends w w' ∧
        length (w_nodes w') = length (w_nodes w) + length l ∧
        ∀ j x, l !! j = Some x →
          ∃ e0, pristine w' (length (w_nodes w) + j) (f x) e0 ∧
                length (w_edges w) ≤ e0 ∧
                e0 + length (shape (f x)) ≤ length (w_edges w').
Proof.
  induction l as [|x l IH]; intros w.
  { exists w. split_and!; [done|apply extends_refl|simpl; lia|done]. }
  destruct (tn_Node_pristine (f x) (nm x) w) as (w1 & Hr & Hx & Hn & He & Hp).
  destruct (IH w1) as (w' & Hr' & Hx' & Hn' & Hall).
  exists w'. split_and!.
  - simpl. erewrite bind_Ret; [|done]. erewrite bind_Ret; [|done].
    by rewrite Hn.
  - by eapply extends_trans.
  - simpl. lia.
  - intros [|j] y Hj; simpl in Hj.
    + simplify_eq. exists (length (w_edges w)).
      rewrite Nat.add_0_r. split_and!; [by eapply pristine_extends|done|].
      destruct Hx' as [_ [k ->]]. rewrite length_app. lia.
    + destruct (Hall j y Hj) as (e0 & H1 & H2 & H3).
      exists e0. rewrite Hn in H1.
      replace (length (w_nodes w) + S j) with (S (length (w_nodes w)) + j)
        by lia.
      split_and!; [done|lia|done].
Qed.

(** ** Several connections in a row *)

(** The axis [(n, a)] carries its own dangling edge, of dimension [d]. *)
Definition port_free (w : World) (d : nat) (p : nat * nat) : Prop :=
  ∃ e, slot w p.1 p.2 = Some e ∧
       w_edges w !! e = Some (mkEdge p.1 p.2 None) ∧
       dim_at w p.1 p.2 = Some d.

Definition wire (w : World) (c : (nat * nat) * (nat * nat)) : World :=
  wired w c.1.1 c.1.2 c.2.1 c.2.2.

Definition wire_all (w : World) (ps : list ((nat * nat) * (nat * nat)))
    : World :=
  foldl wire w ps.

Definition ports (ps : list ((nat * nat) * (nat * nat))) : list (nat * nat) :=
  concat ((λ c, [c.1; c.2]) <$> ps).

Definition joined (c : (nat * nat) * (nat * nat)) : Edge :=
  mkEdge c.1.1 c.1.2 (Some c.2).

Lemma port_free_wire w d p c :
  port_free w d p → p ≠ c.1 → p ≠ c.2 →
  is_Some (slot w c.1.1 c.1.2) → is_Some (slot w c.2.1 c.2.2) →
  port_free (wire w c) d p.
Proof.
  intros (e & Hs & He & Hd) H1 H2 Hs1 Hs2. exists e. unfold wire. split_and!.
  - rewrite slot_wired by done. rewrite decide_False; [done|].
    destruct p, c as [[??][??]]. simpl in *. naive_solver.
  - rewrite edges_wired. by apply lookup_app_l_Some.
  - by rewrite dim_at_wired.
Qed.

Lemma port_free_slot w d p : port_free w d p → is_Some (slot w p.1 p.2).
Proof. intros (e & -> & _). eauto. Qed.

(** What [wire_all] leaves. *)
Lemma wire_all_spec ps : ∀ w,
  NoDup (ports ps) →
  (∀ p, p ∈ ports ps → is_Some (slot w p.1 p.2)) →
  let w' := wire_all w ps in
  w_edges w' = w_edges w ++ (joined <$> ps) ∧
  length (w_nodes w') = length (w_nodes w) ∧
  (∀ n a, dim_at w' n a = dim_at w n a) ∧
  (∀ n, tensor_of w' n = tensor_of w n) ∧
  (∀ j c, ps !! j = Some c →
     slot w' c.1.1 c.1.2 = Some (length (w_edges w) + j) ∧
     slot w' c.2.1 c.2.2 = Some (length (w_edges w) + j)) ∧
  (∀ n a, (n, a) ∉ ports ps → slot w' n a = slot w n a).
Proof.
  induction ps as [|c ps IH]; intros w Hnd Hsl; simpl.
  { rewrite app_nil_r. split_and!; done. }
  unfold ports in Hnd, Hsl. simpl in Hnd, Hsl. fold (ports ps) in Hnd, Hsl.
  apply NoDup_cons in Hnd as [N1 Hnd]. apply NoDup_cons in Hnd as [N2 Hnd].
  apply not_elem_of_cons in N1 as [N0 N1].
  assert (Hs1 : is_Some (slot w c.1.1 c.1.2)).
  { apply (Hsl c.1). left. }
  assert (Hs2 : is_Some (slot w c.2.1 c.2.2)).
  { apply (Hsl c.2). right. left. }
  assert (Hw : ∀ n a, slot (wire w c) n a =
     if decide ((n = c.1.1 ∧ a = c.1.2) ∨ (n = c.2.1 ∧ a = c.2.2))
     then Some (length (w_edges w)) else slot w n a).
  { intros. by apply slot_wired. }
  assert (Hkeep : ∀ p, p ∈ ports ps → slot (wire w c) p.1 p.2 = slot w p.1 p.2).
  { intros [n a] Hp. rewrite Hw. rewrite decide_False; [done|]. simpl.
    destruct c as [[??][??]]. simpl in *.
    intros [[-> ->]|[-> ->]]; done. }
  destruct (IH (wire w c) Hnd) as (He & Hn & Hd & Ht & Hnew & Hold).
  { intros p Hp. rewrite Hkeep by done. apply Hsl. by do 2 right. }
  split_and!.
  - rewrite He. unfold wire at 1. rewrite edges_wired, <- app_assoc.
    by destruct c as [[??][??]].
  - rewrite Hn. apply length_nodes_wired.
  - intros. rewrite Hd. apply dim_at_wired.
  - intros. rewrite Ht. apply tensor_of_wired.
  - intros [|j] c' Hj; simpl in Hj.
    + simplify_eq. rewrite Nat.add_0_r.
      rewrite !Hold; [|destruct c' as [[??][??]]; done..].
      rewrite !Hw. rewrite !decide_True by auto. done.
    + destruct (Hnew j c' Hj) as [H1 H2].
      unfold wire in H1, H2. rewrite edges_wired, length_app in H1, H2.
      simpl in H1, H2.
      replace (length (w_edges w) + S j) with (length (w_edges w) + 1 + j)
        by lia. done.
  - intros n a Hna. unfold ports in Hna. simpl in Hna. fold (ports ps) in Hna.
    apply not_elem_of_cons in Hna as [Q1 Hna].
    apply not_elem_of_cons in Hna as [Q2 Hna].
    rewrite Hold by done. rewrite Hw. rewrite decide_False; [done|].
    destruct c as [[??][??]]. simpl in *. naive_solver.
Qed.

(** [connect_at] over a list of connections written with list indices. *)
Definition resolves (ns : list nat) (c : Z * nat * Z * nat)
    (p : (nat * nat) * (nat * nat)) : Prop :=
  let '(i, a, j, b) := c in
  py_get ns i = Some p.1.1 ∧ a = p.1.2 ∧ py_get ns j = Some p.2.1 ∧ b = p.2.2.

Lemma connect_at_ok ns i a j b w p d :
  resolves ns (i, a, j, b) p →
  port_free w d p.1 → port_free w d p.2 → p.1 ≠ p.2 →
  connect_at ns i a j b w = Ret (wire w p) tt.
Proof.
  intros (Hi & -> & Hj & ->) (e1 & Hs1 & He1 & Hd1) (e2 & Hs2 & He2 & Hd2) Hne.
  unfold connect_at, node_at.
  rewrite Hi. erewrite bind_Ret; [|done].
  erewrite bind_Ret; [|by apply get_edge_ok].
  rewrite Hj. erewrite bind_Ret; [|done].
  erewrite bind_Ret; [|by apply get_edge_ok].
  erewrite bind_Ret; [done|].
  eapply (connect_ok _ _ _ p.1.1 p.1.2 p.2.1 p.2.2 d); eauto.
  intros ->. rewrite He1 in He2. destruct p as [[??][??]]. simpl in *.
  simplify_eq.
Qed.

Lemma for_each_connect ns cs : ∀ ps w d,
  Forall2 (resolves ns) cs ps →
  NoDup (ports ps) →
  (∀ p, p ∈ ports ps → port_free w d p) →
  for_each (λ c : Z * nat * Z * nat,
              connect_at ns c.1.1.1 c.1.1.2 c.1.2 c.2) cs w
  = Ret (wire_all w ps) tt.
Proof.
  induction cs as [|c cs IH]; intros ps w d Hres Hnd Hfree.
  { apply Forall2_nil_inv_l in Hres as ->. done. }
  apply Forall2_cons_inv_l in Hres as (p & ps' & Hp & Hres & ->).
  unfold ports in Hnd, Hfree. simpl in Hnd, Hfree.
  fold (ports ps') in Hnd, Hfree.
  apply NoDup_cons in Hnd as [N1 Hnd]. apply NoDup_cons in Hnd as [N2 Hnd].
  apply not_elem_of_cons in N1 as [N0 N1].
  assert (F1 : port_free w d p.1) by (apply Hfree; left).
  assert (F2 : port_free w d p.2) by (apply Hfree; right; left).
  simpl. erewrite bind_Ret.
  2:{ destruct c as [[[i a] j] b]. simpl. by eapply connect_at_ok. }
  simpl. eapply IH; [done..|].
  intros q Hq. apply port_free_wire.
  - apply Hfree. by do 2 right.
  - intros ->. done.
  - intros ->. done.
  - by eapply port_free_slot.
  - by eapply port_free_slot.
Qed.

Lemma wire_all_app w ps1 ps2 :
  wire_all w (ps1 ++ ps2) = wire_all (wire_all w ps1) ps2.
Proof. apply foldl_app. Qed.

Lemma ports_cons c ps : ports (c :: ps) = c.1 :: c.2 :: ports ps.
Proof. done. Qed.

Lemma ports_app ps1 ps2 : ports (ps1 ++ ps2) = ports ps1 ++ ports ps2.
Proof. unfold ports. by rewrite fmap_app, concat_app. Qed.

Lemma elem_of_ports ps p :
  p ∈ ports ps ↔ ∃ c, c ∈ ps ∧ (p = c.1 ∨ p = c.2).
Proof.
  unfold ports. rewrite list_elem_of_In, in_concat. split.
  - intros (l & (c & -> & Hc)%list_elem_of_In%list_elem_of_fmap & Hp).
    exists c. split; [done|].
    apply list_elem_of_In, elem_of_cons in Hp as [->|Hp]; [by left|].
    apply list_elem_of_singleton in Hp as ->. by right.
  - intros (c & Hc & Hp). exists [c.1; c.2]. split.
    + apply list_elem_of_In.
      by apply (list_elem_of_fmap_2 (λ c, [c.1; c.2])).
    + apply list_elem_of_In. destruct Hp as [->| ->]; [left|right; left].
Qed.

Lemma port_free_wire_all w ps d q :
  NoDup (ports ps) →
  (∀ p, p ∈ ports ps → is_Some (slot w p.1 p.2)) →
  port_free w d q → q ∉ ports ps →
  port_free (wire_all w ps) d q.
Proof.
  intros Hnd Hsl (e & Hs & He & Hd) Hq.
  destruct (wire_all_spec ps w Hnd Hsl) as (He' & _ & Hd' & _ & _ & Hold).
  exists e. split_and!.
  - rewrite Hold; [done|]. by destruct q.
  - rewrite He'. by apply lookup_app_l_Some.
  - by rewrite Hd'.
Qed.

Lemma for_each_fmap {S A B} (f : B → M S unit) (g : A → B) l s :
  for_each f (g <$> l) s = for_each (λ x, f (g x)) l s.
Proof.
  revert s. induction l as [|x l IH]; intros s; [done|].
  simpl. unfold bind. destruct (f (g x) s); [apply IH|done].
Qed.

Lemma for_collect_get_edge ns fr w :
  Forall2 (λ g e, slot w g 0 = Some e) ns fr →
  for_collect (λ m, get_edge m 0) ns w = Ret w fr.
Proof.
  induction 1 as [|g e ns fr Hg H IH]; [done|].
  simpl. erewrite bind_Ret; [|by apply get_edge_ok].
  erewrite bind_Ret; [|done]. done.
Qed.

Lemma for_collect_extends {A B} (f : A → M World B) l :
  (∀ x w, ∃ w' y, f x w = Ret w' y ∧ extends w w') →
  ∀ w, ∃ w' ys, for_collect f l w = Ret w' ys ∧ extends w w'.
Proof.
  intros Hf. induction l as [|x l IH]; intros w.
  { exists w, []. split; [done|apply extends_refl]. }
  destruct (Hf x w) as (w1 & y & H1 & X1).
  destruct (IH w1) as (w2 & ys & H2 & X2).
  exists w2, (y :: ys). split; [|by eapply extends_trans].
  simpl. erewrite bind_Ret; [|done]. erewrite bind_Ret; [|done]. done.
Qed.

Lemma meta_appy_extends w :
  ∃ w' at_, meta_appy w = Ret w' at_ ∧ extends w w'.
Proof.
  unfold meta_appy.
  edestruct (for_collect_extends
    (λ g, a <- tn_Node (gates g) g ;; b <- tn_Node (gates g) g ;;
          ret [(g, a); (upper g, b)]) sgates) as (w' & ys & Hr & Hx).
  { intros g w1.
    destruct (tn_Node_pristine (gates g) g w1) as (w2 & H2 & X2 & _).
    destruct (tn_Node_pristine (gates g) g w2) as (w3 & H3 & X3 & _).
    eexists w3, _. split; [|by eapply extends_trans].
    erewrite bind_Ret; [|done]. erewrite bind_Ret; [|done]. done. }
  exists w', (concat ys). split; [|done].
  erewrite bind_Ret; [|done]. done.
Qed.

(** Objects added to the store do not disturb a well-formed circuit. *)
Lemma net_ok_extends w w' ns op :
  extends w w' → net_ok w ns op → net_ok w' ns op.
Proof.
  intros Hx [H1 H2 H3 H4 H5].
  assert (Hs : ∀ n a, n ∈ ns → slot w' n a = slot w n a).
  { intros n a Hn. destruct (H2 n Hn) as [nd Hnd]. unfold slot.
    by rewrite Hnd, (extends_node _ _ _ _ Hx Hnd). }
  assert (Hd : ∀ n a, n ∈ ns → dim_at w' n a = dim_at w n a).
  { intros n a Hn. destruct (H2 n Hn) as [nd Hnd]. unfold dim_at.
    by rewrite Hnd, (extends_node _ _ _ _ Hx Hnd). }
  split; try done.
  - intros n Hn. destruct (H2 n Hn) as [nd Hnd]. exists nd.
    by eapply extends_node.
  - intros n a e Hn He. rewrite Hs in He by done. rewrite Hd by done.
    destruct (H3 n a e Hn He) as (D & ed & E1 & E2).
    split; [done|]. exists ed. split; [by eapply extends_edge|done].
  - intros e He. destruct (H4 e He) as (n & a & Hn & E1 & E2).
    exists n, a. split_and!; [done|by eapply extends_edge|].
    by rewrite Hs.
Qed.

Lemma Inv_extends w w' c :
  extends w w' → Inv (mkSt w c) → Inv (mkSt w' c).
Proof.
  intros Hx [H1 H2 H3 H4]. simpl in *. split; simpl; try done.
  - by eapply net_ok_extends.
  - intros e n a He Hr.
    destruct (ok_open _ _ _ H1 e He) as (n' & a' & Hn & E1 & E2).
    pose proof (extends_edge _ _ _ _ Hx E1) as E1'.
    rewrite E1' in Hr. simplify_eq.
    eapply extends_dim_at; [done|]. by eapply H4.
Qed.

(** *** The routing chain of [__init__] *)

(** The connections the first loop of [__init__] makes among [c + 1]
    interior nodes, the first of which is the node [b]. *)
Definition chain (b c : nat) : list ((nat * nat) * (nat * nat)) :=
  (λ j, ((b + j, 2), (b + S j, 1))) <$> seq 0 c.

Lemma elem_of_chain_ports b c g a :
  (g, a) ∈ ports (chain b c) ↔
  (a = 2 ∧ b ≤ g < b + c) ∨ (a = 1 ∧ b + 1 ≤ g < b + c + 1).
Proof.
  rewrite elem_of_ports. unfold chain. split.
  - intros (x & (j & -> & Hj)%list_elem_of_fmap & Hp).
    apply elem_of_seq in Hj. simpl in Hp.
    destruct Hp as [Hp|Hp]; simplify_eq; [left|right]; lia.
  - intros [[-> Hg]|[-> Hg]].
    + exists ((b + (g - b), 2), (b + S (g - b), 1)). split.
      * apply (list_elem_of_fmap_2 (λ j, ((b + j, 2), (b + S j, 1)))).
        apply elem_of_seq. lia.
      * left. simpl. f_equal. lia.
    + exists ((b + (g - b - 1), 2), (b + S (g - b - 1), 1)). split.
      * apply (list_elem_of_fmap_2 (λ j, ((b + j, 2), (b + S j, 1)))).
        apply elem_of_seq. lia.
      * right. simpl. f_equal. lia.
Qed.

Lemma chain_S b c : chain b (S c) = ((b, 2), (b + 1, 1)) :: chain (S b) c.
Proof.
  unfold chain. simpl. rewrite Nat.add_0_r. f_equal.
  rewrite <- fmap_S_seq, <- list_fmap_compose.
  apply list_fmap_ext. intros _ j _. simpl. do 2 f_equal; f_equal; lia.
Qed.

Lemma NoDup_chain_ports c : ∀ b, NoDup (ports (chain b c)).
Proof.
  induction c as [|c IH]; intros b; [constructor|].
  rewrite chain_S, ports_cons. simpl.
  apply NoDup_cons. split; [|apply NoDup_cons; split; [|apply IH]].
  - rewrite not_elem_of_cons. split; [intros [=]; lia|].
    rewrite elem_of_chain_ports. lia.
  - rewrite elem_of_chain_ports. lia.
Qed.

(** *** The store [__init__] builds *)

(** With [m] interior qubits and [b] nodes in the store beforehand, the
    interior nodes are [b .. b + m - 1], the node of qubit 0 is [b + m] and
    the node of the last qubit is [b + m + 1]. *)
Definition init_nodes (b m : nat) : list nat :=
  (b + m) :: seq b m ++ [b + m + 1].

Definition init_tensor (b m g : nat) : Tensor :=
  if decide (g < b + m) then interior_tensor else end_tensor.

Definition init_ends (b m : nat) : list ((nat * nat) * (nat * nat)) :=
  if decide (m = 0) then [((b, 1), (b + 1, 1))]
  else [((b + m, 1), (b, 1)); ((b + m + 1, 1), (b + m - 1, 2))].

Definition init_pairs (b m : nat) : list ((nat * nat) * (nat * nat)) :=
  chain b (m - 1) ++ init_ends b m.

Lemma length_init_nodes b m : length (init_nodes b m) = m + 2.
Proof. unfold init_nodes. simpl. rewrite length_app, length_seq. simpl. lia. Qed.

Lemma init_nodes_lookup b m j :
  init_nodes b m !! j =
    if decide (j = 0) then Some (b + m)
    else if decide (j ≤ m) then Some (b + (j - 1))
    else if decide (j = m + 1) then Some (b + m + 1) else None.
Proof.
  unfold init_nodes. destruct j as [|j]; [done|]. simpl.
  destruct (decide (S j ≤ m)).
  - rewrite lookup_app_l by (rewrite length_seq; lia).
    rewrite lookup_seq_lt by lia. f_equal. lia.
  - rewrite lookup_app_r by (rewrite length_seq; lia).
    rewrite length_seq. case_decide.
    + by replace (j - m) with 0 by lia.
    + apply lookup_ge_None_2. simpl. lia.
Qed.

Lemma elem_of_init_nodes b m g : g ∈ init_nodes b m ↔ b ≤ g < b + m + 2.
Proof.
  unfold init_nodes.
  rewrite elem_of_cons, elem_of_app, elem_of_seq, list_elem_of_singleton. lia.
Qed.

Lemma NoDup_init_nodes b m : NoDup (init_nodes b m).
Proof.
  unfold init_nodes. apply NoDup_cons. split.
  - rewrite elem_of_app, elem_of_seq, list_elem_of_singleton. lia.
  - apply NoDup_app. split_and!; [apply NoDup_seq| |apply NoDup_singleton].
    intros x. rewrite elem_of_seq, list_elem_of_singleton. lia.
Qed.

Lemma elem_of_init_ports b m g a :
  (g, a) ∈ ports (init_pairs b m) ↔
  b ≤ g < b + m + 2 ∧ 1 ≤ a ∧ (a = 1 ∨ (a = 2 ∧ g < b + m)).
Proof.
  unfold init_pairs, init_ends. rewrite ports_app, elem_of_app.
  rewrite elem_of_chain_ports. case_decide.
  - subst m. rewrite !ports_cons. simpl.
    rewrite !elem_of_cons, elem_of_nil.
    split; [intros [?|[[=]|[[=]|[]]]]|intros ?]; try lia.
    destruct (decide (g = b)); [right; left|right; right; left]; f_equal; lia.
  - rewrite !ports_cons. simpl. rewrite !elem_of_cons, elem_of_nil.
    split; [intros [?|[[=]|[[=]|[[=]|[[=]|[]]]]]]|intros ?]; try lia.
    destruct (decide (a = 1)) as [->|].
    + destruct (decide (g = b)); [right; right; left; f_equal; lia|].
      destruct (decide (g = b + m)); [right; left; f_equal; lia|].
      destruct (decide (g = b + m + 1));
        [right; right; right; left; f_equal; lia|].
      left. lia.
    + assert (a = 2) as -> by lia.
      destruct (decide (g = b + m - 1));
        [right; right; right; right; left; f_equal; lia|].
      left. lia.
Qed.

Lemma NoDup_init_ports b m : NoDup (ports (init_pairs b m)).
Proof.
  unfold init_pairs, init_ends. rewrite ports_app. apply NoDup_app.
  split_and!; [apply NoDup_chain_ports| |].
  - intros [g a]. rewrite elem_of_chain_ports. case_decide.
    + subst m. lia.
    + rewrite !ports_cons. simpl. rewrite !not_elem_of_cons.
      intros Hga. split_and!; try apply not_elem_of_nil; intros [=]; lia.
  - case_decide.
    + rewrite !ports_cons. simpl. repeat constructor;
        rewrite ?not_elem_of_cons; split_and?; try apply not_elem_of_nil;
        try (intros [=]; lia).
    + rewrite !ports_cons. simpl. repeat constructor;
        rewrite ?not_elem_of_cons; split_and?; try apply not_elem_of_nil;
        try (intros [=]; lia).
Qed.

Lemma py_get_nat {A} (l : list A) (j : nat) z :
  z = Z.of_nat j → j < length l → py_get l z = l !! j.
Proof. intros -> Hj. apply py_get_norm. by apply py_norm_nonneg. Qed.

Lemma py_get_neg {A} (l : list A) (j : nat) z :
  (z = Z.of_nat j - Z.of_nat (length l))%Z → j < length l →
  py_get l z = l !! j.
Proof.
  intros -> Hj. apply py_get_norm. rewrite py_norm_neg by lia. f_equal. lia.
Qed.

Lemma chain_loop_ok b m w :
  (∀ p, p ∈ ports (chain b (m - 1)) → port_free w 1 p) →
  for_each (λ i, connect_at (init_nodes b m) i 2 (i + 1) 1)
           (py_range 1 (Z.of_nat m)) w
  = Ret (wire_all w (chain b (m - 1))) tt.
Proof.
  intros Hfree. unfold py_range.
  transitivity (for_each
    (λ c : Z * nat * Z * nat,
       connect_at (init_nodes b m) c.1.1.1 c.1.1.2 c.1.2 c.2)
    ((λ i, (i, 2, (i + 1)%Z, 1)) <$> seqZ 1 (Z.of_nat m - 1)) w).
  { by rewrite for_each_fmap. }
  eapply for_each_connect; [|apply NoDup_chain_ports|done].
  apply Forall2_same_length_lookup_2.
  { unfold chain. rewrite !length_fmap, length_seqZ, length_seq. lia. }
  intros i c p Hc Hp.
  rewrite list_lookup_fmap in Hc. unfold chain in Hp.
  rewrite list_lookup_fmap in Hp.
  destruct (seqZ 1 (Z.of_nat m - 1) !! i) as [z|] eqn:Hz; [|done].
  destruct (seq 0 (m - 1) !! i) as [j|] eqn:Hj; [|done].
  apply lookup_seqZ in Hz as [-> Hi]. apply lookup_seq in Hj as [-> _].
  simpl in *. simplify_eq. unfold resolves. simpl. split_and!; try done.
  - rewrite (py_get_nat _ (S i)); [|lia|rewrite length_init_nodes; lia].
    rewrite init_nodes_lookup.
    repeat case_decide; first [lia | done | f_equal; lia].
  - rewrite (py_get_nat _ (S (S i))); [|lia|rewrite length_init_nodes; lia].
    rewrite init_nodes_lookup.
    repeat case_decide; first [lia | done | f_equal; lia].
Qed.

Lemma ends_ok b m w :
  (∀ p, p ∈ ports (init_ends b m) → port_free w 1 p) →
  (if (Z.of_nat m + 2 <? 3)%Z
   then connect_at (init_nodes b m) 0 1 1 1
   else connect_at (init_nodes b m) 0 1 1 1 ;;;
        connect_at (init_nodes b m) (-1) 1 (-2) 2) w
  = Ret (wire_all w (init_ends b m)) tt.
Proof.
  intros Hfree. unfold init_ends in *. case_decide as Hm.
  - subst m. simpl. eapply connect_at_ok.
    + unfold resolves. simpl. split_and!; try done.
      * rewrite (py_get_nat _ 0); [|lia|rewrite length_init_nodes; lia].
        rewrite init_nodes_lookup.
        repeat case_decide; first [lia | done | f_equal; lia].
      * rewrite (py_get_nat _ 1); [|lia|rewrite length_init_nodes; lia].
        rewrite init_nodes_lookup.
        repeat case_decide; first [lia | done | f_equal; lia].
    + apply Hfree. rewrite ports_cons. left.
    + apply Hfree. rewrite ports_cons. right. left.
    + simpl. intros [=]. lia.
  - destruct (Z.ltb_spec (Z.of_nat m + 2) 3); [lia|].
    transitivity (for_each
      (λ c : Z * nat * Z * nat,
         connect_at (init_nodes b m) c.1.1.1 c.1.1.2 c.1.2 c.2)
      [(0%Z, 1, 1%Z, 1); ((-1)%Z, 1, (-2)%Z, 2)] w).
    { simpl. unfold bind.
      destruct (connect_at (init_nodes b m) 0 1 1 1 w); [|done].
      by destruct (connect_at (init_nodes b m) (-1) 1 (-2) 2 s) as [? []|]. }
    eapply for_each_connect; [| |done].
    + constructor; [|constructor; [|constructor]];
        unfold resolves; simpl; split_and!; try done.
      * rewrite (py_get_nat _ 1); [|lia|rewrite length_init_nodes; lia].
        rewrite init_nodes_lookup.
        repeat case_decide; first [lia | done | f_equal; lia].
      * rewrite (py_get_neg _ (m + 1)); rewrite ?length_init_nodes; [|lia..].
        rewrite init_nodes_lookup.
        repeat case_decide; first [lia | done | f_equal; lia].
      * rewrite (py_get_neg _ m); rewrite ?length_init_nodes; [|lia..].
        rewrite init_nodes_lookup.
        repeat case_decide; first [lia | done | f_equal; lia].
    + pose proof (NoDup_init_ports b m) as Hnd.
      unfold init_pairs in Hnd. rewrite ports_app in Hnd.
      apply NoDup_app in Hnd as (_ & _ & Hnd).
      unfold init_ends in Hnd. by rewrite decide_False in Hnd.
Qed.

Lemma Forall_exists_Forall2 {A B} (P : A → B → Prop) l :
  (∀ x, x ∈ l → ∃ y, P x y) → ∃ k, Forall2 P l k.
Proof.
  induction l as [|x l IH]; intros H; [by exists []|].
  destruct (H x) as [y Hy]; [left|].
  destruct IH as [k Hk]; [intros; apply H; by right|].
  exists (y :: k). by constructor.
Qed.

(** What [__init__] returns and the store it leaves, for [n >= 2] qubits:
    [w3] is the store once the boundary nodes exist and before any of them
    is connected. *)
Record init_facts (n : Z) (w0 w3 w : World) (c : Circuit) : Prop := {
  if_nq : nqubits c = n;
  if_nodes : nodes c = init_nodes (length (w_nodes w0)) (Z.to_nat (n - 2));
  if_ext0 : extends w0 w3;
  if_ext : extends
    (wire_all w3 (init_pairs (length (w_nodes w0)) (Z.to_nat (n - 2)))) w;
  if_pristine :
    Forall2 (λ g e, pristine w3 g
               (init_tensor (length (w_nodes w0)) (Z.to_nat (n - 2)) g) e)
            (nodes c) (front c)
}.

Lemma init_port_free b m w3 p :
  (∀ g, b ≤ g < b + m + 2 → ∃ e0, pristine w3 g (init_tensor b m g) e0) →
  p ∈ ports (init_pairs b m) → port_free w3 1 p.
Proof.
  intros Hpr Hp. destruct p as [g a].
  apply elem_of_init_ports in Hp as (Hg & Ha & Hcase).
  destruct (Hpr g Hg) as [e0 Hp]. exists (e0 + a). simpl.
  assert (a < length (shape (init_tensor b m g)) ∧
          shape (init_tensor b m g) !! a = Some 1) as [Hlt Hsh].
  { unfold init_tensor. case_decide; simpl.
    - destruct Hcase as [->|[-> _]]; split; done || lia.
    - destruct Hcase as [->|[-> ?]]; [split; done || lia|lia]. }
  split_and!.
  - rewrite (pristine_slot _ _ _ _ _ Hp). by rewrite decide_True.
  - by apply Hp.
  - by rewrite (pristine_dim _ _ _ _ _ Hp).
Qed.

Lemma Circuit_init_run n w0 :
  (2 <= n)%Z →
  ∃ w3 w c, Circuit_init n w0 = Ret w c ∧ init_facts n w0 w3 w c.
Proof.
  intros Hn. unfold Circuit_init.
  destruct (Z.ltb_spec n 2) as [|_]; [lia|].
  set (b := length (w_nodes w0)). set (m := Z.to_nat (n - 2)).
  destruct (for_collect_tn_Node (λ _ : Z, interior_tensor)
              (λ x, "qb-" +:+ pretty (x + 1)%Z) (py_range 0 (n - 2)) w0)
    as (w1 & H1 & X1 & L1 & P1).
  assert (Hlen : length (py_range 0 (n - 2)) = m).
  { unfold py_range. rewrite length_seqZ. unfold m. lia. }
  rewrite Hlen in H1, L1. fold b in H1, L1, P1.
  destruct (tn_Node_pristine end_tensor ("qb-" +:+ pretty 0%Z) w1)
    as (w2 & H2 & X2 & L2 & _ & P2).
  destruct (tn_Node_pristine end_tensor ("qb-" +:+ pretty (n - 1)%Z) w2)
    as (w3 & H3 & X3 & L3 & _ & P3).
  rewrite L1 in H2, P2. rewrite L2, L1 in H3, P3.
  replace (S (b + m)) with (b + m + 1) in H3, P3 by lia.
  erewrite bind_Ret; [|exact H1]. erewrite bind_Ret; [|exact H2].
  erewrite bind_Ret; [|exact H3].
  change (b + m :: seq b m ++ [b + m + 1]) with (init_nodes b m).
  assert (Hpr : ∀ g, b ≤ g < b + m + 2 →
            ∃ e0, pristine w3 g (init_tensor b m g) e0).
  { intros g Hg. unfold init_tensor. case_decide as Hgm.
    - destruct (P1 (g - b) (0 + Z.of_nat (g - b))%Z) as (e0 & Hp & _).
      { unfold py_range. apply lookup_seqZ. lia. }
      exists e0. replace (b + (g - b)) with g in Hp by lia.
      eapply pristine_extends; [|done]. by eapply extends_trans.
    - destruct (decide (g = b + m)) as [->|].
      + eexists. by eapply pristine_extends.
      + assert (g = b + m + 1) as -> by lia. eauto. }
  assert (Hfree : ∀ p, p ∈ ports (init_pairs b m) → port_free w3 1 p).
  { intros p Hp. by eapply init_port_free. }
  pose proof (NoDup_init_ports b m) as Hnd.
  unfold init_pairs in Hnd, Hfree. rewrite ports_app in Hnd, Hfree.
  apply NoDup_app in Hnd as (Hnd1 & Hdisj & Hnd2).
  erewrite bind_Ret.
  2:{ replace (n - 2)%Z with (Z.of_nat m) by lia.
      apply chain_loop_ok. intros p Hp. apply Hfree, elem_of_app. by left. }
  erewrite bind_Ret.
  2:{ replace n with (Z.of_nat m + 2)%Z by lia.
      apply ends_ok. intros p Hp. apply port_free_wire_all; try done.
      - intros q Hq. eapply port_free_slot, Hfree, elem_of_app. by left.
      - apply Hfree, elem_of_app. by right.
      - intros Hc. by eapply Hdisj. }
  rewrite <- wire_all_app. fold (init_pairs b m).
  set (w5 := wire_all w3 (init_pairs b m)).
  destruct (Forall_exists_Forall2
    (λ g e, pristine w3 g (init_tensor b m g) e) (init_nodes b m))
    as [fr Hfr].
  { intros g Hg. apply Hpr. by apply elem_of_init_nodes. }
  destruct (wire_all_spec (init_pairs b m) w3) as (_ & _ & _ & _ & _ & Hold).
  { apply NoDup_init_ports. }
  { intros p Hp. eapply port_free_slot, init_port_free; done. }
  erewrite bind_Ret.
  2:{ apply for_collect_get_edge with (fr := fr).
      eapply Forall2_impl; [exact Hfr|]. intros g e Hp. simpl in Hp.
      fold w5 in Hold. rewrite Hold.
      - rewrite (pristine_slot _ _ _ _ _ Hp).
        rewrite decide_True; [by rewrite Nat.add_0_r|].
        unfold init_tensor. case_decide; simpl; lia.
      - rewrite elem_of_init_ports. lia. }
  destruct (meta_appy_extends w5) as (w & at_ & Hm & Xm).
  erewrite bind_Ret; [|exact Hm].
  exists w3, w, (mkCircuit n (init_nodes b m) fr at_).
  split; [reflexivity|]. split.
  - reflexivity.
  - reflexivity.
  - eapply extends_trans; [exact X1|]. eapply extends_trans; [exact X2|].
    exact X3.
  - exact Xm.
  - exact Hfr.
Qed.

Lemma extends_slot_eq w w' n a :
  extends w w' → is_Some (w_nodes w !! n) → slot w' n a = slot w n a.
Proof.
  intros Hx [nd Hnd]. unfold slot.
  by rewrite Hnd, (extends_node _ _ _ _ Hx Hnd).
Qed.

Lemma extends_dim_eq w w' n a :
  extends w w' → is_Some (w_nodes w !! n) → dim_at w' n a = dim_at w n a.
Proof.
  intros Hx [nd Hnd]. unfold dim_at.
  by rewrite Hnd, (extends_node _ _ _ _ Hx Hnd).
Qed.

Lemma extends_tensor_eq w w' n :
  extends w w' → is_Some (w_nodes w !! n) → tensor_of w' n = tensor_of w n.
Proof.
  intros Hx [nd Hnd]. unfold tensor_of.
  by rewrite Hnd, (extends_node _ _ _ _ Hx Hnd).
Qed.

Lemma tensor_of_is_Some w n t : tensor_of w n = Some t → is_Some (w_nodes w !! n).
Proof. unfold tensor_of. destruct (w_nodes w !! n); naive_solver. Qed.

Definition rank_of (t : Tensor) : nat := length (shape t).

(** The store a new Circuit lives in, axis by axis. *)
Lemma init_obs n w0 w3 w c :
  init_facts n w0 w3 w c →
  let b := length (w_nodes w0) in
  let m := Z.to_nat (n - 2) in
  let E := length (w_edges w3) in
  (∀ g, g ∈ nodes c → tensor_of w g = Some (init_tensor b m g)) ∧
  (∀ g a, g ∈ nodes c → rank_of (init_tensor b m g) ≤ a → slot w g a = None) ∧
  Forall2 (λ g e, slot w g 0 = Some e ∧
                  w_edges w !! e = Some (mkEdge g 0 None) ∧
                  dim_at w g 0 = Some 2) (nodes c) (front c) ∧
  (∀ g a, g ∈ nodes c → 1 ≤ a < rank_of (init_tensor b m g) →
     ∃ k p, init_pairs b m !! k = Some p ∧ (p.1 = (g, a) ∨ p.2 = (g, a)) ∧
            p.1.1 ∈ nodes c ∧ p.2.1 ∈ nodes c ∧
            slot w g a = Some (E + k) ∧
            w_edges w !! (E + k) = Some (joined p) ∧
            dim_at w g a = Some 1).
Proof.
  intros [Hnq Hns X0 X Hpr] b m E. fold b m in Hns, X, Hpr.
  set (ps := init_pairs b m) in *. set (w5 := wire_all w3 ps) in *.
  assert (Hprg : ∀ g, g ∈ nodes c →
            ∃ e0, pristine w3 g (init_tensor b m g) e0 ∧ e0 ∈ front c).
  { intros g Hg. apply list_elem_of_lookup in Hg as [j Hj].
    destruct (Forall2_lookup_l _ _ _ _ _ Hpr Hj) as (e & He & Hp).
    exists e. split; [done|]. by eapply list_elem_of_lookup_2. }
  destruct (wire_all_spec ps w3) as (He & Hlen & Hd & Ht & Hnew & Hold).
  { apply NoDup_init_ports. }
  { intros p Hp. eapply port_free_slot, init_port_free; [|done].
    intros g Hg. destruct (Hprg g) as (e0 & ? & _); [|eauto].
    rewrite Hns. by apply elem_of_init_nodes. }
  fold w5 in He, Hlen, Hd, Ht, Hnew, Hold.
  assert (Hnode5 : ∀ g, g ∈ nodes c → is_Some (w_nodes w5 !! g)).
  { intros g Hg. destruct (Hprg g Hg) as (e0 & Hp & _).
    eapply tensor_of_is_Some. rewrite Ht. by eapply pristine_tensor. }
  split_and!.
  - intros g Hg. destruct (Hprg g Hg) as (e0 & Hp & _).
    rewrite (extends_tensor_eq _ _ _ X) by auto.
    rewrite Ht. by eapply pristine_tensor.
  - intros g a Hg Ha. destruct (Hprg g Hg) as (e0 & Hp & _).
    rewrite (extends_slot_eq _ _ _ _ X) by auto.
    rewrite Hold.
    + rewrite (pristine_slot _ _ _ _ _ Hp).
      rewrite decide_False; [done|]. unfold rank_of in Ha. lia.
    + unfold ps. rewrite elem_of_init_ports. unfold rank_of, init_tensor in Ha.
      case_decide; simpl in Ha; lia.
  - eapply Forall2_impl; [exact Hpr|]. intros g e Hp. simpl in Hp.
    assert (0 < length (shape (init_tensor b m g))) as H0.
    { unfold init_tensor. case_decide; simpl; lia. }
    assert (slot w5 g 0 = Some e) as Hs.
    { rewrite Hold; [|unfold ps; rewrite elem_of_init_ports; lia].
      rewrite (pristine_slot _ _ _ _ _ Hp).
      rewrite decide_True by done. by rewrite Nat.add_0_r. }
    split_and!.
    + by eapply extends_slot.
    + eapply extends_edge; [done|]. rewrite He. apply lookup_app_l_Some.
      destruct Hp as [_ Hp]. specialize (Hp 0 H0).
      by rewrite Nat.add_0_r in Hp.
    + eapply extends_dim_at; [done|]. rewrite Hd.
      rewrite (pristine_dim _ _ _ _ _ Hp).
      unfold init_tensor. by case_decide.
  - intros g a Hg Ha. destruct (Hprg g Hg) as (e0 & Hp & _).
    assert ((g, a) ∈ ports ps) as Hin.
    { apply elem_of_init_ports. rewrite Hns in Hg.
      apply elem_of_init_nodes in Hg.
      unfold rank_of, init_tensor in Ha. case_decide; simpl in Ha; lia. }
    pose proof Hin as Hin'.
    apply elem_of_ports in Hin as (p & Hp' & Hor).
    apply list_elem_of_lookup in Hp' as [k Hk].
    destruct (Hnew k p Hk) as [S1 S2].
    assert (∀ q, q ∈ ports ps → q.1 ∈ nodes c) as Hpn.
    { intros [g' a'] (Hg' & _)%elem_of_init_ports.
      rewrite Hns. by apply elem_of_init_nodes. }
    exists k, p. split_and!.
    + done.
    + destruct Hor as [->| ->]; auto.
    + apply Hpn, elem_of_ports. exists p.
      split; [by eapply list_elem_of_lookup_2|by left].
    + apply Hpn, elem_of_ports. exists p.
      split; [by eapply list_elem_of_lookup_2|by right].
    + eapply extends_slot; [done|]. unfold E.
      destruct Hor as [Hq|Hq]; [rewrite <- S1|rewrite <- S2];
        by rewrite <- Hq.
    + eapply extends_edge; [done|]. rewrite He.
      rewrite lookup_app_r by lia.
      replace (E + k - length (w_edges w3)) with k by (unfold E; lia).
      by rewrite list_lookup_fmap, Hk.
    + eapply extends_dim_at; [done|]. rewrite Hd.
      destruct (init_port_free b m w3 (g, a)) as (? & _ & _ & ?); [|done|done].
      intros g' Hg'. destruct (Hprg g') as (? & ? & _); [|eauto].
      rewrite Hns. by apply elem_of_init_nodes.
Qed.

(** A new Circuit is well formed. *)
Lemma init_facts_Inv n w0 w3 w c :
  (2 <= n)%Z → init_facts n w0 w3 w c → Inv (mkSt w c).
Proof.
  intros Hn Hf. pose proof (init_obs _ _ _ _ _ Hf) as (Ht & Hrk & Hfr & Hrt).
  destruct Hf as [Hnq Hns X0 X Hpr]. simpl in *.
  set (b := length (w_nodes w0)) in *. set (m := Z.to_nat (n - 2)) in *.
  assert (Hfront : ∀ e, e ∈ front c →
            ∃ g, g ∈ nodes c ∧ slot w g 0 = Some e ∧
                 w_edges w !! e = Some (mkEdge g 0 None) ∧
                 dim_at w g 0 = Some 2).
  { intros e [j Hj]%list_elem_of_lookup.
    destruct (Forall2_lookup_r _ _ _ _ _ Hfr Hj) as (g & Hg & H1 & H2 & H3).
    exists g. split; [by eapply list_elem_of_lookup_2|done]. }
  split; simpl.
  - split.
    + rewrite Hns. apply NoDup_init_nodes.
    + intros g Hg. eapply tensor_of_is_Some. by apply Ht.
    + intros g a e Hg He.
      destruct (decide (a < rank_of (init_tensor b m g))) as [Ha|Ha].
      2:{ rewrite Hrk in He by (done || lia). done. }
      destruct (decide (a = 0)) as [->|Ha0].
      * apply list_elem_of_lookup in Hg as [j Hj].
        destruct (Forall2_lookup_l _ _ _ _ _ Hfr Hj) as (e' & He' & H1 & H2 & H3).
        rewrite H1 in He. simplify_eq.
        split; [by rewrite H3|]. eexists. split; [done|]. simpl.
        split_and!; try done; by eapply list_elem_of_lookup_2.
      * destruct (Hrt g a Hg ltac:(lia))
          as (k & p & Hk & Hor & P1 & P2 & Hs & Hed & Hd).
        rewrite Hs in He. simplify_eq.
        split; [by rewrite Hd|]. eexists. split; [done|].
        destruct p as [[??][??]]. simpl in *. done.
    + intros e He. destruct (Hfront e He) as (g & Hg & H1 & H2 & _).
      by exists g, 0.
    + eapply (NoDup_Forall2_injective
                (λ g e, w_edges w !! e = Some (mkEdge g 0 None))).
      * intros g g' e H1 H2. rewrite H1 in H2. by simplify_eq.
      * eapply Forall2_impl; [exact Hfr|]. naive_solver.
      * rewrite Hns. apply NoDup_init_nodes.
  - rewrite <- (Forall2_length _ _ _ Hfr), Hns, length_init_nodes, Hnq.
    unfold m. lia.
  - by rewrite Hnq.
  - intros e g a He Hrec. destruct (Hfront e He) as (g' & Hg & H1 & H2 & H3).
    rewrite H2 in Hrec. by simplify_eq.
Qed.

(** ** Single and double gates as general gates *)

Lemma apply_single_gate_general g q s :
  apply_single_gate g q s = apply_general_gate g [q] s.
Proof.
  unfold apply_single_gate, apply_general_gate. simpl.
  unfold bind.
  destruct (liftW (get_edge g 0) s) as [s1 a|]; [|done].
  destruct (read_front q s1) as [s2 f|]; [|done].
  destruct (liftW (connect a f) s2) as [s3 ?|]; [|done].
  destruct (liftW (get_edge g 1) s3) as [s4 b|]; [|done].
  destruct (write_front q b s4) as [s5 ?|]; [|done].
  done.
Qed.

(** The state a double gate leaves on two distinct qubits. *)
Lemma apply_double_gate_general s g G r t1 t2 :
  4 ≤ r →
  gate_slots (world s) g G 0 r →
  target_ok (world s) (front (self s)) g t1 →
  target_ok (world s) (front (self s)) g t2 →
  t_q t1 ≠ t_q t2 → t_f t1 ≠ t_f t2 →
  apply_double_gate g (t_z t1) (t_z t2) s
  = apply_general_gate g [t_z t1; t_z t2] s.
Proof.
  intros Hr HG Ht1 Ht2 Hq Hf.
  assert (t_z t1 ≠ t_z t2) as Hz.
  { intros E. destruct Ht1 as (H1 & _), Ht2 as (H2 & _).
    rewrite E, H2 in H1. by simplify_eq. }
  pose proof Ht1 as (Hn1 & Hf1 & Hfe1 & Hfs1 & Hfd1 & Hpg1).
  pose proof Ht2 as (Hn2 & Hf2 & Hfe2 & Hfs2 & Hfd2 & Hpg2).
  destruct (HG 0 ltac:(lia)) as (Hs0 & He0 & Hd0).
  destruct (HG 1 ltac:(lia)) as (Hs1 & He1 & Hd1).
  destruct (HG 2 ltac:(lia)) as (Hs2 & He2 & Hd2).
  destruct (HG 3 ltac:(lia)) as (Hs3 & He3 & Hd3).
  unfold apply_general_gate.
  assert (NoDup [t_z t1; t_z t2]) as Hnd.
  { repeat constructor; rewrite ?not_elem_of_cons;
      try apply not_elem_of_nil. split; [done|apply not_elem_of_nil]. }
  apply length_remove_dups_NoDup in Hnd. rewrite <- Hnd. simpl.
  erewrite (bind_Ret (gate_loop g 2 0 [t_z t1; t_z t2])).
  2:{ rewrite (gate_loop_step s g 2 0 G r); [|lia|lia|done|done].
      rewrite (gate_loop_step _ g 2 1 G r); [done|lia|lia| |].
      - eapply gate_slots_step; [done..|lia].
      - apply target_ok_step; try done; eauto. }
  unfold apply_double_gate. rewrite bool_decide_eq_false_2 by done.
  destruct s as [w c]. simpl in *.
  assert (Hw1 : ∀ n a, slot (wired w g 0 (t_p t1) (t_x t1)) n a =
      if decide ((n = g ∧ a = 0) ∨ (n = t_p t1 ∧ a = t_x t1))
      then Some (length (w_edges w)) else slot w n a).
  { intros. apply slot_wired; eauto. }
  set (w1 := wired w g 0 (t_p t1) (t_x t1)) in *.
  assert (Hw2 : ∀ n a, slot (wired w1 g 1 (t_p t2) (t_x t2)) n a =
      if decide ((n = g ∧ a = 1) ∨ (n = t_p t2 ∧ a = t_x t2))
      then Some (length (w_edges w1)) else slot w1 n a).
  { intros. apply slot_wired.
    - rewrite Hw1, decide_False; [eauto|]. intros [[_ ?]|[? _]]; done.
    - rewrite Hw1, decide_False; [eauto|]. intros [[? _]|[E1 E2]]; [done|].
      rewrite E1, E2, Hfs1 in Hfs2. by simplify_eq. }
  erewrite bind_Ret; [|by apply liftW_Ret, get_edge_ok].
  erewrite bind_Ret; [|by eapply read_front_ok].
  erewrite bind_Ret.
  2:{ apply liftW_Ret.
      apply (connect_ok _ _ _ g 0 (t_p t1) (t_x t1) 2); eauto.
      intros E. rewrite E, Hfe1 in He0. by simplify_eq. }
  fold w1.
  erewrite bind_Ret.
  2:{ apply liftW_Ret, get_edge_ok. rewrite Hw1, decide_False; [done|].
      intros [[_ ?]|[? _]]; done. }
  erewrite bind_Ret; [|by eapply read_front_ok].
  erewrite bind_Ret.
  2:{ apply liftW_Ret.
      apply (connect_ok _ _ _ g 1 (t_p t2) (t_x t2) 2).
      - unfold w1. rewrite edges_wired. by apply lookup_app_l_Some.
      - unfold w1. rewrite edges_wired. by apply lookup_app_l_Some.
      - intros E. rewrite E, Hfe2 in He1. by simplify_eq.
      - unfold w1. by rewrite dim_at_wired.
      - unfold w1. by rewrite dim_at_wired.
      - rewrite Hw1, decide_False; [eauto|]. intros [[_ ?]|[? _]]; done.
      - rewrite Hw1, decide_False; [eauto|]. intros [[? _]|[E1 E2]]; [done|].
        rewrite E1, E2, Hfs1 in Hfs2. by simplify_eq. }
  erewrite bind_Ret.
  2:{ apply liftW_Ret, get_edge_ok. rewrite Hw2, decide_False.
      - rewrite Hw1, decide_False; [done|]. intros [[_ ?]|[? _]]; done.
      - intros [[_ ?]|[? _]]; done. }
  erewrite bind_Ret; [|by eapply write_front_ok].
  erewrite bind_Ret.
  2:{ apply liftW_Ret, get_edge_ok. rewrite Hw2, decide_False.
      - rewrite Hw1, decide_False; [done|]. intros [[_ ?]|[? _]]; done.
      - intros [[_ ?]|[? _]]; done. }
  erewrite bind_Ret.
  2:{ eapply write_front_ok. simpl. by rewrite length_insert. }
  done.
Qed.

(** ** Reachable states *)

(** The targets [index] select the pairwise distinct qubits [qs] of a
    register of [len] qubits. *)
Definition selects (len : nat) (index : list Z) (qs : list nat) : Prop :=
  Forall2 (λ z q, py_norm len z = Some q) index qs ∧ NoDup qs.

(** The states of a program that builds a circuit, applies gates to it, each
    gate a node not wired to anything yet, of rank twice the number of its
    targets and with every index of dimension 2, on distinct qubits of the
    register, and meanwhile creates other objects. *)
Inductive reachable : St → Prop :=
  | reach_init n w0 w c :
      Circuit_init n w0 = Ret w c → reachable (mkSt w c)
  | reach_extend s w' :
      reachable s → extends (world s) w' → reachable (mkSt w' (self s))
  | reach_single s g G z qs s' :
      reachable s →
      fresh_gate (world s) (nodes (self s)) g 2 G →
      selects (length (front (self s))) [z] qs →
      apply_single_gate g z s = Ret s' tt → reachable s'
  | reach_double s g G z1 z2 qs s' :
      reachable s →
      fresh_gate (world s) (nodes (self s)) g 4 G →
      selects (length (front (self s))) [z1; z2] qs →
      apply_double_gate g z1 z2 s = Ret s' tt → reachable s'
  | reach_general s g G index qs s' :
      reachable s →
      fresh_gate (world s) (nodes (self s)) g (2 * length index) G →
      selects (length (front (self s))) index qs →
      apply_general_gate g index s = Ret s' tt → reachable s'.

Lemma Circuit_init_Inv n w0 w c :
  Circuit_init n w0 = Ret w c → Inv (mkSt w c).
Proof.
  intros Hrun. destruct (Z.ltb_spec n 2) as [Hn|Hn].
  { unfold Circuit_init in Hrun.
    destruct (Z.ltb_spec n 2); [done|lia]. }
  destruct (Circuit_init_run n w0 Hn) as (w3 & w' & c' & Hrun' & Hf).
  rewrite Hrun in Hrun'. simplify_eq. by eapply init_facts_Inv.
Qed.

Lemma apply_general_gate_Inv s g G index qs s' :
  Inv s → fresh_gate (world s) (nodes (self s)) g (2 * length index) G →
  selects (length (front (self s))) index qs →
  apply_general_gate g index s = Ret s' tt → Inv s'.
Proof.
  intros HI Hg [Hsel Hnd] Hrun.
  destruct (apply_general_gate_run s g _ G index qs HI Hg Hsel Hnd)
    as (tgs & s1 & E1 & E2 & F1 & F2 & Hp & Hrun'); [lia|].
  rewrite Hrun in Hrun'. simplify_eq.
  rewrite length_fmap in Hp, Hg.
  by eapply loop_post_Inv.
Qed.

Lemma apply_double_gate_as_general s g G z1 z2 qs :
  Inv s → fresh_gate (world s) (nodes (self s)) g 4 G →
  selects (length (front (self s))) [z1; z2] qs →
  apply_double_gate g z1 z2 s = apply_general_gate g [z1; z2] s.
Proof.
  intros HI Hg [Hsel Hnd].
  destruct (targets_exist s g _ _ HI (fg_new _ _ _ _ _ Hg) Hsel)
    as (tgs & E1 & E2 & F1 & F2).
  destruct tgs as [|t1 [|t2 [|??]]]; simplify_eq.
  apply Forall_cons in F1 as [T1 F1]. apply Forall_cons in F1 as [T2 _].
  rewrite !fmap_cons in Hnd. apply NoDup_cons in Hnd as [Hq _].
  rewrite not_elem_of_cons in Hq. destruct Hq as [Hq _].
  injection E1 as <- <-.
  eapply (apply_double_gate_general s g G 4); try done.
  - apply (fg_slots _ _ _ _ _ Hg).
  - intros E. destruct T1 as (_ & H1 & _), T2 as (_ & H2 & _).
    rewrite <- E in H2. apply Hq.
    eapply NoDup_lookup; [|exact H1|exact H2].
    apply (ok_open_nodup _ _ _ (inv_net _ HI)).
Qed.

Lemma reachable_Inv s : reachable s → Inv s.
Proof.
  induction 1 as [n w0 w c Hrun|s w' _ IH Hx|s g G z qs s' _ IH Hg Hsel Hrun
                  |s g G z1 z2 qs s' _ IH Hg Hsel Hrun
                  |s g G index qs s' _ IH Hg Hsel Hrun].
  - by eapply Circuit_init_Inv.
  - destruct s as [w c]. by eapply Inv_extends.
  - rewrite apply_single_gate_general in Hrun.
    by eapply (apply_general_gate_Inv s g G [z]).
  - rewrite (apply_double_gate_as_general s g G z1 z2 qs) in Hrun by done.
    by eapply (apply_general_gate_Inv s g G [z1; z2]).
  - by eapply apply_general_gate_Inv.
Qed.

(** ** Gate application *)

Lemma selects_nat len (qs : list nat) :
  NoDup qs → Forall (λ q, q < len) qs → selects len (Z.of_nat <$> qs) qs.
Proof.
  intros Hnd Hlt. split; [|done].
  apply Forall2_fmap_l, Forall_Forall2_diag.
  eapply Forall_impl; [done|]. intros q Hq. by apply py_norm_nonneg.
Qed.


(** C8.  In every reachable state [front] has one entry per qubit, the
    entries are pairwise distinct, and each is an edge object that is
    dangling, belongs to a node of [nodes] and sits on that node.  Gate
    applications are among the steps of [reachable], so they preserve
    this. *)
Theorem C8_front_invariant s :
  reachable s →
  Z.of_nat (length (front (self s))) = nqubits (self s) ∧
  NoDup (front (self s)) ∧
  ∀ q e, front (self s) !! q = Some e →
    ∃ n a, n ∈ nodes (self s) ∧
           w_edges (world s) !! e = Some (mkEdge n a None) ∧
           slot (world s) n a = Some e.
Proof.
  intros [[_ _ _ Hop Hnd] Hlen _ _]%reachable_Inv. split_and!; try done.
  intros q e Hq. apply Hop. by eapply list_elem_of_lookup_2.
Qed.

(** C7.  A double or general gate application in which two of the targets
    are the same integer fails its assertion before anything is touched:
    the state it leaves is the state it found, so that [wavefunction]
    afterwards computes what it would have computed before. *)
Theorem C7_duplicate_targets_rejected s g (index : list Z) i j z :
  i ≠ j → index !! i = Some z → index !! j = Some z →
  apply_double_gate g z z s = Raise s AssertionError ∧
  apply_general_gate g index s = Raise s AssertionError ∧
  ∀ s' e, apply_general_gate g index s = Raise s' e →
          wavefunction s' = wavefunction s.
Proof.
  intros Hij Hi Hj.
  assert (apply_general_gate g index s = Raise s AssertionError) as Hgen.
  { unfold apply_general_gate.
    destruct (Nat.eqb_spec (length index) (length (remove_dups index)))
      as [E|E]; [|done].
    apply length_remove_dups_NoDup in E.
    destruct Hij. by eapply NoDup_lookup. }
  split_and!; [|done|].
  - unfold apply_double_gate. by rewrite bool_decide_eq_true_2.
  - intros s' e. rewrite Hgen. by intros [= <- _].
Qed.

(** *** Targets written as negative integers *)

Lemma gate_loop_norm g k len index index' : ∀ i s,
  length (front (self s)) = len →
  Forall2 (λ z z', py_norm len z = py_norm len z') index index' →
  gate_loop g k i index s = gate_loop g k i index' s.
Proof.
  intros i s Hlen H. revert i s Hlen.
  induction H as [|z z' index index' Hz H IH]; intros i s Hlen; [done|].
  simpl. unfold bind.
  destruct (liftW (get_edge g i) s) as [s1 a|] eqn:E1; [|done].
  assert (self s1 = self s) as Hs1.
  { unfold liftW in E1. destruct (get_edge g i (world s)); by simplify_eq. }
  assert (read_front z s1 = read_front z' s1) as ->.
  { unfold read_front, py_get. by rewrite Hs1, Hlen, Hz. }
  destruct (read_front z' s1) as [s2 f|] eqn:E2; [|done].
  assert (self s2 = self s) as Hs2.
  { unfold read_front in E2.
    destruct (py_get (front (self s1)) z'); simpl in E2;
      unfold ret, raise in E2; by simplify_eq. }
  destruct (liftW (connect a f) s2) as [s3 ?|] eqn:E3; [|done].
  assert (self s3 = self s) as Hs3.
  { unfold liftW in E3. destruct (connect a f (world s2)); by simplify_eq. }
  destruct (liftW (get_edge g (i + k)) s3) as [s4 b|] eqn:E4; [|done].
  assert (self s4 = self s) as Hs4.
  { unfold liftW in E4.
    destruct (get_edge g (i + k) (world s3)); by simplify_eq. }
  assert (write_front z b s4 = write_front z' b s4) as ->.
  { unfold write_front, py_set. by rewrite Hs4, Hlen, Hz. }
  destruct (write_front z' b s4) as [s5 ?|] eqn:E5; [|done].
  apply IH. unfold write_front in E5.
  destruct (py_set (front (self s4)) z' b) as [f'|] eqn:E6; [|done].
  simplify_eq. simpl. unfold py_set in E6.
  destruct (py_norm (length (front (self s4))) z'); simplify_eq.
  simpl in E6. simplify_eq. by rewrite length_insert, Hs4.
Qed.

(** Targets that select the same qubits give the same gate application. *)
Lemma apply_general_gate_norm g s index qs :
  selects (length (front (self s))) index qs →
  apply_general_gate g index s = apply_general_gate g (Z.of_nat <$> qs) s.
Proof.
  intros [Hsel Hnd]. unfold apply_general_gate.
  assert (NoDup index) as H1.
  { eapply NoDup_Forall2_functional; [|done..]. intros; congruence. }
  assert (NoDup (Z.of_nat <$> qs)) as H2.
  { apply NoDup_fmap_2; [|done]. intros ???. lia. }
  apply length_remove_dups_NoDup in H1, H2. rewrite <- H1, <- H2.
  rewrite !Nat.eqb_refl. simpl.
  rewrite (Forall2_length _ _ _ Hsel), length_fmap.
  unfold bind.
  rewrite (gate_loop_norm g (length qs) (length (front (self s)))
             index (Z.of_nat <$> qs)); [done..|].
  apply Forall2_fmap_r. eapply Forall2_impl; [done|].
  intros z q Hz. simpl in *. rewrite Hz. symmetry.
  apply py_norm_nonneg. exact (py_norm_bound _ _ _ Hz).
Qed.

(** C10.  In a reachable circuit of [n] qubits, a single-qubit gate applied
    with a target [i] such that [-n <= i < 0] does not fail: it does what the
    same call with the target [n + i] does.  The same holds for
    [apply_general_gate] with targets that select pairwise distinct qubits.
    A target below [-n] or from [n] on is not screened: the only thing that
    stops the call is the [IndexError] of the list [front], raised with the
    circuit untouched. *)
Theorem C10_negative_targets_wrap s g G (i : Z) :
  reachable s → fresh_gate (world s) (nodes (self s)) g 2 G →
  ((- nqubits (self s) <= i < 0)%Z →
     ∃ s', apply_single_gate g i s = Ret s' tt ∧
           apply_single_gate g (nqubits (self s) + i) s = Ret s' tt ∧
           apply_general_gate g [i] s = Ret s' tt ∧
           front (self s') !! Z.to_nat (nqubits (self s) + i) = Some (G 1)) ∧
  (∀ g' G' index qs,
     fresh_gate (world s) (nodes (self s)) g' (2 * length index) G' →
     selects (length (front (self s))) index qs →
     ∃ s', apply_general_gate g' index s = Ret s' tt ∧
           apply_general_gate g' (Z.of_nat <$> qs) s = Ret s' tt) ∧
  ((i < - nqubits (self s) ∨ nqubits (self s) <= i)%Z →
     apply_single_gate g i s = Raise s IndexError ∧
     apply_general_gate g [i] s = Raise s IndexError).
Proof.
  intros Hreach Hg. pose proof (reachable_Inv _ Hreach) as HI.
  pose proof (inv_len _ HI) as Hlen.
  assert (Hgen : ∀ g' G' index qs,
     fresh_gate (world s) (nodes (self s)) g' (2 * length index) G' →
     selects (length (front (self s))) index qs →
     ∃ s1 tgs, apply_general_gate g' index s
                 = Ret (mkSt (world s1) (add_node (self s1) g')) tt ∧
           apply_general_gate g' (Z.of_nat <$> qs) s
                 = Ret (mkSt (world s1) (add_node (self s1) g')) tt ∧
           t_q <$> tgs = qs ∧
           loop_post g' (length index) G' 0 tgs s s1).
  { intros g' G' index qs Hg' Hsel.
    pose proof Hsel as [Hf2 Hnd].
    destruct (apply_general_gate_run s g' _ G' index qs HI Hg' Hf2 Hnd)
      as (tgs & s1 & _ & E2 & _ & _ & Hp & Hrun); [lia|].
    exists s1, tgs. split_and!; try done.
    by rewrite <- (apply_general_gate_norm g' s index qs). }
  split_and!.
  - intros Hi.
    set (q := Z.to_nat (nqubits (self s) + i)).
    assert (selects (length (front (self s))) [i] [q]) as Hsel.
    { split; [|apply NoDup_singleton]. repeat constructor.
      rewrite py_norm_neg by lia. unfold q. do 2 f_equal. lia. }
    destruct (Hgen g G [i] [q] Hg Hsel) as (s1 & tgs & R1 & R2 & E & Hp).
    eexists. rewrite !apply_single_gate_general. split_and!.
    + exact R1.
    + rewrite <- R2. apply apply_general_gate_norm.
      split; [|apply NoDup_singleton]. repeat constructor.
      replace (nqubits (self s) + i)%Z with (Z.of_nat q) by (unfold q; lia).
      apply py_norm_nonneg. unfold q. lia.
    + exact R1.
    + simpl. destruct tgs as [|t [|??]]; simplify_eq.
      destruct (lp_new _ _ _ _ _ _ _ Hp 0 t eq_refl) as (_ & _ & Hf).
      injection E as E. fold q. rewrite <- E. exact Hf.
  - intros g' G' index qs Hg' Hsel.
    destruct (Hgen g' G' index qs Hg' Hsel) as (s1 & tgs & R1 & R2 & _).
    eauto.
  - intros Hi.
    assert (apply_general_gate g [i] s = Raise s IndexError) as Hr.
    { unfold apply_general_gate. simpl.
      destruct (fg_slots _ _ _ _ _ Hg 0 ltac:(lia)) as (Hs0 & _).
      destruct s as [w c]. simpl in *.
      erewrite bind_Raise; [done|].
      erewrite bind_Ret; [|by apply liftW_Ret, get_edge_ok].
      erewrite bind_Raise; [done|].
      apply read_front_out. apply py_norm_None. lia. }
    by rewrite apply_single_gate_general.
Qed.

(** ** Construction *)

Lemma init_links n w0 w3 w c k p :
  init_facts n w0 w3 w c →
  init_pairs (length (w_nodes w0)) (Z.to_nat (n - 2)) !! k = Some p →
  slot w p.1.1 p.1.2 = Some (length (w_edges w3) + k) ∧
  slot w p.2.1 p.2.2 = Some (length (w_edges w3) + k) ∧
  w_edges w !! (length (w_edges w3) + k) = Some (joined p).
Proof.
  intros [Hnq Hns X0 X Hpr] Hk.
  set (b := length (w_nodes w0)) in *. set (m := Z.to_nat (n - 2)) in *.
  destruct (wire_all_spec (init_pairs b m) w3) as (He & _ & _ & _ & Hnew & _).
  { apply NoDup_init_ports. }
  { intros q Hq. eapply port_free_slot, init_port_free; [|done].
    intros g Hg. apply elem_of_init_nodes in Hg. rewrite <- Hns in Hg.
    apply list_elem_of_lookup in Hg as [j Hj].
    destruct (Forall2_lookup_l _ _ _ _ _ Hpr Hj) as (e & _ & Hp). eauto. }
  destruct (Hnew k p Hk) as [S1 S2]. split_and!.
  - by eapply extends_slot.
  - by eapply extends_slot.
  - eapply extends_edge; [done|]. rewrite He, lookup_app_r by lia.
    replace (length (w_edges w3) + k - length (w_edges w3)) with k by lia.
    by rewrite list_lookup_fmap, Hk.
Qed.

Lemma init_neighbours b m j :
  j < m + 1 →
  ∃ p a a', p ∈ init_pairs b m ∧ 1 ≤ a ∧ 1 ≤ a' ∧
    ((p.1 = (default 0 (init_nodes b m !! j), a) ∧
      p.2 = (default 0 (init_nodes b m !! S j), a')) ∨
     (p.2 = (default 0 (init_nodes b m !! j), a) ∧
      p.1 = (default 0 (init_nodes b m !! S j), a'))).
Proof.
  intros Hj.
  assert (Hn : ∀ i, default 0 (init_nodes b m !! i) =
            if decide (i = 0) then b + m
            else if decide (i ≤ m) then b + (i - 1)
            else if decide (i = m + 1) then b + m + 1 else 0).
  { intros i. rewrite init_nodes_lookup. by repeat case_decide. }
  rewrite !Hn. clear Hn. unfold init_pairs, init_ends.
  destruct (decide (m = 0)) as [Hm|Hm].
  { exists ((b, 1), (b + 1, 1)), 1, 1. split_and!; try lia.
    - apply elem_of_app. right. constructor.
    - left. cbn [fst snd]. repeat case_decide; try lia.
      split; f_equal; lia. }
  destruct (decide (j = 0)) as [Hj0|Hj0].
  { exists ((b + m, 1), (b, 1)), 1, 1. split_and!; try lia.
    - apply elem_of_app. right. constructor.
    - left. cbn [fst snd]. repeat case_decide; try lia.
      split; f_equal; lia. }
  destruct (decide (j = m)) as [Hjm|Hjm].
  { exists ((b + m + 1, 1), (b + m - 1, 2)), 2, 1. split_and!; try lia.
    - apply elem_of_app. right. constructor. constructor.
    - right. cbn [fst snd]. repeat case_decide; try lia.
      split; f_equal; lia. }
  exists ((b + (j - 1), 2), (b + S (j - 1), 1)), 2, 1. split_and!; try lia.
  - apply elem_of_app. left.
    apply (list_elem_of_fmap_2 (λ j, ((b + j, 2), (b + S j, 1)))).
    apply elem_of_seq. lia.
  - left. cbn [fst snd]. repeat case_decide; try lia.
    split; f_equal; lia.
Qed.

(** C5, as the code has it.  Construction with [n >= 2] qubits creates [n]
    boundary nodes, each holding the entries (1, 0).  The nodes of the first
    and of the last qubit have rank 2 (shape 2 x 1), the nodes of the
    interior qubits rank 3 (shape 2 x 1 x 1).  Axis 0 of node [j], of
    dimension 2, carries a dangling edge, which is [front[j]]; every other
    axis has dimension 1 and carries a connected edge; and the nodes of
    neighbouring qubits are joined by one of those edges, so that the
    boundary nodes form one chain. *)
Theorem C5_boundary_nodes (n : Z) (w0 : World) :
  (2 <= n)%Z →
  ∃ w c, Circuit_init n w0 = Ret w c ∧
    nqubits c = n ∧
    length (nodes c) = Z.to_nat n ∧ NoDup (nodes c) ∧
    length (front c) = Z.to_nat n ∧
    (∀ j g, nodes c !! j = Some g →
       tensor_of w g
         = Some (if decide (j = 0 ∨ j = Z.to_nat n - 1)
                 then mkTensor [2; 1] [kI; kO]
                 else mkTensor [2; 1; 1] [kI; kO]) ∧
       (∃ e, front c !! j = Some e ∧ slot w g 0 = Some e ∧
             w_edges w !! e = Some (mkEdge g 0 None) ∧
             dim_at w g 0 = Some 2) ∧
       (∀ a e, 1 ≤ a → slot w g a = Some e →
          dim_at w g a = Some 1 ∧
          ∃ ed, w_edges w !! e = Some ed ∧ is_dangling ed = false)) ∧
    (∀ j g g', nodes c !! j = Some g → nodes c !! S j = Some g' →
       ∃ a a' e, 1 ≤ a ∧ 1 ≤ a' ∧
                 slot w g a = Some e ∧ slot w g' a' = Some e).
Proof.
  intros Hn. destruct (Circuit_init_run n w0 Hn) as (w3 & w & c & Hrun & Hf).
  exists w, c. split; [done|].
  pose proof (init_obs _ _ _ _ _ Hf) as (Ht & Hrk & Hfr & Hrt).
  pose proof Hf as [Hnq Hns X0 X Hpr]. simpl in *.
  set (b := length (w_nodes w0)) in *. set (m := Z.to_nat (n - 2)) in *.
  assert (Z.to_nat n = m + 2) as Hnm by (unfold m; lia).
  split_and!.
  - done.
  - by rewrite Hns, length_init_nodes.
  - rewrite Hns. apply NoDup_init_nodes.
  - by rewrite <- (Forall2_length _ _ _ Hfr), Hns, length_init_nodes.
  - intros j g Hj.
    assert (g ∈ nodes c) as Hg by (by eapply list_elem_of_lookup_2).
    split_and!.
    + rewrite (Ht g Hg). f_equal. unfold init_tensor.
      rewrite Hns, init_nodes_lookup in Hj.
      repeat case_decide; simplify_eq; try done; lia.
    + destruct (Forall2_lookup_l _ _ _ _ _ Hfr Hj) as (e & He & H1 & H2 & H3).
      eauto.
    + intros a e Ha He.
      destruct (decide (a < rank_of (init_tensor b m g))) as [Hlt|Hge].
      2:{ rewrite Hrk in He by (done || lia). done. }
      destruct (Hrt g a Hg ltac:(lia))
        as (k & p & Hk & Hor & P1 & P2 & Hs & Hed & Hd).
      rewrite Hs in He. simplify_eq. split; [done|]. eauto.
  - intros j g g' Hj Hj'.
    assert (j < m + 1) as Hjm.
    { apply lookup_lt_Some in Hj'. rewrite Hns, length_init_nodes in Hj'.
      lia. }
    destruct (init_neighbours b m j Hjm) as (p & a & a' & Hp & Ha & Ha' & Hor).
    rewrite Hns in Hj, Hj'. rewrite Hj, Hj' in Hor. simpl in Hor.
    apply list_elem_of_lookup in Hp as [k Hk].
    destruct (init_links _ _ _ _ _ _ _ Hf Hk) as (S1 & S2 & _).
    exists a, a', (length (w_edges w3) + k). split_and!; try done.
    + destruct Hor as [[E1 E2]|[E1 E2]].
      * by rewrite E1 in S1.
      * by rewrite E1 in S2.
    + destruct Hor as [[E1 E2]|[E1 E2]].
      * by rewrite E2 in S2.
      * by rewrite E2 in S1.
Qed.

(** ** A gate whose rank does not fit its targets *)

(** The loop of [apply_general_gate] on a gate node of rank [r] too small
    for the targets left: it stops with the [IndexError] of the gate's edge
    list, after the connections of the positions before. *)
Lemma gate_loop_short g k G r tgs : ∀ i s,
  0 < k → tgs ≠ [] → r < i + length tgs + k →
  is_Some (w_nodes (world s) !! g) →
  gate_slots (world s) g G i r →
  (∀ a, r ≤ a → slot (world s) g a = None) →
  Forall (target_ok (world s) (front (self s)) g) tgs →
  NoDup (t_q <$> tgs) → NoDup (t_f <$> tgs) →
  ∃ s', gate_loop g k i (t_z <$> tgs) s = Raise s' IndexError ∧
        nodes (self s') = nodes (self s) ∧
        length (w_edges (world s)) ≤ length (w_edges (world s')) ∧
        (i < r → length (w_edges (world s)) < length (w_edges (world s'))).
Proof.
  induction tgs as [|t rest IH]; intros i s Hk Hne Hr Hnode HG Hrank Hts Hq Hf;
    [done|].
  apply Forall_cons in Hts as [Ht Hts].
  rewrite fmap_cons in Hq, Hf. apply NoDup_cons in Hq as [Hq1 Hq2].
  apply NoDup_cons in Hf as [Hf1 Hf2].
  pose proof Ht as (Hn & Hfr & Hfe & Hfs & Hfd & Hpg).
  destruct (decide (i < r)) as [Hir|Hir].
  2:{ (* the input edge itself does not exist *)
    exists s. destruct s as [w c]. simpl in *. split_and!; try done.
    erewrite bind_Raise; [done|].
    apply liftW_Raise, get_edge_out; [done|]. apply Hrank. lia. }
  destruct (HG i ltac:(lia)) as (Hgs & Hge & Hgd).
  assert (Hw1 : ∀ n a, slot (wired (world s) g i (t_p t) (t_x t)) n a =
      if decide ((n = g ∧ a = i) ∨ (n = t_p t ∧ a = t_x t))
      then Some (length (w_edges (world s))) else slot (world s) n a).
  { intros. apply slot_wired; eauto. }
  destruct (decide (i + k < r)) as [Hikr|Hikr].
  - (* this position goes through *)
    set (s1 := after_step s g i (G (i + k)) t).
    destruct (IH (S i) s1) as (s' & Hrun & Hns & Hle & _); try done.
    + intros ->. simpl in Hr. lia.
    + simpl in Hr. lia.
    + apply lookup_lt_is_Some. unfold s1, after_step. cbn [world].
      rewrite length_nodes_wired. by apply lookup_lt_is_Some.
    + eapply gate_slots_step; [done..|lia].
    + intros a Ha. unfold s1. simpl. rewrite Hw1.
      rewrite decide_False; [by apply Hrank|].
      intros [[_ ?]|[? _]]; [lia|done].
    + apply Forall_forall. intros t' Ht'.
      apply target_ok_step; try done; eauto.
      * by eapply Forall_forall in Hts.
      * intros E. apply Hq1. rewrite E. by apply list_elem_of_fmap_2.
      * intros E. apply Hf1. rewrite E. by apply list_elem_of_fmap_2.
    + exists s'. rewrite fmap_cons.
      rewrite (gate_loop_step s g k i G r); [|done..].
      fold s1. split_and!; try done.
      * unfold s1, after_step in Hle. cbn [world] in Hle.
        rewrite edges_wired, length_app in Hle. simpl in Hle. lia.
      * intros _. unfold s1, after_step in Hle. cbn [world] in Hle.
        rewrite edges_wired, length_app in Hle. simpl in Hle. lia.
  - (* the output edge of this position does not exist *)
    set (w1 := wired (world s) g i (t_p t) (t_x t)) in *.
    assert (length (w_edges w1) = S (length (w_edges (world s)))) as Hle1.
    { unfold w1. rewrite edges_wired, length_app. simpl. lia. }
    assert (is_Some (w_nodes w1 !! g)) as Hnode1.
    { apply lookup_lt_is_Some. unfold w1. rewrite length_nodes_wired.
      by apply lookup_lt_is_Some. }
    assert (slot w1 g (i + k) = None) as Hout.
    { rewrite Hw1, decide_False; [apply Hrank; lia|].
      intros [[_ ?]|[? _]]; [lia|done]. }
    assert (connect (G i) (t_f t) (world s) = Ret w1 (length (w_edges (world s))))
      as Hcon.
    { apply (connect_ok _ _ _ g i (t_p t) (t_x t) 2); eauto.
      intros E. rewrite E, Hfe in Hge. by simplify_eq. }
    clearbody w1. exists (mkSt w1 (self s)).
    destruct s as [w c]. simpl in *. split_and!; [|done|lia|lia].
    erewrite bind_Ret; [|by apply liftW_Ret, get_edge_ok].
    erewrite bind_Ret; [|by eapply read_front_ok].
    erewrite bind_Ret; [|by apply liftW_Ret].
    erewrite bind_Raise; [done|].
    by apply liftW_Raise, get_edge_out.
Qed.

(** C4, as the code has it.  [apply_general_gate] does not compare the rank
    [r] of the gate with the number [k] of targets.  On a reachable circuit,
    with a fresh gate node and pairwise distinct qubits: when [2k <= r] the
    call succeeds whatever [r] is, appends the gate and moves [front] of the
    targets to the gate's edges [k .. 2k-1]; when [r < 2k] the call stops
    with the [IndexError] of the gate's edge list and leaves [nodes] as it
    was, but only once it asks for an edge the gate does not have: when
    [1 <= r], edges have been connected by then. *)
Theorem C4_rank_is_not_checked s g r G (qs : list nat) :
  reachable s →
  fresh_gate (world s) (nodes (self s)) g r G →
  NoDup qs → Forall (λ q, q < length (front (self s))) qs →
  (2 * length qs ≤ r →
     ∃ s', apply_general_gate g (Z.of_nat <$> qs) s = Ret s' tt ∧
           nodes (self s') = nodes (self s) ++ [g] ∧
           ∀ i q, qs !! i = Some q →
                  front (self s') !! q = Some (G (length qs + i))) ∧
  (r < 2 * length qs →
     ∃ s', apply_general_gate g (Z.of_nat <$> qs) s = Raise s' IndexError ∧
           nodes (self s') = nodes (self s) ∧
           (1 ≤ r →
            length (w_edges (world s)) < length (w_edges (world s')))).
Proof.
  intros Hreach Hg Hnd Hlt. pose proof (reachable_Inv _ Hreach) as HI.
  destruct (selects_nat _ _ Hnd Hlt) as [Hsel _].
  assert (length (Z.of_nat <$> qs) = length qs) as Hlen
    by apply length_fmap.
  split.
  - intros Hr.
    destruct (apply_general_gate_run s g r G _ qs HI Hg Hsel Hnd)
      as (tgs & s1 & E1 & E2 & F1 & F2 & Hp & Hrun); [lia|].
    eexists. split; [exact Hrun|]. simpl.
    destruct (lp_self _ _ _ _ _ _ _ Hp) as [fr Hself].
    rewrite Hself. simpl. split; [done|].
    intros i q Hi.
    assert (∃ t, tgs !! i = Some t ∧ t_q t = q) as (t & Ht & <-).
    { rewrite <- E2, list_lookup_fmap in Hi.
      destruct (tgs !! i); naive_solver. }
    destruct (lp_new _ _ _ _ _ _ _ Hp i t Ht) as (_ & _ & Hf).
    rewrite Hself in Hf. simpl in Hf. rewrite Hf, Hlen. f_equal. f_equal. lia.
  - intros Hr.
    destruct (targets_exist s g _ qs HI (fg_new _ _ _ _ _ Hg) Hsel)
      as (tgs & E1 & E2 & F1 & F2).
    assert (length tgs = length qs) as Hlt' by (by rewrite <- E2, length_fmap).
    destruct (gate_loop_short g (length qs) G r tgs 0 s)
      as (s' & Hrun & Hns & _ & Hgrow); try done.
    + lia.
    + intros ->. simpl in Hlt'. lia.
    + lia.
    + apply (fg_node _ _ _ _ _ Hg).
    + intros a Ha. apply (fg_slots _ _ _ _ _ Hg). lia.
    + apply (fg_rank _ _ _ _ _ Hg).
    + by rewrite E2.
    + eapply targets_front_NoDup; [|done|by rewrite E2].
      apply (ok_open_nodup _ _ _ (inv_net _ HI)).
    + exists s'. split_and!; [|done|intros; apply Hgrow; lia].
      unfold apply_general_gate.
      assert (NoDup (Z.of_nat <$> qs)) as H2.
      { apply NoDup_fmap_2; [|done]. intros ???. lia. }
      apply length_remove_dups_NoDup in H2. rewrite <- H2, Nat.eqb_refl.
      simpl. rewrite Hlen. erewrite bind_Raise; [done|]. by rewrite <- E1.
Qed.

(** ** What a call leaves of the store it found *)

(** The state a call leaves, whether it returns or raises. *)
Definition final {S A} (o : outcome S A) : S :=
  match o with Ret s _ => s | Raise s _ => s end.

(** A triple for the monad: from a state in [P], [m] returns a value and a
    state in [Q], or raises in a state in [X]. *)
Definition triple {S A} (P : S → Prop) (m : M S A) (Q : A → S → Prop)
    (X : S → Prop) : Prop :=
  ∀ s, P s → match m s with Ret s' a => Q a s' | Raise s' _ => X s' end.

Lemma triple_ret {S A} (P : S → Prop) (a : A) (Q : A → S → Prop) X :
  (∀ s, P s → Q a s) → triple P (ret a) Q X.
Proof. intros H s Hs. by apply H. Qed.

Lemma triple_bind {S A B} (P : S → Prop) (m : M S A) (k : A → M S B)
    (Q : A → S → Prop) (R : B → S → Prop) X :
  triple P m Q X → (∀ a, triple (Q a) (k a) R X) → triple P (bind m k) R X.
Proof.
  intros Hm Hk s Hs. unfold bind. specialize (Hm s Hs).
  destruct (m s) as [s' a|s' e]; [by apply Hk|done].
Qed.

Lemma triple_for_each {S A} (I : S → Prop) (f : A → M S unit) l :
  (∀ x, x ∈ l → triple I (f x) (λ _, I) I) →
  triple I (for_each f l) (λ _, I) I.
Proof.
  induction l as [|x l IH]; intros Hf; [by apply triple_ret|].
  simpl. eapply triple_bind; [apply Hf; left|].
  intros u. apply IH. intros y Hy. apply Hf. by right.
Qed.

(** Every edge object from [be] on belongs to a node from [bn] on, and the
    nodes from [bn] on carry edge objects from [be] on only. *)
Definition above (bn be : nat) (w : World) : Prop :=
  (∀ e ed, be ≤ e → w_edges w !! e = Some ed → bn ≤ node1 ed) ∧
  (∀ n a e, bn ≤ n → slot w n a = Some e → be ≤ e).

(** The store [w] has the objects of [w0], unchanged, and what it has
    besides is wired within itself. *)
Definition kept (w0 w : World) : Prop :=
  extends w0 w ∧ above (length (w_nodes w0)) (length (w_edges w0)) w.

Lemma kept_refl w : kept w w.
Proof.
  split; [apply extends_refl|]. split.
  - intros e ed He Hed. apply lookup_lt_Some in Hed. lia.
  - intros n a e Hn He. unfold slot in He.
    destruct (w_nodes w !! n) eqn:E; [|done].
    apply lookup_lt_Some in E. lia.
Qed.

Lemma kept_extends w0 w : kept w0 w → extends w0 w.
Proof. by intros [? _]. Qed.

Lemma kept_tn_Node w0 w t nm w' n :
  kept w0 w → tn_Node t nm w = Ret w' n →
  kept w0 w' ∧ length (w_nodes w0) ≤ n.
Proof.
  intros [Hx [H1 H2]] Hr.
  destruct (tn_Node_pristine t nm w) as (w1 & Hr' & Hx' & Hn & He & Hp).
  rewrite Hr in Hr'. simplify_eq.
  assert (length (w_nodes w0) ≤ length (w_nodes w)) as Hbn.
  { destruct Hx as [[l ->] _]. rewrite length_app. lia. }
  assert (length (w_edges w0) ≤ length (w_edges w)) as Hbe.
  { destruct Hx as [_ [l ->]]. rewrite length_app. lia. }
  split; [|done]. split; [by eapply extends_trans|]. split.
  - intros e ed He' Hed. unfold tn_Node in Hr. simplify_eq. simpl in Hed.
    apply lookup_app_Some in Hed as [Hed|[Hge Hed]]; [by eapply H1|].
    apply list_lookup_fmap_Some in Hed as (a & -> & _). done.
  - intros n a e Hn' He'.
    destruct (decide (n = length (w_nodes w))) as [->|Hne].
    + rewrite (pristine_slot _ _ _ _ _ Hp) in He'.
      case_decide; simplify_eq. lia.
    + eapply (H2 n a); [done|].
      unfold tn_Node in Hr. simplify_eq. unfold slot in *. simpl in He'.
      destruct (decide (n < length (w_nodes w))).
      * by rewrite lookup_app_l in He'.
      * rewrite lookup_ge_None_2 in He'; [done|].
        rewrite length_app. simpl. lia.
Qed.

Lemma kept_add_edge w0 w n a e :
  kept w0 w → length (w_nodes w0) ≤ n → length (w_edges w0) ≤ e →
  kept w0 (final (add_edge n a e w)).
Proof.
  intros Hk Hn He. pose proof Hk as [Hx [H1 H2]]. unfold add_edge.
  destruct (w_nodes w !! n) as [nd|] eqn:E; [|done].
  repeat case_match; try done. simpl.
  split; [|split].
  - destruct Hx as [[l Hl] Hx2]. split; [|done]. simpl.
    exists (<[n - length (w_nodes w0) := set_node_edges nd (<[a:=e]> (edges nd))]> l).
    rewrite Hl. by rewrite insert_app_r_alt.
  - done.
  - intros n' a' e' Hn' He'. unfold slot in He'. simpl in He'.
    destruct (decide (n' = n)) as [->|Hne].
    + rewrite list_lookup_insert_eq in He' by (by eapply lookup_lt_Some).
      simpl in He'. apply list_lookup_insert_Some in He'.
      destruct He' as [(_ & -> & _)|[_ He']]; [done|].
      eapply (H2 n a'); [done|]. unfold slot. by rewrite E.
    + rewrite list_lookup_insert_ne in He' by done. by eapply (H2 n' a').
Qed.

Lemma final_add_edge_edges n a e w :
  w_edges (final (add_edge n a e w)) = w_edges w.
Proof.
  unfold add_edge. destruct (w_nodes w !! n); [|done].
  repeat case_match; done.
Qed.

Lemma kept_connect w0 w e1 e2 :
  kept w0 w → length (w_edges w0) ≤ e1 → length (w_edges w0) ≤ e2 →
  kept w0 (final (connect e1 e2 w)).
Proof.
  intros Hk He1 He2. pose proof Hk as [Hx [H1 H2]]. unfold connect.
  destruct (w_edges w !! e1) as [d1|] eqn:E1; [|done].
  destruct (w_edges w !! e2) as [d2|] eqn:E2; [|done].
  repeat (case_match; try done).
  set (w1 := mkWorld (w_nodes w) (w_edges w ++ [_])).
  assert (length (w_edges w0) ≤ length (w_edges w)) as Hbe.
  { destruct Hx as [_ [l ->]]. rewrite length_app. lia. }
  assert (kept w0 w1) as Hk1.
  { split; [|split].
    - destruct Hx as [Hxn [l Hl]]. split; [done|]. simpl.
      exists (l ++ [mkEdge (node1 d1) (axis1 d1) (Some (node1 d2, axis1 d2))]).
      by rewrite Hl, app_assoc.
    - intros e ed He Hed. simpl in Hed.
      apply lookup_app_Some in Hed as [Hed|[_ Hed]]; [by eapply H1|].
      destruct (e - length (w_edges w)) as [|?]; simpl in Hed; [|done].
      simplify_eq. simpl. exact (H1 _ _ He1 E1).
    - intros n' a' e' Hn' He'. by eapply (H2 n' a'). }
  unfold bind.
  pose proof (kept_add_edge w0 w1 (node1 d1) (axis1 d1) (length (w_edges w))
                Hk1 (H1 _ _ He1 E1) Hbe) as Hk2.
  destruct (add_edge (node1 d1) (axis1 d1) (length (w_edges w)) w1)
    as [w2 ?|w2 ?]; [|done]. simpl in Hk2.
  pose proof (kept_add_edge w0 w2 (node1 d2) (axis1 d2) (length (w_edges w))
                Hk2 (H1 _ _ He2 E2) Hbe) as Hk3.
  destruct (add_edge (node1 d2) (axis1 d2) (length (w_edges w)) w2)
    as [w3 ?|w3 ?]; done.
Qed.

Lemma kept_get_edge w0 n a :
  length (w_nodes w0) ≤ n →
  triple (kept w0) (get_edge n a)
         (λ e w, kept w0 w ∧ length (w_edges w0) ≤ e) (kept w0).
Proof.
  intros Hn w Hk. pose proof Hk as [_ [_ H2]]. unfold get_edge.
  destruct (w_nodes w !! n) as [nd|] eqn:E; [|done].
  destruct (edges nd !! a) as [e|] eqn:Ee; simpl; [|done].
  split; [done|]. eapply (H2 n a); [done|]. unfold slot. by rewrite E.
Qed.


Lemma dict_zip_lookup (ks : list nat) b k v :
  (list_to_map (zip ks (seq b (length ks))) : gmap nat nat) !! k = Some v →
  ∃ j, ks !! j = Some k ∧ v = b + j.
Proof.
  intros H. apply elem_of_list_to_map_2 in H.
  apply list_elem_of_lookup in H as [j Hj].
  apply lookup_zip_with_Some in Hj as (x & y & E & Hx & Hy).
  simplify_eq. apply lookup_seq in Hy as [-> _]. eauto.
Qed.

Lemma dict_zip_lookup_2 (ks : list nat) b j k :
  NoDup ks → ks !! j = Some k →
  (list_to_map (zip ks (seq b (length ks))) : gmap nat nat) !! k
    = Some (b + j).
Proof.
  intros Hnd Hj. apply elem_of_list_to_map_1.
  - rewrite fst_zip; [done|]. by rewrite length_seq.
  - apply list_elem_of_lookup. exists j.
    apply lookup_zip_with_Some. exists k, (b + j). split_and!; [done..|].
    apply lookup_seq_lt. by eapply lookup_lt_Some.
Qed.

(** [tn.copy] adds objects to the store and touches none that was there;
    the dictionaries it returns point into what it added. *)
Lemma tn_copy_kept ns w :
  match tn_copy ns w with
  | Ret w' d =>
      kept w w' ∧
      (∀ n v, d.1 !! n = Some v → length (w_nodes w) ≤ v) ∧
      (∀ e v, d.2 !! e = Some v → length (w_edges w) ≤ v)
  | Raise w' _ => w' = w
  end.
Proof.
  unfold tn_copy.
  destruct (mapM (λ n, w_nodes w !! n) ns) as [nds|]; [|done].
  destruct (mapM (λ e, w_edges w !! e) (get_all_edges w ns)) as [eds|];
    [|done].
  destruct (mapM _ eds) as [eds'|] eqn:Ee; [|done].
  destruct (mapM _ nds) as [nds'|] eqn:En; [|done].
  simpl.
  assert (Hnv : ∀ n v,
    (list_to_map (zip ns (seq (length (w_nodes w)) (length ns)))
       : gmap nat nat) !! n = Some v → length (w_nodes w) ≤ v).
  { intros n v (j & _ & ->)%dict_zip_lookup. lia. }
  assert (Hev : ∀ e v,
    (list_to_map (zip (get_all_edges w ns)
                      (seq (length (w_edges w))
                           (length (get_all_edges w ns))))
       : gmap nat nat) !! e = Some v → length (w_edges w) ≤ v).
  { intros e v (j & _ & ->)%dict_zip_lookup. lia. }
  split_and!; [|done..]. split; [split; simpl; eauto|]. split.
  - intros e ed He Hed. simpl in Hed.
    apply lookup_app_Some in Hed as [Hed|[_ Hed]].
    { apply lookup_lt_Some in Hed. lia. }
    apply mapM_Some_1 in Ee.
    destruct (Forall2_lookup_r _ _ _ _ _ Ee Hed) as (x & _ & Hx).
    unfold copy_edge in Hx.
    destruct (_ !! node1 x) as [n1|] eqn:E1; [|done]. simpl in Hx.
    apply Hnv in E1.
    destruct (node2 x) as [[m b]|]; simpl in Hx; [|by simplify_eq].
    destruct (_ !! m); simpl in Hx; by simplify_eq.
  - intros n a e Hn He. unfold slot in He. simpl in He.
    destruct ((w_nodes w ++ nds') !! n) as [nd'|] eqn:E; [|done].
    simpl in He.
    apply lookup_app_Some in E as [E|[_ E]].
    { apply lookup_lt_Some in E. lia. }
    apply mapM_Some_1 in En.
    destruct (Forall2_lookup_r _ _ _ _ _ En E) as (x & _ & Hx).
    unfold copy_node in Hx.
    destruct (mapM _ (edges x)) as [es|] eqn:Em; [|done].
    simpl in Hx. simplify_eq. simpl in He.
    apply mapM_Some_1 in Em.
    destruct (Forall2_lookup_r _ _ _ _ _ Em He) as (e0 & _ & He0).
    by eapply Hev.
Qed.

(** The same, for the operations on a Circuit: the Circuit object itself is
    also as it was. *)
Definition keptS (s0 s : St) : Prop :=
  self s = self s0 ∧ kept (world s0) (world s).

Lemma greedy_final ns o w : final (greedy ns o w) = w.
Proof. unfold greedy. repeat case_match; done. Qed.

Lemma copy_keeps s0 :
  triple (λ s, s = s0) copy_
         (λ c s, keptS s0 s ∧
                 Forall (λ n, length (w_nodes (world s0)) ≤ n) c.1 ∧
                 Forall (λ e, length (w_edges (world s0)) ≤ e) c.2)
         (keptS s0).
Proof.
  intros s ->. unfold copy_, bind, get_state, liftW.
  pose proof (tn_copy_kept (nodes (self s0)) (world s0)) as H.
  destruct (tn_copy (nodes (self s0)) (world s0)) as [w' d|w' e].
  2:{ subst w'. split; [done|]. simpl. apply kept_refl. }
  destruct H as (Hk & Hn & He).
  destruct (mapM (λ n, d.1 !! n) (nodes (self s0))) as [nn|] eqn:E1;
    simpl; [|by split].
  destruct (mapM (λ e, d.2 !! e) (front (self s0))) as [nf|] eqn:E2;
    simpl; [|by split].
  split_and!; [by split| |].
  - apply Forall_lookup. intros j v Hj. apply mapM_Some_1 in E1.
    destruct (Forall2_lookup_r _ _ _ _ _ E1 Hj) as (x & _ & Hx). eauto.
  - apply Forall_lookup. intros j v Hj. apply mapM_Some_1 in E2.
    destruct (Forall2_lookup_r _ _ _ _ _ E2 Hj) as (x & _ & Hx). eauto.
Qed.

(** [wavefunction] leaves the Circuit object and every object of the store
    it found as they were, whether it returns or raises. *)
Lemma wavefunction_keeps s : keptS s (final (wavefunction s)).
Proof.
  unfold wavefunction, bind.
  pose proof (copy_keeps s s eq_refl) as H.
  destruct (copy_ s) as [s1 c|s1 e]; [|done].
  destruct H as [[Hc Hk] _]. unfold liftW.
  pose proof (greedy_final c.1 (Some c.2) (world s1)) as Hg.
  destruct (greedy c.1 (Some c.2) (world s1)); simpl in *; subst; by split.
Qed.

Lemma kept_measure_nodes w0 l : ∀ i,
  triple (kept w0) (measure_nodes i l)
         (λ ms w, kept w0 w ∧ Forall (λ m, length (w_nodes w0) ≤ m) ms)
         (kept w0).
Proof.
  assert (Hnode : ∀ t nm, triple (kept w0) (tn_Node t nm)
            (λ n w, kept w0 w ∧ length (w_nodes w0) ≤ n) (kept w0)).
  { intros t nm w Hk.
    destruct (tn_Node t nm w) as [w' n|] eqn:E; [|done].
    by eapply kept_tn_Node. }
  induction l as [|c l IH]; intros i; simpl.
  { apply triple_ret. intros; by split. }
  assert (Hcons : ∀ t nm, triple (kept w0)
            (m <- tn_Node t nm ;; ms <- measure_nodes (S i) l ;; ret (m :: ms))
            (λ ms w, kept w0 w ∧ Forall (λ m, length (w_nodes w0) ≤ m) ms)
            (kept w0)).
  { intros t nm w Hk. unfold bind.
    specialize (Hnode t nm w Hk).
    destruct (tn_Node t nm w) as [w1 n|]; [|done].
    destruct Hnode as [Hk1 Hn]. specialize (IH (S i) w1 Hk1).
    destruct (measure_nodes (S i) l w1) as [w2 ms|]; [|done].
    destruct IH as [Hk2 Hms]. simpl. split; [done|]. by constructor. }
  repeat case_bool_decide; [apply Hcons..|apply IH].
Qed.

Lemma kept_measure_connect w0 d_edges ms len :
  Forall (λ e, length (w_edges w0) ≤ e) d_edges →
  Forall (λ m, length (w_nodes w0) ≤ m) ms →
  triple (kept w0) (measure_connect d_edges ms len) (λ _, kept w0) (kept w0).
Proof.
  intros Hd Hm. unfold measure_connect. apply triple_for_each.
  intros i _ w Hk. unfold bind.
  destruct (d_edges !! i) as [d|] eqn:Ed; simpl; [|done].
  destruct (ms !! i) as [m|] eqn:Em; simpl; [|done].
  pose proof (kept_get_edge w0 m 0 (Forall_lookup_1 _ _ _ _ Hm Em) w Hk) as Hg.
  destruct (get_edge m 0 w) as [w1 e|]; [|done].
  destruct Hg as [Hk1 He].
  pose proof (kept_connect w0 w1 d e Hk1 (Forall_lookup_1 _ _ _ _ Hd Ed) He)
    as Hc.
  destruct (connect d e w1); done.
Qed.

(** [amplitude] leaves the Circuit object and every object of the store it
    found as they were, whether it returns or raises. *)
Lemma amplitude_keeps l s : keptS s (final (amplitude l s)).
Proof.
  unfold amplitude, bind, get_state.
  case_match; [split; [done|apply kept_refl]|].
  pose proof (copy_keeps s s eq_refl) as Hcp.
  destruct (copy_ s) as [s1 c|s1 e]; [|done].
  destruct Hcp as ([Hc Hk] & Hn & He). unfold liftW.
  pose proof (kept_measure_nodes (world s) (String.list_ascii_of_string l) 0
                (world s1) Hk) as Hm.
  destruct (measure_nodes 0 _ (world s1)) as [w2 ms|]; [|by split].
  destruct Hm as [Hk2 Hms]. simpl.
  pose proof (kept_measure_connect (world s) c.2 ms (String.length l)
                He Hms w2 Hk2) as Hmc.
  destruct (measure_connect c.2 ms (String.length l) w2) as [w3 ?|];
    simpl; [|by split].
  pose proof (greedy_final (c.1 ++ ms) None w3) as Hg.
  destruct (greedy (c.1 ++ ms) None w3); simpl in *; subst; by split.
Qed.

(** ** Sums over indices *)

Lemma filter_ext_in {A} (P Q : A → Prop) `{!∀ x, Decision (P x)}
    `{!∀ x, Decision (Q x)} (l : list A) :
  (∀ x, x ∈ l → (P x ↔ Q x)) → filter P l = filter Q l.
Proof.
  induction l as [|x l IH]; intros Hl; [done|].
  rewrite !filter_cons. rewrite IH by (intros; apply Hl; by right).
  destruct (decide (P x)) as [Hp|Hp], (decide (Q x)) as [Hq|Hq]; try done.
  - destruct Hq. apply Hl; [left|done].
  - destruct Hp. apply Hl; [left|done].
Qed.

Lemma filter_all {A} (P : A → Prop) `{!∀ x, Decision (P x)} (l : list A) :
  (∀ x, x ∈ l → P x) → filter P l = l.
Proof.
  induction l as [|x l IH]; intros Hl; [done|].
  rewrite filter_cons_True by (apply Hl; left).
  rewrite IH; [done|]. intros; apply Hl; by right.
Qed.

Lemma filter_none {A} (P : A → Prop) `{!∀ x, Decision (P x)} (l : list A) :
  (∀ x, x ∈ l → ¬ P x) → filter P l = [].
Proof.
  induction l as [|x l IH]; intros Hl; [done|].
  rewrite filter_cons_False by (apply Hl; left).
  apply IH. intros; apply Hl; by right.
Qed.

Lemma filter_fmap {A B} (f : A → B) (P : B → Prop) `{!∀ x, Decision (P x)}
    (l : list A) :
  filter P (f <$> l) = f <$> filter (λ x, P (f x)) l.
Proof.
  induction l as [|x l IH]; [done|].
  rewrite fmap_cons, !filter_cons, IH. by destruct (decide (P (f x))).
Qed.

Lemma ksum_ext d (f h : nat → K) : (∀ x, f x = h x) → ksum d f = ksum d h.
Proof.
  intros H. unfold ksum. generalize 0.
  induction d as [|d IH]; intros b; [done|]. simpl. by rewrite H, IH.
Qed.

Lemma sum_over_ext w es : ∀ σ (F H : assignment → K),
  (∀ τ, F τ = H τ) → sum_over w es σ F = sum_over w es σ H.
Proof.
  induction es as [|e es IH]; intros σ F H Hx; simpl; [done|].
  apply ksum_ext. intros x. by apply IH.
Qed.

Lemma sum_over_app w es1 es2 : ∀ σ (F : assignment → K),
  sum_over w (es1 ++ es2) σ F
  = sum_over w es1 σ (λ τ, sum_over w es2 τ F).
Proof.
  induction es1 as [|e es IH]; intros σ F; simpl; [done|].
  apply ksum_ext. intros x. apply IH.
Qed.

(** Two sums over corresponding indices of corresponding terms agree. *)
Lemma sum_over_rel (Rel : assignment → assignment → Prop) (ρ : nat → nat)
    w w' es (F F' : assignment → K) :
  (∀ e, e ∈ es → dim_of w' (ρ e) = dim_of w e) →
  (∀ τ' τ, Rel τ' τ → F' τ' = F τ) →
  (∀ τ' τ e x, Rel τ' τ → e ∈ es → Rel (upd τ' (ρ e) x) (upd τ e x)) →
  ∀ σ' σ, Rel σ' σ →
  sum_over w' (ρ <$> es) σ' F' = sum_over w es σ F.
Proof.
  intros Hd HF Hupd. induction es as [|e es IH]; intros σ' σ Hr; simpl.
  { by apply HF. }
  rewrite Hd by left. apply ksum_ext. intros x.
  apply IH.
  - intros e' He'. apply Hd. by right.
  - intros τ' τ e' x' Hr' He'. apply Hupd; [done|by right].
  - apply Hupd; [done|left].
Qed.

(** The assignment in which the indices [es] have the values [β] gives. *)
Definition upd_by (σ : assignment) (es : list nat) (β : nat → nat)
    : assignment :=
  foldl (λ τ e, upd τ e (β e)) σ es.

Lemma upd_by_notin es : ∀ σ β e, e ∉ es → upd_by σ es β e = σ e.
Proof.
  induction es as [|e' es IH]; intros σ β e He; [done|].
  apply not_elem_of_cons in He as [Hne He]. simpl.
  rewrite IH by done. unfold upd.
  by rewrite (proj2 (Nat.eqb_neq _ _) Hne).
Qed.

Lemma upd_by_in es : ∀ σ β e, e ∈ es → upd_by σ es β e = β e.
Proof.
  induction es as [|e' es IH]; intros σ β e He; [by apply elem_of_nil in He|].
  simpl. destruct (decide (e ∈ es)) as [Hin|Hin]; [by apply IH|].
  apply elem_of_cons in He as [->|He]; [|done].
  rewrite upd_by_notin by done. unfold upd. by rewrite Nat.eqb_refl.
Qed.

Lemma upd_list_notin es : ∀ σ vs e, e ∉ es → upd_list σ es vs e = σ e.
Proof.
  induction es as [|e' es IH]; intros σ vs e He; [done|].
  apply not_elem_of_cons in He as [Hne He]. destruct vs as [|v vs]; [done|].
  simpl. rewrite IH by done. unfold upd.
  by rewrite (proj2 (Nat.eqb_neq _ _) Hne).
Qed.

Lemma upd_list_lookup es : ∀ σ vs i e v,
  NoDup es → es !! i = Some e → vs !! i = Some v →
  upd_list σ es vs e = v.
Proof.
  induction es as [|e' es IH]; intros σ vs i e v Hnd He Hv; [done|].
  apply NoDup_cons in Hnd as [Hn Hnd].
  destruct vs as [|v' vs]; [done|]. destruct i as [|i]; simpl in *.
  - simplify_eq. rewrite upd_list_notin by done.
    unfold upd. by rewrite Nat.eqb_refl.
  - by eapply IH.
Qed.

Section semiring.
Hypothesis K_sr : semi_ring_theory kO kI kadd kmul eq.

Lemma kadd_0_l x : kadd kO x = x.
Proof. apply (SRadd_0_l K_sr). Qed.

Lemma kadd_0_r x : kadd x kO = x.
Proof. rewrite (SRadd_comm K_sr). apply kadd_0_l. Qed.

Lemma kmul_1_l x : kmul kI x = x.
Proof. apply (SRmul_1_l K_sr). Qed.

Lemma kmul_1_r x : kmul x kI = x.
Proof. rewrite (SRmul_comm K_sr). apply kmul_1_l. Qed.

Lemma kmul_0_l x : kmul kO x = kO.
Proof. apply (SRmul_0_l K_sr). Qed.

Lemma kmul_0_r x : kmul x kO = kO.
Proof. rewrite (SRmul_comm K_sr). apply kmul_0_l. Qed.

Lemma kprod_app l1 l2 : kprod (l1 ++ l2) = kmul (kprod l1) (kprod l2).
Proof.
  induction l1 as [|x l1 IH]; simpl; [by rewrite kmul_1_l|].
  by rewrite IH, (SRmul_assoc K_sr).
Qed.

Lemma kprod_zero l : kO ∈ l → kprod l = kO.
Proof.
  induction l as [|x l IH]; intros H; [by apply elem_of_nil in H|].
  simpl. apply elem_of_cons in H as [<-|H]; [apply kmul_0_l|].
  by rewrite IH, kmul_0_r.
Qed.

Lemma kprod_ones l : (∀ x, x ∈ l → x = kI) → kprod l = kI.
Proof.
  induction l as [|x l IH]; intros H; [done|]. simpl.
  rewrite (H x) by left. rewrite kmul_1_l. apply IH.
  intros; apply H; by right.
Qed.

Lemma ksum_zero_from b d (f : nat → K) :
  (∀ x, b ≤ x → f x = kO) →
  fold_right (λ x acc, kadd (f x) acc) kO (seq b d) = kO.
Proof.
  revert b. induction d as [|d IH]; intros b H; [done|]. simpl.
  rewrite H by lia. rewrite kadd_0_l. apply IH. intros; apply H; lia.
Qed.

(** A sum with one term that is not zero. *)
Lemma ksum_single d (f : nat → K) v :
  v < d → (∀ x, x ≠ v → f x = kO) → ksum d f = f v.
Proof.
  unfold ksum. intros Hv H.
  assert (∀ n b, b ≤ v < b + n →
    fold_right (λ x acc, kadd (f x) acc) kO (seq b n) = f v) as Hgen.
  { induction n as [|n IH]; intros b Hb; [lia|]. simpl.
    destruct (decide (b = v)) as [->|Hne].
    - rewrite ksum_zero_from; [apply kadd_0_r|]. intros; apply H; lia.
    - rewrite H by done. rewrite kadd_0_l. apply IH. lia. }
  apply Hgen. lia.
Qed.

(** A sum all of whose indices have dimension 1 has one term. *)
Lemma sum_over_dim1 w es : ∀ σ (F : assignment → K),
  (∀ e, e ∈ es → dim_of w e = 1) →
  sum_over w es σ F = F (upd_by σ es (λ _, 0)).
Proof.
  induction es as [|e es IH]; intros σ F Hd; [done|]. simpl.
  rewrite Hd by left. unfold ksum. simpl. rewrite kadd_0_r.
  apply IH. intros; apply Hd; by right.
Qed.

(** A sum whose terms vanish unless the indices [es] have the values [β]
    is the term in which they have. *)
Lemma sum_over_collapse w (β : nat → nat) es : ∀ σ (F : assignment → K),
  NoDup es →
  (∀ e, e ∈ es → β e < dim_of w e) →
  (∀ τ e, e ∈ es → τ e ≠ β e → F τ = kO) →
  sum_over w es σ F = F (upd_by σ es β).
Proof.
  induction es as [|e es IH]; intros σ F Hnd Hd Hz; [done|].
  apply NoDup_cons in Hnd as [He Hnd]. simpl.
  assert (∀ x, sum_over w es (upd σ e x) F = F (upd_by (upd σ e x) es β))
    as Hin.
  { intros x. apply IH; [done| |].
    - intros; apply Hd; by right.
    - intros τ e' He' Hne. eapply Hz; [by right|done]. }
  rewrite (ksum_ext _ _ _ Hin).
  rewrite (ksum_single _ _ (β e)); [done|apply Hd; left|].
  intros x Hx. apply (Hz _ e); [left|].
  rewrite upd_by_notin by done. unfold upd. by rewrite Nat.eqb_refl.
Qed.

End semiring.

(** ** The edges of a well-formed network *)

Lemma node_edges_lookup w n a : node_edges w n !! a = slot w n a.
Proof. unfold node_edges, slot. by destruct (w_nodes w !! n). Qed.

Lemma attached_iff w ns e :
  attached w ns e ↔ ∃ n a, n ∈ ns ∧ slot w n a = Some e.
Proof.
  unfold attached. rewrite Is_true_true, existsb_exists. split.
  - intros (n & Hn & Hb). apply list_elem_of_In in Hn.
    apply bool_decide_eq_true in Hb.
    apply list_elem_of_lookup in Hb as [a Ha].
    rewrite node_edges_lookup in Ha. eauto.
  - intros (n & a & Hn & Ha). exists n. split; [by apply list_elem_of_In|].
    apply bool_decide_eq_true. apply list_elem_of_lookup. exists a.
    by rewrite node_edges_lookup.
Qed.

Lemma elem_of_get_all_edges w ns e :
  e ∈ get_all_edges w ns ↔
  e < length (w_edges w) ∧ ∃ n a, n ∈ ns ∧ slot w n a = Some e.
Proof.
  unfold get_all_edges. rewrite list_elem_of_filter, elem_of_seq, attached_iff.
  intuition lia.
Qed.

Lemma NoDup_get_all_edges w ns : NoDup (get_all_edges w ns).
Proof. apply NoDup_filter, NoDup_seq. Qed.

Lemma net_ok_all_edges w ns op e :
  net_ok w ns op →
  e ∈ get_all_edges w ns ↔ ∃ n a, n ∈ ns ∧ slot w n a = Some e.
Proof.
  intros Hok. rewrite elem_of_get_all_edges. split; [naive_solver|].
  intros (n & a & Hn & Hs). split; [|eauto].
  destruct (ok_slot _ _ _ Hok n a e Hn Hs) as (_ & ed & Hed & _).
  by eapply lookup_lt_Some.
Qed.

Lemma net_ok_open_in_all w ns op e :
  net_ok w ns op → e ∈ op → e ∈ get_all_edges w ns.
Proof.
  intros Hok He. destruct (ok_open _ _ _ Hok e He) as (n & a & Hn & _ & Hs).
  eapply net_ok_all_edges; eauto.
Qed.

(** In a well-formed network the open edges are the listed ones. *)
Lemma net_ok_is_open w ns op e :
  net_ok w ns op → e ∈ get_all_edges w ns → (is_open w ns e ↔ e ∈ op).
Proof.
  intros Hok He.
  apply (net_ok_all_edges _ _ _ _ Hok) in He as (n & a & Hn & Hs).
  destruct (ok_slot _ _ _ Hok n a e Hn Hs) as (_ & ed & Hed & Hn1 & Hcase).
  unfold is_open. rewrite Hed. split.
  - destruct (node2 ed) as [[m b]|]; [|naive_solver].
    rewrite !bool_decide_eq_true_2 by done. done.
  - intros Hop. destruct (ok_open _ _ _ Hok e Hop) as (n' & a' & _ & Hed' & _).
    rewrite Hed in Hed'. by simplify_eq.
Qed.

Lemma net_ok_dangling w ns op e :
  net_ok w ns op →
  e ∈ get_subgraph_dangling w ns ↔ e ∈ op.
Proof.
  intros Hok. unfold get_subgraph_dangling. rewrite list_elem_of_filter.
  split.
  - intros [Ho He]. by apply (net_ok_is_open _ _ _ _ Hok He).
  - intros He. pose proof (net_ok_open_in_all _ _ _ _ Hok He) as Hall.
    split; [|done]. by apply (net_ok_is_open _ _ _ _ Hok Hall).
Qed.

Lemma net_ok_inner w ns op :
  net_ok w ns op →
  inner_edges w ns = filter (λ e, e ∉ op) (get_all_edges w ns).
Proof.
  intros Hok. unfold inner_edges. apply filter_ext_in. intros e He.
  rewrite <- (net_ok_is_open _ _ _ _ Hok He).
  destruct (is_open w ns e); simpl; naive_solver.
Qed.

(** The tensor [greedy] returns for a well-formed network whose open edges
    are given as the output order. *)
Definition contracted (w : World) (ns out : list nat) : Tensor :=
  mkTensor (dim_of w <$> out)
           (contract_at w ns out <$> all_indices (dim_of w <$> out)).

Lemma greedy_net_ok w ns op :
  net_ok w ns op → ns ≠ [] →
  greedy ns (Some op) w = Ret w (contracted w ns op).
Proof.
  intros Hok Hne. unfold greedy. destruct ns as [|n ns']; [done|].
  set (ns := n :: ns') in *.
  rewrite (proj2 (andb_true_iff _ _)); [done|]. split.
  - apply forallb_forall. intros e He%list_elem_of_In.
    apply bool_decide_eq_true. by apply (net_ok_dangling _ _ _ _ Hok).
  - apply forallb_forall. intros e He%list_elem_of_In.
    apply bool_decide_eq_true. by apply (net_ok_dangling _ _ _ _ Hok).
Qed.

Lemma greedy_closed w ns :
  net_ok w ns [] → ns ≠ [] →
  greedy ns None w = Ret w (mkTensor [] [contract_at w ns [] []]).
Proof.
  intros Hok Hne. unfold greedy. destruct ns as [|n ns']; [done|].
  set (ns := n :: ns') in *.
  assert (get_subgraph_dangling w ns = []) as ->.
  { apply elem_of_nil_inv. intros e He.
    apply (net_ok_dangling _ _ _ _ Hok) in He. by apply elem_of_nil in He. }
  done.
Qed.

(** ** Networks that are the same up to the names of their objects *)

(** The network on the nodes [ρn <$> ns] of [w'] is the network on [ns] of
    [w], with node [n] called [ρn n] and edge [e] called [ρe e]. *)
Record sim (w w' : World) (ns : list nat) (ρn ρe : nat → nat) : Prop := {
  sim_slot : ∀ n a, n ∈ ns → slot w' (ρn n) a = ρe <$> slot w n a;
  sim_tensor : ∀ n, n ∈ ns → tensor_of w' (ρn n) = tensor_of w n;
  sim_all : get_all_edges w' (ρn <$> ns) = ρe <$> get_all_edges w ns;
  sim_open : ∀ e, e ∈ get_all_edges w ns →
    is_open w' (ρn <$> ns) (ρe e) = is_open w ns e;
  sim_dim : ∀ e, e ∈ get_all_edges w ns → dim_of w' (ρe e) = dim_of w e;
  sim_inj_e : ∀ x y, x ∈ get_all_edges w ns → y ∈ get_all_edges w ns →
    ρe x = ρe y → x = y;
  sim_inj_n : ∀ x y, x ∈ ns → y ∈ ns → ρn x = ρn y → x = y
}.

Lemma sim_node_val w w' ns op ρn ρe (τ τ' : assignment) n :
  net_ok w ns op → sim w w' ns ρn ρe → n ∈ ns →
  (∀ e, e ∈ get_all_edges w ns → τ' (ρe e) = τ e) →
  node_val w' τ' (ρn n) = node_val w τ n.
Proof.
  intros Hok Hsim Hn Hrel. unfold node_val.
  pose proof (sim_tensor _ _ _ _ _ Hsim n Hn) as Ht. unfold tensor_of in Ht.
  destruct (w_nodes w !! n) as [nd|] eqn:E,
           (w_nodes w' !! ρn n) as [nd'|] eqn:E'; simplify_eq/=; [|done].
  rewrite Ht.
  assert (edges nd' = ρe <$> edges nd) as ->.
  { apply list_eq. intros a. rewrite list_lookup_fmap.
    pose proof (sim_slot _ _ _ _ _ Hsim n a Hn) as Hs. unfold slot in Hs.
    by rewrite E, E' in Hs. }
  f_equal. rewrite <- list_fmap_compose. apply list_fmap_ext.
  intros a e He. simpl. apply Hrel.
  eapply net_ok_all_edges; [done|]. exists n, a. split; [done|].
  unfold slot. by rewrite E.
Qed.

Lemma upd_list_sim (R : nat → Prop) (ρ : nat → nat) out :
  (∀ x y, R x → R y → ρ x = ρ y → x = y) →
  Forall R out →
  ∀ vs (σ' σ : assignment),
    (∀ e, R e → σ' (ρ e) = σ e) →
    ∀ e, R e → upd_list σ' (ρ <$> out) vs (ρ e) = upd_list σ out vs e.
Proof.
  intros Hinj. induction 1 as [|o out Ho Hout IH]; intros vs σ' σ Hrel e He.
  { by apply Hrel. }
  destruct vs as [|v vs]; simpl; [by apply Hrel|].
  apply IH; [|done]. intros e' He'. unfold upd.
  destruct (Nat.eqb_spec e' o) as [->|Hne].
  - by rewrite Nat.eqb_refl.
  - rewrite (proj2 (Nat.eqb_neq _ _)); [by apply Hrel|].
    intros E. apply Hne. by apply Hinj.
Qed.

(** Contraction does not see the names. *)
Lemma contract_sim w w' ns op ρn ρe out v :
  net_ok w ns op → sim w w' ns ρn ρe →
  Forall (λ e, e ∈ get_all_edges w ns) out →
  contract_at w' (ρn <$> ns) (ρe <$> out) v = contract_at w ns out v.
Proof.
  intros Hok Hsim Hout. unfold contract_at.
  assert (inner_edges w' (ρn <$> ns) = ρe <$> inner_edges w ns) as ->.
  { unfold inner_edges. rewrite (sim_all _ _ _ _ _ Hsim), filter_fmap.
    f_equal. apply filter_ext_in. intros e He.
    by rewrite (sim_open _ _ _ _ _ Hsim e He). }
  rewrite (remove_dups_NoDup ns) by apply (ok_nodup _ _ _ Hok).
  rewrite (remove_dups_NoDup (ρn <$> ns)).
  2:{ apply NoDup_fmap_2_strong; [|apply (ok_nodup _ _ _ Hok)].
      intros x y Hx Hy. by apply (sim_inj_n _ _ _ _ _ Hsim). }
  apply (sum_over_rel
           (λ τ' τ, ∀ e, e ∈ get_all_edges w ns → τ' (ρe e) = τ e)).
  - intros e He. apply (sim_dim _ _ _ _ _ Hsim).
    unfold inner_edges in He. by apply list_elem_of_filter in He as [_ He].
  - intros τ' τ Hrel. unfold net_val. f_equal.
    rewrite <- list_fmap_compose. apply list_fmap_ext.
    intros j n Hj. simpl. eapply sim_node_val; try done.
    by eapply list_elem_of_lookup_2.
  - intros τ' τ e x Hrel He e' He'. unfold upd.
    unfold inner_edges in He. apply list_elem_of_filter in He as [_ He].
    destruct (Nat.eqb_spec e' e) as [->|Hne].
    + by rewrite Nat.eqb_refl.
    + rewrite (proj2 (Nat.eqb_neq _ _)); [by apply Hrel|].
      intros E. apply Hne. by apply (sim_inj_e _ _ _ _ _ Hsim).
  - intros e He.
    apply (upd_list_sim (λ e, e ∈ get_all_edges w ns)); try done.
    apply (sim_inj_e _ _ _ _ _ Hsim).
Qed.

Lemma contracted_sim w w' ns op ρn ρe out :
  net_ok w ns op → sim w w' ns ρn ρe →
  Forall (λ e, e ∈ get_all_edges w ns) out →
  contracted w' (ρn <$> ns) (ρe <$> out) = contracted w ns out.
Proof.
  intros Hok Hsim Hout. unfold contracted.
  assert (dim_of w' <$> (ρe <$> out) = dim_of w <$> out) as ->.
  { rewrite <- list_fmap_compose. apply list_fmap_ext. intros j e Hj. simpl.
    apply (sim_dim _ _ _ _ _ Hsim).
    exact (Forall_lookup_1 _ _ _ _ Hout Hj). }
  f_equal. apply list_fmap_ext. intros j v _.
  by eapply contract_sim.
Qed.

(** A network is the same in a store that has more objects. *)
Lemma get_all_edges_extends w w' ns op :
  net_ok w ns op → extends w w' →
  get_all_edges w' ns = get_all_edges w ns.
Proof.
  intros Hok Hx. unfold get_all_edges.
  assert (Hs : ∀ n a, n ∈ ns → slot w' n a = slot w n a).
  { intros n a Hn. apply extends_slot_eq; [done|].
    by apply (ok_node _ _ _ Hok). }
  assert (Hatt : ∀ e, attached w' ns e ↔ attached w ns e).
  { intros e. rewrite !attached_iff. split; intros (n & a & Hn & Ha);
      exists n, a; split; try done; by rewrite ?Hs in *. }
  destruct Hx as [_ [l Hl]]. rewrite Hl, length_app, seq_app, filter_app.
  rewrite (filter_none _ (seq _ (length l))).
  - rewrite app_nil_r. apply filter_ext_in. intros; apply Hatt.
  - intros e He%elem_of_seq Ha. apply Hatt, attached_iff in Ha.
    destruct Ha as (n & a & Hn & Ha).
    destruct (ok_slot _ _ _ Hok n a e Hn Ha) as (_ & ed & Hed & _).
    apply lookup_lt_Some in Hed. lia.
Qed.

Lemma sim_extends w w' ns op :
  net_ok w ns op → extends w w' → sim w w' ns id id.
Proof.
  intros Hok Hx.
  assert (Hrec : ∀ e, e ∈ get_all_edges w ns →
            ∃ ed, w_edges w !! e = Some ed ∧ w_edges w' !! e = Some ed ∧
                  node1 ed ∈ ns).
  { intros e He. apply (net_ok_all_edges _ _ _ _ Hok) in He.
    destruct He as (n & a & Hn & Ha).
    destruct (ok_slot _ _ _ Hok n a e Hn Ha) as (_ & ed & Hed & Hn1 & _).
    exists ed. split_and!; [done| |done]. by eapply extends_edge. }
  split.
  - intros n a Hn. rewrite option_fmap_id.
    apply extends_slot_eq; [done|]. by apply (ok_node _ _ _ Hok).
  - intros n Hn. apply extends_tensor_eq; [done|].
    by apply (ok_node _ _ _ Hok).
  - rewrite !list_fmap_id. by eapply get_all_edges_extends.
  - intros e He. rewrite list_fmap_id.
    destruct (Hrec e He) as (ed & H1 & H2 & _).
    unfold is_open, id. by rewrite H1, H2.
  - intros e He. destruct (Hrec e He) as (ed & H1 & H2 & Hn1).
    unfold dim_of, id. rewrite H1, H2. simpl. unfold edge_dim.
    fold (dim_at w' (node1 ed) (axis1 ed)).
    fold (dim_at w (node1 ed) (axis1 ed)).
    rewrite (extends_dim_eq _ _ _ _ Hx); [done|].
    by apply (ok_node _ _ _ Hok).
  - done.
  - done.
Qed.

Lemma contracted_extends w w' ns op :
  net_ok w ns op → extends w w' →
  contracted w' ns op = contracted w ns op.
Proof.
  intros Hok Hx.
  pose proof (contracted_sim w w' ns op id id op Hok
                (sim_extends _ _ _ _ Hok Hx)) as H.
  rewrite !list_fmap_id in H. apply H.
  apply Forall_forall. intros e He. by eapply net_ok_open_in_all.
Qed.

(** *** The copy of a well-formed network *)

Definition ren (d : gmap nat nat) (x : nat) : nat := default 0 (d !! x).

Lemma mapM_total {A B} (f : A → option B) l :
  (∀ x, x ∈ l → is_Some (f x)) → ∃ k, mapM f l = Some k.
Proof.
  intros H. destruct (mapM f l) as [k|] eqn:E; [eauto|].
  apply mapM_None_1, Exists_exists in E as (x & Hx & Hn).
  destruct (H x Hx) as [y Hy]. congruence.
Qed.

Lemma mapM_ren (d : gmap nat nat) l k :
  mapM (λ e, d !! e) l = Some k → k = ren d <$> l.
Proof.
  intros H%mapM_Some_1. induction H as [|x y l k Hxy H IH]; [done|].
  rewrite fmap_cons. f_equal; [|done]. unfold ren. by rewrite Hxy.
Qed.

Definition copy_record (nd : gmap nat nat) (ed : Edge) : Edge :=
  mkEdge (ren nd (node1 ed)) (axis1 ed)
         (match node2 ed with
          | None => None
          | Some (m, b) => Some (ren nd m, b)
          end).

(** What [tn.copy] returns for a well-formed network, and the store it
    leaves. *)
Record copy_facts (w : World) (ns : list nat) (wc : World)
    (d : gmap nat nat * gmap nat nat) : Prop := {
  cf_ext : extends w wc;
  cf_len_n : length (w_nodes wc) = length (w_nodes w) + length ns;
  cf_len_e : length (w_edges wc)
             = length (w_edges w) + length (get_all_edges w ns);
  cf_nd : ∀ j n, ns !! j = Some n → d.1 !! n = Some (length (w_nodes w) + j);
  cf_ed : ∀ j e, get_all_edges w ns !! j = Some e →
                 d.2 !! e = Some (length (w_edges w) + j);
  cf_node : ∀ j n nd0, ns !! j = Some n → w_nodes w !! n = Some nd0 →
    w_nodes wc !! (length (w_nodes w) + j)
      = Some (set_node_edges nd0 (ren d.2 <$> edges nd0));
  cf_edge : ∀ j e ed0, get_all_edges w ns !! j = Some e →
    w_edges w !! e = Some ed0 →
    w_edges wc !! (length (w_edges w) + j) = Some (copy_record d.1 ed0)
}.

Lemma tn_copy_ok w ns op :
  net_ok w ns op →
  ∃ wc d, tn_copy ns w = Ret wc d ∧ copy_facts w ns wc d.
Proof.
  intros Hok. unfold tn_copy.
  set (all := get_all_edges w ns).
  set (nd := list_to_map (zip ns (seq (length (w_nodes w)) (length ns)))
             : gmap nat nat).
  set (ed := list_to_map (zip all (seq (length (w_edges w)) (length all)))
             : gmap nat nat).
  assert (Hnd : ∀ j n, ns !! j = Some n →
            nd !! n = Some (length (w_nodes w) + j)).
  { intros j n Hj. apply dict_zip_lookup_2; [|done].
    apply (ok_nodup _ _ _ Hok). }
  assert (Hed : ∀ j e, all !! j = Some e →
            ed !! e = Some (length (w_edges w) + j)).
  { intros j e Hj. apply dict_zip_lookup_2; [|done].
    apply NoDup_get_all_edges. }
  destruct (mapM_total (λ n, w_nodes w !! n) ns) as [nds E1].
  { intros n Hn. by apply (ok_node _ _ _ Hok). }
  destruct (mapM_total (λ e, w_edges w !! e) all) as [eds E2].
  { intros e He. apply elem_of_get_all_edges in He as [He _].
    by apply lookup_lt_is_Some. }
  rewrite E1, E2.
  apply mapM_Some_1 in E1. apply mapM_Some_1 in E2.
  assert (Heds : ∀ x, x ∈ eds → copy_edge nd x = Some (copy_record nd x)).
  { intros x Hx. apply list_elem_of_lookup in Hx as [j Hj].
    destruct (Forall2_lookup_r _ _ _ _ _ E2 Hj) as (e & He & Hrec).
    apply list_elem_of_lookup_2 in He.
    apply (net_ok_all_edges _ _ _ _ Hok) in He as (n & a & Hn & Ha).
    destruct (ok_slot _ _ _ Hok n a e Hn Ha) as (_ & x' & Hx' & Hn1 & Hc).
    rewrite Hrec in Hx'. simplify_eq.
    unfold copy_edge, copy_record, ren.
    apply list_elem_of_lookup in Hn1 as [j1 Hj1].
    rewrite (Hnd _ _ Hj1). simpl.
    destruct (node2 x') as [[m b]|]; [|done].
    apply list_elem_of_lookup in Hc as [j2 Hj2].
    by rewrite (Hnd _ _ Hj2). }
  assert (Hnds : ∀ x, x ∈ nds →
            copy_node ed x = Some (set_node_edges x (ren ed <$> edges x))).
  { intros x Hx. apply list_elem_of_lookup in Hx as [j Hj].
    destruct (Forall2_lookup_r _ _ _ _ _ E1 Hj) as (n & Hn & Hrec).
    apply list_elem_of_lookup_2 in Hn.
    unfold copy_node.
    destruct (mapM_total (λ e, ed !! e) (edges x)) as [es Hes].
    { intros e He. apply list_elem_of_lookup in He as [a Ha].
      assert (e ∈ all) as Hall.
      { eapply net_ok_all_edges; [done|]. exists n, a. split; [done|].
        unfold slot. by rewrite Hrec. }
      apply list_elem_of_lookup in Hall as [i Hi].
      rewrite (Hed _ _ Hi). eauto. }
    rewrite Hes. simpl. by rewrite (mapM_ren _ _ _ Hes). }
  assert (mapM (copy_edge nd) eds = Some (copy_record nd <$> eds)) as ->.
  { apply mapM_Some_2. apply Forall2_fmap_r, Forall_Forall2_diag.
    by apply Forall_forall. }
  assert (mapM (copy_node ed) nds
          = Some ((λ x, set_node_edges x (ren ed <$> edges x)) <$> nds)) as ->.
  { apply mapM_Some_2. apply Forall2_fmap_r, Forall_Forall2_diag.
    by apply Forall_forall. }
  eexists _, _. split; [done|]. split; simpl.
  - split; eauto.
  - rewrite length_app, length_fmap. by rewrite <- (Forall2_length _ _ _ E1).
  - rewrite length_app, length_fmap. by rewrite <- (Forall2_length _ _ _ E2).
  - done.
  - done.
  - intros j n nd0 Hj Hn0.
    destruct (Forall2_lookup_l _ _ _ _ _ E1 Hj) as (x & Hx & Hrec).
    rewrite Hn0 in Hrec. simplify_eq.
    rewrite lookup_app_r by lia.
    replace (length (w_nodes w) + j - length (w_nodes w)) with j by lia.
    by rewrite list_lookup_fmap, Hx.
  - intros j e ed0 Hj He0.
    destruct (Forall2_lookup_l _ _ _ _ _ E2 Hj) as (x & Hx & Hrec).
    rewrite He0 in Hrec. simplify_eq.
    rewrite lookup_app_r by lia.
    replace (length (w_edges w) + j - length (w_edges w)) with j by lia.
    by rewrite list_lookup_fmap, Hx.
Qed.

Lemma fmap_index_seq {A} (f : A → nat) (l : list A) b :
  (∀ j x, l !! j = Some x → f x = b + j) → f <$> l = seq b (length l).
Proof.
  intros H. apply list_eq. intros j. rewrite list_lookup_fmap.
  destruct (l !! j) as [x|] eqn:E; simpl.
  - rewrite (H _ _ E). symmetry. apply lookup_seq_lt. by eapply lookup_lt_Some.
  - symmetry. apply lookup_seq_ge. by apply lookup_ge_None.
Qed.

(** The copy is the network it was made from, under other names, and is
    well formed. *)
Lemma copy_sim w ns op wc d :
  net_ok w ns op → copy_facts w ns wc d →
  sim w wc ns (ren d.1) (ren d.2) ∧
  net_ok wc (ren d.1 <$> ns) (ren d.2 <$> op) ∧
  ren d.1 <$> ns = seq (length (w_nodes w)) (length ns) ∧
  ren d.2 <$> get_all_edges w ns
    = seq (length (w_edges w)) (length (get_all_edges w ns)).
Proof.
  intros Hok [Hx Hln Hle Hnd Hed Hnode Hedge].
  set (all := get_all_edges w ns) in *.
  set (Nn := length (w_nodes w)) in *. set (Ne := length (w_edges w)) in *.
  assert (Hrn : ∀ j n, ns !! j = Some n → ren d.1 n = Nn + j).
  { intros j n Hj. unfold ren. by rewrite (Hnd _ _ Hj). }
  assert (Hre : ∀ j e, all !! j = Some e → ren d.2 e = Ne + j).
  { intros j e Hj. unfold ren. by rewrite (Hed _ _ Hj). }
  assert (Hcn : ren d.1 <$> ns = seq Nn (length ns))
    by (by apply fmap_index_seq).
  assert (Hca : ren d.2 <$> all = seq Ne (length all))
    by (by apply fmap_index_seq).
  assert (Hnodec : ∀ n, n ∈ ns → ∃ nd0,
            w_nodes w !! n = Some nd0 ∧
            w_nodes wc !! ren d.1 n
              = Some (set_node_edges nd0 (ren d.2 <$> edges nd0))).
  { intros n Hn. destruct (ok_node _ _ _ Hok n Hn) as [nd0 Hn0].
    apply list_elem_of_lookup in Hn as [j Hj].
    exists nd0. split; [done|]. rewrite (Hrn _ _ Hj). by eapply Hnode. }
  assert (Hslotc : ∀ n a, n ∈ ns →
            slot wc (ren d.1 n) a = ren d.2 <$> slot w n a).
  { intros n a Hn. destruct (Hnodec n Hn) as (nd0 & H0 & H1).
    unfold slot. rewrite H0, H1. simpl. by rewrite list_lookup_fmap. }
  assert (Hdimc : ∀ n a, n ∈ ns → dim_at wc (ren d.1 n) a = dim_at w n a).
  { intros n a Hn. destruct (Hnodec n Hn) as (nd0 & H0 & H1).
    unfold dim_at. by rewrite H0, H1. }
  assert (Hrecc : ∀ e, e ∈ all → ∃ ed0,
            w_edges w !! e = Some ed0 ∧
            w_edges wc !! ren d.2 e = Some (copy_record d.1 ed0)).
  { intros e He. pose proof He as He'.
    apply elem_of_get_all_edges in He' as [Hlt _].
    destruct (lookup_lt_is_Some_2 _ _ Hlt) as [ed0 Hed0].
    apply list_elem_of_lookup in He as [j Hj].
    exists ed0. split; [done|]. rewrite (Hre _ _ Hj). by eapply Hedge. }
  assert (Hinj : ∀ x y, x ∈ all → y ∈ all → ren d.2 x = ren d.2 y → x = y).
  { intros x y [i Hi]%list_elem_of_lookup [j Hj]%list_elem_of_lookup E.
    rewrite (Hre _ _ Hi), (Hre _ _ Hj) in E.
    assert (i = j) as -> by lia. congruence. }
  assert (Hinjn : ∀ x y, x ∈ ns → y ∈ ns → ren d.1 x = ren d.1 y → x = y).
  { intros x y [i Hi]%list_elem_of_lookup [j Hj]%list_elem_of_lookup E.
    rewrite (Hrn _ _ Hi), (Hrn _ _ Hj) in E.
    assert (i = j) as -> by lia. congruence. }
  assert (Hatt : ∀ e', attached wc (ren d.1 <$> ns) e' ↔
                       e' ∈ seq Ne (length all)).
  { intros e'. rewrite attached_iff, <- Hca. split.
    - intros (n' & a & (n & -> & Hn)%list_elem_of_fmap & Ha).
      rewrite Hslotc in Ha by done.
      destruct (slot w n a) as [e0|] eqn:E0; simplify_eq/=.
      apply list_elem_of_fmap_2.
      eapply net_ok_all_edges; [done|]. eauto.
    - intros (e0 & -> & He0)%list_elem_of_fmap.
      apply (net_ok_all_edges _ _ _ _ Hok) in He0 as (n & a & Hn & Ha).
      exists (ren d.1 n), a. split; [by apply list_elem_of_fmap_2|].
      by rewrite Hslotc, Ha. }
  split_and!; [|  |done|done].
  - split; try done.
    + intros n Hn. destruct (Hnodec n Hn) as (nd0 & H0 & H1).
      unfold tensor_of. by rewrite H0, H1.
    + unfold get_all_edges at 1. rewrite Hle, seq_app, filter_app.
      rewrite Nat.add_0_l. fold all.
      rewrite filter_none, filter_all; [by rewrite Hca| |].
      * intros e He. by apply Hatt.
      * intros e He%elem_of_seq Ha. apply Hatt, elem_of_seq in Ha. lia.
    + intros e He. destruct (Hrecc e He) as (ed0 & H0 & H1).
      unfold is_open. rewrite H0, H1. unfold copy_record. simpl.
      destruct (node2 ed0) as [[m b]|] eqn:E2; [|done].
      apply (net_ok_all_edges _ _ _ _ Hok) in He as (n & a & Hn & Ha).
      destruct (ok_slot _ _ _ Hok n a e Hn Ha) as (_ & ed & Hed' & Hn1 & Hc).
      rewrite H0 in Hed'. simplify_eq. rewrite E2 in Hc.
      rewrite !bool_decide_eq_true_2; try done;
        by apply list_elem_of_fmap_2.
    + intros e He. destruct (Hrecc e He) as (ed0 & H0 & H1).
      unfold dim_of. rewrite H0, H1. simpl. unfold edge_dim. simpl.
      fold (dim_at wc (ren d.1 (node1 ed0)) (axis1 ed0)).
      fold (dim_at w (node1 ed0) (axis1 ed0)).
      rewrite Hdimc; [done|].
      apply (net_ok_all_edges _ _ _ _ Hok) in He as (n & a & Hn & Ha).
      destruct (ok_slot _ _ _ Hok n a e Hn Ha) as (_ & ed & Hed' & Hn1 & _).
      rewrite H0 in Hed'. by simplify_eq.
  - split.
    + rewrite Hcn. apply NoDup_seq.
    + intros n' Hn'. rewrite Hcn in Hn'. apply elem_of_seq in Hn'.
      apply lookup_lt_is_Some. rewrite Hln. fold Nn. lia.
    + intros n' a e' (n & -> & Hn)%list_elem_of_fmap Ha.
      rewrite Hslotc in Ha by done.
      destruct (slot w n a) as [e0|] eqn:E0; simplify_eq/=.
      destruct (ok_slot _ _ _ Hok n a e0 Hn E0) as (Hd & ed0 & H0 & Hn1 & Hc).
      split; [by rewrite Hdimc|].
      destruct (Hrecc e0) as (ed & H0' & H1).
      { eapply net_ok_all_edges; [done|]. eauto. }
      rewrite H0 in H0'. simplify_eq.
      exists (copy_record d.1 ed). split; [done|]. unfold copy_record. simpl.
      split; [by apply list_elem_of_fmap_2|].
      destruct (node2 ed) as [[m b]|].
      * by apply list_elem_of_fmap_2.
      * destruct Hc as (-> & -> & Hop). split_and!; [done..|].
        by apply list_elem_of_fmap_2.
    + intros e' (e0 & -> & He0)%list_elem_of_fmap.
      destruct (ok_open _ _ _ Hok e0 He0) as (n & a & Hn & H0 & Hs).
      destruct (Hrecc e0) as (ed & H0' & H1).
      { eapply net_ok_all_edges; [done|]. eauto. }
      rewrite H0 in H0'. simplify_eq.
      exists (ren d.1 n), a. split_and!.
      * by apply list_elem_of_fmap_2.
      * done.
      * by rewrite Hslotc, Hs.
    + apply NoDup_fmap_2_strong; [|apply (ok_open_nodup _ _ _ Hok)].
      intros x y Hx' Hy'. apply Hinj; by eapply net_ok_open_in_all.
Qed.

(** ** Programs that build a circuit and a gate node *)

(** The state after [c = Circuit(n)], run in the store [w0]. *)
Definition new_circuit (n : Z) (w0 : World) : St :=
  match Circuit_init n w0 with
  | Ret w c => mkSt w c
  | Raise w _ => mkSt w (mkCircuit n [] [] [])
  end.

(** The state after [g = tn.Node(t, name=nm)], and the node [g]. *)
Definition new_node (t : Tensor) (nm : string) (s : St) : St * nat :=
  match tn_Node t nm (world s) with
  | Ret w g => (mkSt w (self s), g)
  | Raise w _ => (s, 0)
  end.

Lemma new_circuit_reachable n w0 : (2 <= n)%Z → reachable (new_circuit n w0).
Proof.
  intros Hn. destruct (Circuit_init_run n w0 Hn) as (w3 & w & c & Hrun & _).
  unfold new_circuit. rewrite Hrun. by eapply reach_init.
Qed.

Lemma new_node_fresh s t nm :
  reachable s → shape t = replicate (length (shape t)) 2 →
  reachable (new_node t nm s).1 ∧
  self (new_node t nm s).1 = self s ∧
  fresh_gate (world (new_node t nm s).1) (nodes (self s)) (new_node t nm s).2
             (length (shape t)) (λ a, length (w_edges (world s)) + a).
Proof.
  intros Hr Hsh. unfold new_node.
  destruct (tn_Node_pristine t nm (world s)) as (w' & -> & Hx & _ & _ & Hp).
  simpl. split_and!; [|done|].
  - by apply (reach_extend s).
  - apply pristine_fresh_gate; [done| |done].
    intros Hin.
    apply (ok_node _ _ _ (inv_net _ (reachable_Inv _ Hr))) in Hin.
    apply lookup_lt_is_Some in Hin. lia.
Qed.

End TensorNetwork.

(** * A register over the integers *)

(** The gates whose entries are integers, as tensors with every index of
    dimension 2.  The entries of ["y"] and ["h"] are not integers: they get
    the entries of ["i"] here, so that only the rank of their nodes is
    theirs. *)
Definition matrix (r : nat) (d : list Z) : Tensor := mkTensor (replicate r 2) d.

Definition x_gate : Tensor := matrix 2 [0; 1; 1; 0]%Z.
Definition z_gate : Tensor := matrix 2 [1; 0; 0; -1]%Z.
Definition i_gate : Tensor := matrix 2 [1; 0; 0; 1]%Z.
Definition cnot_gate : Tensor :=
  matrix 4 [1; 0; 0; 0;  0; 1; 0; 0;  0; 0; 0; 1;  0; 0; 1; 0]%Z.
Definition cz_gate : Tensor :=
  matrix 4 [1; 0; 0; 0;  0; 1; 0; 0;  0; 0; 1; 0;  0; 0; 0; -1]%Z.
Definition swap_gate : Tensor :=
  matrix 4 [1; 0; 0; 0;  0; 0; 1; 0;  0; 1; 0; 0;  0; 0; 0; 1]%Z.
Definition toffoli_gate : Tensor :=
  matrix 6 ((λ k, let r := k / 8 in let c := k mod 8 in
                  let c' := if Nat.eqb c 6 then 7
                            else if Nat.eqb c 7 then 6 else c in
                  if Nat.eqb r c' then 1%Z else 0%Z) <$> seq 0 64).

Definition int_gates (g : string) : Tensor :=
  if decide (g = "x") then x_gate
  else if decide (g = "z") then z_gate
  else if decide (g = "cnot") then cnot_gate
  else if decide (g = "cz") then cz_gate
  else if decide (g = "swap") then swap_gate
  else if decide (g = "toffoli") then toffoli_gate
  else i_gate.

Definition world0 : World (K := Z) := mkWorld [] [].

(** [c = Circuit(2)], then [g = gates.x()]; and [c = Circuit(2)], then
    [g = gates.cnot()]. *)
Definition two_qubits : St := new_circuit 0%Z 1%Z int_gates 2 world0.
Definition with_x : St * nat := new_node x_gate "x" two_qubits.
Definition with_cnot : St * nat := new_node cnot_gate "cnot" two_qubits.

Lemma two_qubits_reachable : reachable 0%Z 1%Z int_gates two_qubits.
Proof. by apply new_circuit_reachable. Qed.

Lemma with_x_reachable : reachable 0%Z 1%Z int_gates with_x.1.
Proof.
  by destruct (new_node_fresh 0%Z 1%Z Z.add Z.mul int_gates two_qubits
                 x_gate "x" two_qubits_reachable eq_refl) as (? & _).
Qed.

Lemma with_x_fresh :
  fresh_gate (world with_x.1) (nodes (self with_x.1)) with_x.2 2
             (λ a, length (w_edges (world two_qubits)) + a).
Proof.
  destruct (new_node_fresh 0%Z 1%Z Z.add Z.mul int_gates two_qubits x_gate "x")
    as (_ & Hs & Hf); [apply two_qubits_reachable|done|].
  unfold with_x. rewrite Hs. exact Hf.
Qed.

Lemma with_cnot_reachable : reachable 0%Z 1%Z int_gates with_cnot.1.
Proof.
  by destruct (new_node_fresh 0%Z 1%Z Z.add Z.mul int_gates two_qubits
                 cnot_gate "cnot" two_qubits_reachable eq_refl) as (? & _).
Qed.

Lemma with_cnot_fresh :
  fresh_gate (world with_cnot.1) (nodes (self with_cnot.1)) with_cnot.2 4
             (λ a, length (w_edges (world two_qubits)) + a).
Proof.
  destruct (new_node_fresh 0%Z 1%Z Z.add Z.mul int_gates two_qubits
              cnot_gate "cnot") as (_ & Hs & Hf);
    [apply two_qubits_reachable|done|].
  unfold with_cnot. rewrite Hs. exact Hf.
Qed.

Lemma two_qubits_front : length (front (self two_qubits)) = 2.
Proof. vm_compute. reflexivity. Qed.


Lemma with_cnot_front : length (front (self with_cnot.1)) = 2.
Proof. vm_compute. reflexivity. Qed.


Lemma C8_witness : NoDup (front (self two_qubits)).
Proof.
  exact (proj1 (proj2 (C8_front_invariant 0%Z 1%Z Z.add Z.mul int_gates
                         two_qubits two_qubits_reachable))).
Defined.

Lemma C7_witness :
  apply_general_gate with_x.2 [0; 1; 0]%Z with_x.1
    = Raise with_x.1 AssertionError.
Proof.
  exact (proj1 (proj2 (C7_duplicate_targets_rejected 0%Z 1%Z Z.add Z.mul
                         with_x.1 with_x.2 [0; 1; 0]%Z 0 2 0%Z
                         ltac:(lia) eq_refl eq_refl))).
Defined.

Lemma C10_witness :
  ∃ s', apply_single_gate with_x.2 (-1) with_x.1 = Ret s' tt ∧
        apply_single_gate with_x.2 1 with_x.1 = Ret s' tt.
Proof.
  destruct (C10_negative_targets_wrap 0%Z 1%Z Z.add Z.mul int_gates
              with_x.1 with_x.2
              (λ a, length (w_edges (world two_qubits)) + a) (-1)%Z
              with_x_reachable with_x_fresh) as (H & _ & _).
  destruct H as (s' & H1 & H2 & _).
  - vm_compute. split; [discriminate|reflexivity].
  - exists s'. split; [exact H1|]. exact H2.
Defined.

Lemma C5_witness :
  ∃ w c, Circuit_init 0%Z 1%Z int_gates 3 world0 = Ret w c ∧ nqubits c = 3%Z.
Proof.
  destruct (C5_boundary_nodes 0%Z 1%Z Z.add Z.mul int_gates 3 world0)
    as (w & c & Hrun & Hn & _); [lia|].
  exists w, c. split; [exact Hrun|exact Hn].
Defined.

(** The interior node of a register of three qubits has rank 3 and the
    nodes at its ends have rank 2. *)
Lemma C5_counterexample :
  ∃ w c, Circuit_init 0%Z 1%Z int_gates 3 world0 = Ret w c ∧
         (λ g, rank_of <$> tensor_of w g) <$> nodes c
           = [Some 2; Some 3; Some 2].
Proof. eexists _, _. split; [vm_compute; reflexivity|]. vm_compute. reflexivity. Qed.

Lemma C4_witness :
  ∃ s', apply_general_gate with_cnot.2 [0%Z] with_cnot.1 = Ret s' tt.
Proof.
  destruct (C4_rank_is_not_checked 0%Z 1%Z Z.add Z.mul int_gates
              with_cnot.1 with_cnot.2 4
              (λ a, length (w_edges (world two_qubits)) + a) [0])
    as (H & _).
  - exact with_cnot_reachable.
  - exact with_cnot_fresh.
  - apply NoDup_singleton.
  - rewrite with_cnot_front. repeat constructor.
  - destruct H as (s' & Hrun & _); [simpl; lia|].
    exists s'. exact Hrun.
Defined.

(** A gate node of rank 4 applied to one qubit: the call returns, and the
    gate is among the nodes afterwards. *)
Lemma C4_counterexample :
  tensor_of (world with_cnot.1) with_cnot.2 = Some cnot_gate ∧
  rank_of cnot_gate = 4 ∧
  ∃ s', apply_general_gate with_cnot.2 [0%Z] with_cnot.1 = Ret s' tt ∧
        nodes (self s') ≠ nodes (self with_cnot.1) ∧
        front (self s') ≠ front (self with_cnot.1).
Proof.
  split; [vm_compute; reflexivity|]. split; [reflexivity|].
  eexists. split; [vm_compute; reflexivity|]. split; vm_compute; discriminate.
Qed.
